(** * MusicBot: the per-guild playback queue and session state machine

    A shallow embedding of [src/main.py] (a discord.py voice bot) and the
    properties of its queue, retry, connection, autoplay and volume logic.

    Conventions of the embedding.
    - Python [int] is [Z]; [len(...)] is [length] (a [nat]), injected into
      [Z] where the source compares it with an [int].
    - Python [float] is the kernel's binary64 [float]: [time.time()]
      readings, retry delays and the gain factor are IEEE doubles, with the
      operations of [PrimFloat].
    - [collections.deque] is a [list] (left end first); [deque(maxlen=n)]
      is a list together with the bounded [deque_append].
    - [Optional[X]] is [option X]; a [dict] read with [.get] has fields of
      type [field X] (absent key, [None] value, or a value).
    - Every external collaborator (the clock, yt-dlp, the Spotify client,
      the voice gateway) is an oracle of the environment [Env]; the answer
      to the [n]-th interaction is a function of [n], so that two calls
      with the same arguments may answer differently.
    - An exception is a constructor of the result type; [try/except] is a
      [match] on it. *)

From Stdlib Require Import ZArith List String Ascii Bool Lia.
From Stdlib Require Import Floats.PrimFloat Numbers.Cyclic.Int63.Uint63.
From stdpp Require Import base option list gmap strings pretty.

Import ListNotations.
Local Open Scope string_scope.
Local Open Scope list_scope.
Local Open Scope Z_scope.

(** ** Python built-ins used by the source *)

Module Py.

(** [float(v)] for a Python [int]: exact for [|v| < 2^53], which covers
    every integer the source converts (minutes, seconds, percentages). *)
Definition float_of_int (v : Z) : float :=
  match v with
  | Z0 => 0%float
  | Zpos _ => PrimFloat.of_uint63 (Uint63.of_Z v)
  | Zneg p => PrimFloat.opp (PrimFloat.of_uint63 (Uint63.of_Z (Zpos p)))
  end.

(** [a > b] on floats. *)
Definition float_gt (a b : float) : bool := PrimFloat.ltb b a.

(** [d.append(x)] on a [deque(maxlen=maxlen)]: append on the right, then
    drop the leftmost element when the length exceeds [maxlen]. *)
Definition deque_append {A} (maxlen : nat) (d : list A) (x : A) : list A :=
  let d' := d ++ [x] in
  if (maxlen <? length d')%nat then tail d' else d'.

(** [d[-1]], for a non-empty deque. *)
Definition deque_last {A} (d : list A) : option A := last d.

(** [c.lower()] on one ASCII character. *)
Definition lower_ascii (c : ascii) : ascii :=
  let n := nat_of_ascii c in
  if ((65 <=? n) && (n <=? 90))%nat then ascii_of_nat (n + 32) else c.

(** [s.lower()], character by character. *)
Fixpoint lower (s : string) : string :=
  match s with
  | EmptyString => EmptyString
  | String c s' => String (lower_ascii c) (lower s')
  end.

(** [needle in hay] on strings: [needle] occurs as a substring. *)
Fixpoint contains (needle hay : string) : bool :=
  if String.prefix needle hay then true
  else match hay with
       | EmptyString => false
       | String _ hay' => contains needle hay'
       end.

(** [sep.join(parts)]. *)
Fixpoint join (sep : string) (parts : list string) : string :=
  match parts with
  | [] => ""
  | [p] => p
  | p :: ps => String.append p (String.append sep (join sep ps))
  end.

(** [s.split(c)[0]]: the text before the first [c]. *)
Fixpoint split_first (c : ascii) (s : string) : string :=
  match s with
  | EmptyString => EmptyString
  | String a s' => if Ascii.eqb a c then EmptyString else String a (split_first c s')
  end.

(** [s.split(c)[-1]]: the text after the last [c]. *)
Fixpoint split_last_aux (c : ascii) (s acc : string) : string :=
  match s with
  | EmptyString => acc
  | String a s' =>
      if Ascii.eqb a c then split_last_aux c s' s'
      else split_last_aux c s' acc
  end.
Definition split_last (c : ascii) (s : string) : string := split_last_aux c s s.

Definition is_space (c : ascii) : bool :=
  let n := nat_of_ascii c in
  ((n =? 32) || ((9 <=? n) && (n <=? 13)) || ((28 <=? n) && (n <=? 31)))%nat.

Fixpoint lstrip (s : string) : string :=
  match s with
  | String a s' => if is_space a then lstrip s' else s
  | EmptyString => EmptyString
  end.

Fixpoint rstrip (s : string) : string :=
  match s with
  | EmptyString => EmptyString
  | String a s' =>
      match rstrip s' with
      | EmptyString => if is_space a then EmptyString else String a EmptyString
      | r => String a r
      end
  end.

(** [s.strip()]. *)
Definition strip (s : string) : string := rstrip (lstrip s).

(** The characters [re.sub(r'[^\w\s-]', '', q)] keeps: word characters,
    white space and the hyphen. *)
Definition is_word (c : ascii) : bool :=
  let n := nat_of_ascii c in
  (((48 <=? n) && (n <=? 57)) || ((65 <=? n) && (n <=? 90))
   || ((97 <=? n) && (n <=? 122)) || (n =? 95))%nat.

Fixpoint keep_chars (keep : ascii -> bool) (s : string) : string :=
  match s with
  | EmptyString => EmptyString
  | String a s' =>
      if keep a then String a (keep_chars keep s') else keep_chars keep s'
  end.

Definition clean (q : string) : string :=
  keep_chars (fun c => is_word c || is_space c || (nat_of_ascii c =? 45)%nat) q.

(** Truthiness of a string: non-empty. *)
Definition truthy (s : string) : bool :=
  match s with EmptyString => false | _ => true end.

(** [a or b] on strings. *)
Definition str_or (a b : string) : string := if truthy a then a else b.

(** A value read from a [dict]: the key is absent, maps to [None], or
    maps to a value. *)
Inductive field (A : Type) : Type :=
| Missing : field A
| Null : field A
| Val : A -> field A.
Arguments Missing {A}.
Arguments Null {A}.
Arguments Val {A} _.

(** A Python number passed where [int] and [float] are both accepted. *)
Inductive number : Type :=
| PInt : Z -> number
| PFloat : float -> number.

(** [range(n)] as the list [0; 1; ...; n-1] (empty when [n <= 0]). *)
Definition range (n : Z) : list Z := map Z.of_nat (seq 0 (Z.to_nat n)).

(** [len(l)] as a Python [int]. *)
Definition len {A} (l : list A) : Z := Z.of_nat (length l).

(** [d.get(key, default)]: the default only replaces an absent key. *)
Definition get {A} (f : field A) (default : option A) : option A :=
  match f with
  | Missing => default
  | Null => None
  | Val a => Some a
  end.

End Py.

Export Py (field, Missing, Null, Val).

(** ** Utility classes (lines 119-144) *)

Record RetryConfig := mkRetryConfig {
  max_attempts : Z;
  delay : float;
  backoff : float
}.

(** [RetryConfig(max_attempts=3, delay=1.0, backoff=2.0)]: the defaults of
    the constructor. *)
Definition RetryConfig_default : RetryConfig :=
  {| max_attempts := 3; delay := 1%float; backoff := 2%float |}.

(** ** Songs and the per-guild queue (lines 146-237) *)

(** [EnhancedYTDLSource]: a [PCMVolumeTransformer] over the extracted
    stream; [volume] is the linear gain factor. *)
Record EnhancedYTDLSource := mkSource {
  src_title : option string;
  src_url : string;
  volume : float
}.

(** The only key the program reads back from [Song.spotify_data]. *)
Record SpotifyData := mkSpotifyData {
  spotify_url : string
}.

Record Song := mkSong {
  title : string;
  artist : string;
  duration : option Z;
  thumbnail : option string;
  youtube_url : option string;
  spotify_data : option SpotifyData;
  source : option EnhancedYTDLSource;
  retry_count : Z;
  max_retries : Z
}.

(** [Song.__init__] (lines 186-196). *)
Definition Song_init (title artist : string) (duration : option Z)
    (thumbnail youtube_url : option string)
    (spotify_data : option SpotifyData) : Song :=
  {| title := Py.str_or title "Unknown Title";
     artist := Py.str_or artist "Unknown Artist";
     duration := duration;
     thumbnail := thumbnail;
     youtube_url := youtube_url;
     spotify_data := spotify_data;
     source := None;
     retry_count := 0;
     max_retries := 2 |}.

(** The voice link owned by a session, as far as the program observes
    it. *)
Record VoiceClient := mkVoiceClient {
  vc_connected : bool;
  vc_channel : Z
}.

Record EnhancedMusicQueue := mkQueue {
  queue : list Song;
  current : option Song;
  is_playing : bool;
  voice_client : option VoiceClient;
  last_activity : float;
  connection_failures : Z;
  max_connection_failures : Z;
  autoplay_enabled : bool;
  last_played_songs : list Song;
  autoplay_history : list Song;
  autoplay_failures : Z;
  last_autoplay_attempt : float;
  max_autoplay_duration : Z
}.

(** Capacities of the two bounded deques ([deque(maxlen=5)],
    [deque(maxlen=20)], lines 208-209). *)
Definition last_played_maxlen : nat := 5.
Definition autoplay_history_maxlen : nat := 20.

(** [EnhancedMusicQueue.__init__], at clock reading [now]. *)
Definition EnhancedMusicQueue_init (now : float) : EnhancedMusicQueue :=
  {| queue := [];
     current := None;
     is_playing := false;
     voice_client := None;
     last_activity := now;
     connection_failures := 0;
     max_connection_failures := 3;
     autoplay_enabled := false;
     last_played_songs := [];
     autoplay_history := [];
     autoplay_failures := 0;
     last_autoplay_attempt := 0%float;
     max_autoplay_duration := 300 |}.

(** Field assignments [self.f = v]. *)
Section Setters.
Variable s : EnhancedMusicQueue.

Definition set_queue (q : list Song) : EnhancedMusicQueue :=
  mkQueue q (current s) (is_playing s) (voice_client s) (last_activity s)
    (connection_failures s) (max_connection_failures s) (autoplay_enabled s)
    (last_played_songs s) (autoplay_history s) (autoplay_failures s)
    (last_autoplay_attempt s) (max_autoplay_duration s).

Definition set_current (c : option Song) : EnhancedMusicQueue :=
  mkQueue (queue s) c (is_playing s) (voice_client s) (last_activity s)
    (connection_failures s) (max_connection_failures s) (autoplay_enabled s)
    (last_played_songs s) (autoplay_history s) (autoplay_failures s)
    (last_autoplay_attempt s) (max_autoplay_duration s).

Definition set_is_playing (b : bool) : EnhancedMusicQueue :=
  mkQueue (queue s) (current s) b (voice_client s) (last_activity s)
    (connection_failures s) (max_connection_failures s) (autoplay_enabled s)
    (last_played_songs s) (autoplay_history s) (autoplay_failures s)
    (last_autoplay_attempt s) (max_autoplay_duration s).

Definition set_voice_client (v : option VoiceClient) : EnhancedMusicQueue :=
  mkQueue (queue s) (current s) (is_playing s) v (last_activity s)
    (connection_failures s) (max_connection_failures s) (autoplay_enabled s)
    (last_played_songs s) (autoplay_history s) (autoplay_failures s)
    (last_autoplay_attempt s) (max_autoplay_duration s).

Definition set_last_activity (t : float) : EnhancedMusicQueue :=
  mkQueue (queue s) (current s) (is_playing s) (voice_client s) t
    (connection_failures s) (max_connection_failures s) (autoplay_enabled s)
    (last_played_songs s) (autoplay_history s) (autoplay_failures s)
    (last_autoplay_attempt s) (max_autoplay_duration s).

Definition set_connection_failures (n : Z) : EnhancedMusicQueue :=
  mkQueue (queue s) (current s) (is_playing s) (voice_client s) (last_activity s)
    n (max_connection_failures s) (autoplay_enabled s)
    (last_played_songs s) (autoplay_history s) (autoplay_failures s)
    (last_autoplay_attempt s) (max_autoplay_duration s).

Definition set_autoplay_enabled (b : bool) : EnhancedMusicQueue :=
  mkQueue (queue s) (current s) (is_playing s) (voice_client s) (last_activity s)
    (connection_failures s) (max_connection_failures s) b
    (last_played_songs s) (autoplay_history s) (autoplay_failures s)
    (last_autoplay_attempt s) (max_autoplay_duration s).

Definition set_last_played_songs (l : list Song) : EnhancedMusicQueue :=
  mkQueue (queue s) (current s) (is_playing s) (voice_client s) (last_activity s)
    (connection_failures s) (max_connection_failures s) (autoplay_enabled s)
    l (autoplay_history s) (autoplay_failures s)
    (last_autoplay_attempt s) (max_autoplay_duration s).

Definition set_autoplay_history (l : list Song) : EnhancedMusicQueue :=
  mkQueue (queue s) (current s) (is_playing s) (voice_client s) (last_activity s)
    (connection_failures s) (max_connection_failures s) (autoplay_enabled s)
    (last_played_songs s) l (autoplay_failures s)
    (last_autoplay_attempt s) (max_autoplay_duration s).

Definition set_autoplay_failures (n : Z) : EnhancedMusicQueue :=
  mkQueue (queue s) (current s) (is_playing s) (voice_client s) (last_activity s)
    (connection_failures s) (max_connection_failures s) (autoplay_enabled s)
    (last_played_songs s) (autoplay_history s) n
    (last_autoplay_attempt s) (max_autoplay_duration s).

Definition set_last_autoplay_attempt (t : float) : EnhancedMusicQueue :=
  mkQueue (queue s) (current s) (is_playing s) (voice_client s) (last_activity s)
    (connection_failures s) (max_connection_failures s) (autoplay_enabled s)
    (last_played_songs s) (autoplay_history s) (autoplay_failures s)
    t (max_autoplay_duration s).
End Setters.

(** [add_song] (lines 214-216), at clock reading [now]. *)
Definition add_song (now : float) (song : Song) (s : EnhancedMusicQueue)
    : EnhancedMusicQueue :=
  set_last_activity (set_queue s (queue s ++ [song])) now.

(** [get_next_song] (lines 218-221): [popleft] of a non-empty deque, else
    [None]. *)
Definition get_next_song (s : EnhancedMusicQueue)
    : option Song * EnhancedMusicQueue :=
  match queue s with
  | song :: rest => (Some song, set_queue s rest)
  | [] => (None, s)
  end.

(** [clear_queue] (lines 223-225). *)
Definition clear_queue (now : float) (s : EnhancedMusicQueue)
    : EnhancedMusicQueue :=
  set_last_activity (set_queue s []) now.

(** [is_inactive] (lines 227-228), at clock reading [now]. *)
Definition is_inactive (now : float) (timeout_minutes : Z)
    (s : EnhancedMusicQueue) : bool :=
  Py.float_gt (PrimFloat.sub now (last_activity s))
              (Py.float_of_int (timeout_minutes * 60)).

Definition reset_connection_failures (s : EnhancedMusicQueue) :=
  set_connection_failures s 0.

Definition increment_connection_failures (s : EnhancedMusicQueue) :=
  set_connection_failures s (connection_failures s + 1).


(** ** Sequences of queue operations *)

(** The two operations of claim C1, with the clock reading each
    [add_song] takes. *)
Inductive QueueOp :=
| Enqueue (now : float) (song : Song)
| DequeueNext.

(** Run a sequence of operations; the result lists what every
    [get_next_song] returned, in call order. *)
Fixpoint run_queue_ops (ops : list QueueOp) (s : EnhancedMusicQueue)
    : list (option Song) * EnhancedMusicQueue :=
  match ops with
  | [] => ([], s)
  | Enqueue now song :: ops' => run_queue_ops ops' (add_song now song s)
  | DequeueNext :: ops' =>
      let '(r, s1) := get_next_song s in
      let '(rs, s2) := run_queue_ops ops' s1 in
      (r :: rs, s2)
  end.

(** The songs passed to [add_song], in call order. *)
Fixpoint enqueued (ops : list QueueOp) : list Song :=
  match ops with
  | [] => []
  | Enqueue _ song :: ops' => song :: enqueued ops'
  | DequeueNext :: ops' => enqueued ops'
  end.

(** The songs actually returned (the non-[None] results). *)
Definition returned (rs : list (option Song)) : list Song := omap id rs.


Definition set_source (song : Song) (src : option EnhancedYTDLSource) : Song :=
  mkSong (title song) (artist song) (duration song) (thumbnail song)
    (youtube_url song) (spotify_data song) src (retry_count song)
    (max_retries song).

Definition set_retry_count (song : Song) (n : Z) : Song :=
  mkSong (title song) (artist song) (duration song) (thumbnail song)
    (youtube_url song) (spotify_data song) (source song) n
    (max_retries song).

Definition set_volume (src : EnhancedYTDLSource) (v : float)
    : EnhancedYTDLSource :=
  mkSource (src_title src) (src_url src) v.

(** ** The environment *)

(** Exceptions, as far as the handlers of the source tell them apart:
    [asyncio.TimeoutError] and any other [Exception].  Task cancellation
    is not modelled, and the chat gateway's [send]/[edit] are taken not to
    raise. *)
Inductive exn := TimeoutError | Exception.

Inductive result (A : Type) : Type :=
| Ok : A -> result A
| Raise : exn -> result A.
Arguments Ok {A} _.
Arguments Raise {A} _.

(** One entry of a yt-dlp info dict, with the keys the program reads. *)
Record YtdlEntry := mkEntry {
  e_title : field string;
  e_uploader : field string;
  e_webpage_url : field string;
  e_duration : field Z;
  e_thumbnail : field string;
  e_url : field string
}.

(** What [ytdl.extract_info] returns: a falsy value ([None] or an empty
    dict), the info dict of a single video, or a dict with an ['entries']
    list. *)
Inductive YtdlInfo :=
| InfoFalsy
| InfoSingle (e : YtdlEntry)
| InfoEntries (es : list YtdlEntry).

(** The first argument of [ytdl.extract_info]: a URL, or the search
    pseudo-URL [f"ytsearch{limit}:{query}"]. *)
Inductive YtdlRequest :=
| ReqUrl (url : option string)
| ReqSearch (limit : Z) (query : string).

(** One track of [spotify.recommendations(...)['tracks']]. *)
Record Track := mkTrack {
  name : string;
  artists : list string;
  duration_ms : Z;
  album_images : list string;
  external_url : string
}.

(** What an attempt on the voice gateway ([connect] or [move_to])
    answers. *)
Inductive VoiceAnswer :=
| Linked
| TimedOut
| Failed.

(** The external collaborators.  Each oracle takes the number of
    interactions made so far. *)
Record Env := mkEnv {
  ytdl : bool;
  spotify : bool;
  time_time : nat -> float;
  ytdl_extract_info : nat -> YtdlRequest -> result YtdlInfo;
  spotify_recommendations : nat -> string -> Z -> result (list Track);
  voice_gateway : nat -> Z -> VoiceAnswer
}.

(** User-visible notices (the embeds sent through the chat gateway). *)
Inductive Notice :=
| QueueFinished
| Loading (song_title : string)
| LoadFailed (song_title : string)
| NowPlaying (song_title : string)
| AutoplayActive (count : nat)
| VolumeError
| VolumeInfo (scaled : float)
| VolumeInvalid
| VolumeChanged (percent : Z).

(** What the program does to the outside, in order. *)
Inductive Event :=
| Sleep (seconds : Py.number)
| Extract (req : YtdlRequest)
| Send (n : Notice)
| Play (song : Song)
| Connect (channel : Z)
| MoveTo (channel : Z)
| Disconnect
| Recommend (seed : Song)
| SpotifyRecommendations (track_id : string).

Record World := mkWorld {
  tick : nat;
  log : list Event
}.

Definition emit (e : Event) (w : World) : World :=
  mkWorld (tick w) (log w ++ [e]).

(** One interaction with the environment: its index, and the world after
    it. *)
Definition ask (w : World) : nat * World :=
  (tick w, mkWorld (S (tick w)) (log w)).

(** ** [retry_async] (lines 125-144) *)

Section Retry.
Context {A : Type}.
Variable func : World -> result A * World.

(** The [for attempt in range(config.max_attempts)] loop.  Its state is
    the [config] object it was given and the locals [delay] and
    [last_exception]; the first component of the result is [Some r]
    when the loop left through [return]. *)
Fixpoint retry_loop (attempts : list Z) (config : RetryConfig)
    (delay : float) (last_exception : option exn) (w : World)
    : option A * RetryConfig * option exn * World :=
  match attempts with
  | [] => (None, config, last_exception, w)
  | attempt :: rest =>
      match func w with
      | (Ok r, w1) => (Some r, config, last_exception, w1)
      | (Raise e, w1) =>
          if attempt <? max_attempts config - 1 then
            retry_loop rest config (PrimFloat.mul delay (backoff config))
              (Some e) (emit (Sleep (Py.PFloat delay)) w1)
          else retry_loop rest config delay (Some e) w1
      end
  end.

(** [retry_async(func, config)]: the result, the state of the [config]
    object after the call, and the world. *)
Definition retry_async (config : RetryConfig) (w : World)
    : result A * RetryConfig * World :=
  match retry_loop (Py.range (max_attempts config)) config (delay config)
          None w with
  | (Some r, config', _, w') => (Ok r, config', w')
  | (None, config', Some e, w') => (Raise e, config', w')
  | (None, config', None, w') => (Raise Exception, config', w')
  end.
End Retry.

(** ** [EnhancedYTDLSource.from_url] (lines 156-183) *)

(** The source built from an info dict: [data['url']] must be a string
    for [FFmpegPCMAudio]; the gain starts at [volume=0.5]. *)
Definition source_of_entry (e : YtdlEntry) : result EnhancedYTDLSource :=
  match e_url e with
  | Val u => Ok (mkSource (Py.get (e_title e) None) u 0.5%float)
  | _ => Raise Exception
  end.

(** [_extract_info] (lines 160-181), with [stream=True]. *)
Definition _extract_info (E : Env) (url : option string) (w : World)
    : result EnhancedYTDLSource * World :=
  if negb (ytdl E) then (Raise Exception, w)
  else
    let '(n, w1) := ask w in
    let w2 := emit (Extract (ReqUrl url)) w1 in
    match ytdl_extract_info E n (ReqUrl url) with
    | Raise _ => (Raise Exception, w2)
    | Ok InfoFalsy => (Raise Exception, w2)
    | Ok (InfoEntries []) => (Raise Exception, w2)
    | Ok (InfoEntries (e :: _)) => (source_of_entry e, w2)
    | Ok (InfoSingle e) => (source_of_entry e, w2)
    end.

Definition from_url (E : Env) (url : option string)
    (retry_config : RetryConfig) (w : World)
    : result EnhancedYTDLSource * RetryConfig * World :=
  retry_async (_extract_info E url) retry_config w.

(** ** [play_next_song] (lines 614-724) *)

(** [after_playing] (lines 678-690), up to the hand-off of
    [play_next_in_queue] to the event loop. *)
Definition after_playing (s : EnhancedMusicQueue) : EnhancedMusicQueue :=
  let s1 :=
    match current s with
    | Some c =>
        set_last_played_songs s
          (Py.deque_append last_played_maxlen (last_played_songs s) c)
    | None => s
    end in
  set_current s1 None.

(** Lines 615-616: [if current is None: current = get_next_song()]. *)
Definition take_current (s : EnhancedMusicQueue) : EnhancedMusicQueue :=
  match current s with
  | None => let '(c, s') := get_next_song s in set_current s' c
  | Some _ => s
  end.

(** The configuration [play_next_song] builds at each call (line 634). *)
Definition play_retry_config : RetryConfig :=
  mkRetryConfig 3 2%float 2%float.

(** The recursion of [play_next_song] is bounded by [fuel]; [None] means
    the bound was too small ([play_fuel] below is always enough).
    [status_msg] tells whether a status message was passed. *)
Fixpoint play_next_song (fuel : nat) (E : Env) (status_msg : bool)
    (s : EnhancedMusicQueue) (w : World)
    : option (EnhancedMusicQueue * World) :=
  match fuel with
  | O => None
  | S fuel' =>
      let s0 := take_current s in
      match current s0 with
      | None =>
          Some (set_is_playing s0 false, emit (Send QueueFinished) w)
      | Some cur =>
          let s1 := set_is_playing s0 true in
          let retry_config := play_retry_config in
          let w1 := if status_msg then emit (Send (Loading (title cur))) w
                    else w in
          match from_url E (youtube_url cur) retry_config w1 with
          | (Ok src, _, w2) =>
              let cur' := set_source cur (Some src) in
              let s2 := set_current s1 (Some cur') in
              match voice_client s2 with
              | Some vc =>
                  if vc_connected vc then
                    Some (s2, emit (Send (NowPlaying (title cur')))
                                (emit (Play cur') w2))
                  else Some (set_is_playing s2 false, w2)
              | None => Some (set_is_playing s2 false, w2)
              end
          | (Raise _, _, w2) =>
              if retry_count cur <? max_retries cur then
                let cur' := set_retry_count cur (retry_count cur + 1) in
                let s2 := set_current s1 (Some cur') in
                play_next_song fuel' E status_msg s2
                  (emit (Sleep (Py.PInt 2)) w2)
              else
                let w3 := emit (Send (LoadFailed (title cur))) w2 in
                let s2 := set_current s1 None in
                match queue s2 with
                | _ :: _ =>
                    play_next_song fuel' E false s2
                      (emit (Sleep (Py.PInt 2)) w3)
                | [] => Some (set_is_playing s2 false, w3)
                end
          end
      end
  end.

(** Load attempts one song can still cause: one, plus its remaining
    retries. *)
Definition song_budget (song : Song) : nat :=
  S (Z.to_nat (max_retries song - retry_count song)).

(** A bound on the depth of the recursion of [play_next_song]. *)
Definition play_fuel (s : EnhancedMusicQueue) : nat :=
  S (match current s with Some c => song_budget c | None => O end
     + list_sum (map song_budget (queue s))).

(** ** [connect_to_voice_channel] (lines 556-612) *)

(** [voice_channel.connect(timeout=15.0)] or [move_to], answered by the
    gateway. *)
Definition gateway_call (E : Env) (ev : Event) (voice_channel : Z)
    (s : EnhancedMusicQueue) (w : World)
    : result bool * EnhancedMusicQueue * World :=
  let '(n, w1) := ask w in
  let w2 := emit ev w1 in
  match voice_gateway E n voice_channel with
  | Linked =>
      (Ok true,
       reset_connection_failures
         (set_voice_client s (Some (mkVoiceClient true voice_channel))),
       w2)
  | TimedOut => (Raise TimeoutError, s, w2)
  | Failed => (Raise Exception, s, w2)
  end.

(** The [try] block of one iteration (lines 561-582). *)
Definition connect_try (E : Env) (voice_channel : Z)
    (s : EnhancedMusicQueue) (w : World)
    : result bool * EnhancedMusicQueue * World :=
  match voice_client s with
  | Some vc =>
      if vc_connected vc then
        if vc_channel vc =? voice_channel then
          (Ok true, reset_connection_failures s, w)
        else gateway_call E (MoveTo voice_channel) voice_channel s w
      else
        gateway_call E (Connect voice_channel) voice_channel
          (set_voice_client s None) (emit Disconnect w)
  | None => gateway_call E (Connect voice_channel) voice_channel s w
  end.

(** The two handlers (lines 584-610) have the same body. *)
Definition connect_except (max_attempts attempt : Z)
    (s : EnhancedMusicQueue) (w : World) : EnhancedMusicQueue * World :=
  let s1 := increment_connection_failures s in
  let '(s2, w2) :=
    match voice_client s1 with
    | Some _ => (set_voice_client s1 None, emit Disconnect w)
    | None => (s1, w)
    end in
  if attempt <? max_attempts - 1
  then (s2, emit (Sleep (Py.PInt (2 ^ attempt))) w2)
  else (s2, w2).

(** The [for attempt in range(max_attempts)] loop. *)
Fixpoint connect_loop (E : Env) (voice_channel max_attempts : Z)
    (attempts : list Z) (s : EnhancedMusicQueue) (w : World)
    : bool * EnhancedMusicQueue * World :=
  match attempts with
  | [] => (false, s, w)
  | attempt :: rest =>
      match connect_try E voice_channel s w with
      | (Ok b, s1, w1) => (b, s1, w1)
      | (Raise _, s1, w1) =>
          let '(s2, w2) := connect_except max_attempts attempt s1 w1 in
          connect_loop E voice_channel max_attempts rest s2 w2
      end
  end.

Definition connect_to_voice_channel (E : Env) (s : EnhancedMusicQueue)
    (voice_channel : Z) (w : World) : bool * EnhancedMusicQueue * World :=
  let max_attempts := 3 in
  connect_loop E voice_channel max_attempts (Py.range max_attempts) s w.

(** ** Search helpers (lines 391-433) *)

Definition enhanced_youtube_search (E : Env) (query : string) (w : World)
    : option string * World :=
  if negb (ytdl E) then (None, w)
  else
    let clean_query := Py.strip (Py.clean query) in
    let '(n, w1) := ask w in
    let w2 := emit (Extract (ReqSearch 1 clean_query)) w1 in
    match ytdl_extract_info E n (ReqSearch 1 clean_query) with
    | Ok (InfoEntries (e :: _)) =>
        match e_webpage_url e with
        | Val u => (Some u, w2)
        | Null => (None, w2)
        | Missing => (None, w2)
        end
    | _ => (None, w2)
    end.

Definition enhanced_youtube_search_multiple (E : Env) (query : string)
    (limit : Z) (w : World) : list YtdlEntry * World :=
  if negb (ytdl E) then ([], w)
  else
    let clean_query := Py.strip (Py.clean query) in
    let '(n, w1) := ask w in
    let w2 := emit (Extract (ReqSearch limit clean_query)) w1 in
    match ytdl_extract_info E n (ReqSearch limit clean_query) with
    | Ok (InfoEntries es) => (es, w2)
    | _ => ([], w2)
    end.

(** ** [get_autoplay_recommendations] (lines 435-553) *)

(** Lines 466-469. *)
Definition is_duplicate_spotify (history : list Song)
    (track_title track_artist : string) : bool :=
  existsb (fun h => Py.contains track_title (Py.lower (title h))
                    && Py.contains track_artist (Py.lower (artist h)))
          history.

(** The loop over [rec_data.get('tracks', [])] (lines 456-484).  A track
    without artists raises at [track['artists'][0]]; the handler of line
    486 then ends the loop with the songs found so far. *)
Fixpoint spotify_tracks_loop (E : Env) (history : list Song)
    (max_songs MAX_DURATION : Z) (tracks : list Track)
    (recommendations : list Song) (w : World) : list Song * World :=
  match tracks with
  | [] => (recommendations, w)
  | track :: rest =>
      if max_songs <=? Py.len recommendations then (recommendations, w)
      else
        let track_duration := duration_ms track / 1000 in
        if MAX_DURATION <? track_duration then
          spotify_tracks_loop E history max_songs MAX_DURATION rest
            recommendations w
        else
          match artists track with
          | [] => (recommendations, w)
          | first :: _ =>
              let track_title := Py.lower (name track) in
              let track_artist := Py.lower first in
              if is_duplicate_spotify history track_title track_artist then
                spotify_tracks_loop E history max_songs MAX_DURATION rest
                  recommendations w
              else
                let search_query :=
                  String.append (name track) (String.append " " first) in
                let '(youtube_url, w1) :=
                  enhanced_youtube_search E search_query w in
                match youtube_url with
                | Some u =>
                    if Py.truthy u then
                      let song :=
                        Song_init (name track) (Py.join ", " (artists track))
                          (Some track_duration) (head (album_images track))
                          (Some u)
                          (Some (mkSpotifyData (external_url track))) in
                      spotify_tracks_loop E history max_songs MAX_DURATION
                        rest (recommendations ++ [song]) w1
                    else
                      spotify_tracks_loop E history max_songs MAX_DURATION
                        rest recommendations w1
                | None =>
                    spotify_tracks_loop E history max_songs MAX_DURATION
                      rest recommendations w1
                end
          end
  end.

(** Lines 441-490: the Spotify strategy. *)
Definition spotify_strategy (E : Env) (last_song : Song)
    (history : list Song) (max_songs MAX_DURATION : Z) (w : World)
    : list Song * World :=
  match spotify_data last_song with
  | Some sd =>
      if spotify E && (0 <? max_songs) then
        if Py.truthy (spotify_url sd) then
          let track_id :=
            Py.split_first "?" (Py.split_last "/" (spotify_url sd)) in
          if Py.truthy track_id && (String.length track_id =? 22)%nat then
            let '(n, w1) := ask w in
            let w2 := emit (SpotifyRecommendations track_id) w1 in
            match spotify_recommendations E n track_id max_songs with
            | Ok tracks =>
                spotify_tracks_loop E history max_songs MAX_DURATION tracks
                  [] w2
            | Raise _ => ([], w2)
            end
          else ([], w)
        else ([], w)
      else ([], w)
  | None => ([], w)
  end.

(** Lines 523-528.  With a non-empty history the generator calls
    [title.lower()], which raises when the title is [None]. *)
Definition is_duplicate_youtube (history : list Song) (last_song : Song)
    (title' webpage_url : option string) : result bool :=
  match history with
  | [] => Ok false
  | _ :: _ =>
      match title' with
      | None => Raise Exception
      | Some t =>
          Ok (existsb
                (fun h =>
                   (Py.contains (Py.lower t) (Py.lower (title h))
                    || Py.contains (Py.lower (title h)) (Py.lower t))
                   || bool_decide (youtube_url h = webpage_url)
                   || String.eqb (Py.lower t) (Py.lower (title last_song)))
                history)
      end
  end.

(** Truthiness of an optional string. *)
Definition truthy_opt (o : option string) : bool :=
  match o with Some u => Py.truthy u | None => false end.

(** [duration and duration > MAX_DURATION] (line 520). *)
Definition too_long (MAX_DURATION : Z) (duration : option Z) : bool :=
  match duration with
  | Some d => negb (d =? 0) && (MAX_DURATION <? d)
  | None => false
  end.

(** The loop over one query's results (lines 511-538); an exception ends
    it (handler of line 540) with the songs found so far. *)
Fixpoint youtube_results_loop (history : list Song) (last_song : Song)
    (max_songs MAX_DURATION : Z) (search_results : list YtdlEntry)
    (recommendations : list Song) : list Song :=
  match search_results with
  | [] => recommendations
  | r :: rest =>
      if max_songs <=? Py.len recommendations then recommendations
      else
        let title' := Py.get (e_title r) (Some "Unknown Title") in
        let artist' := Py.get (e_uploader r) (Some "Unknown Artist") in
        let webpage_url := Py.get (e_webpage_url r) (Some "") in
        let duration' := Py.get (e_duration r) (Some 0) in
        if too_long MAX_DURATION duration' then
          youtube_results_loop history last_song max_songs MAX_DURATION rest
            recommendations
        else
          match is_duplicate_youtube history last_song title' webpage_url with
          | Raise _ => recommendations
          | Ok is_duplicate =>
              if negb is_duplicate && truthy_opt webpage_url then
                let song :=
                  Song_init (default "" title') (default "" artist')
                    duration' (Py.get (e_thumbnail r) None) webpage_url
                    None in
                youtube_results_loop history last_song max_songs
                  MAX_DURATION rest (recommendations ++ [song])
              else
                youtube_results_loop history last_song max_songs
                  MAX_DURATION rest recommendations
          end
  end.

(** The loop over the fallback queries (lines 503-542). *)
Fixpoint youtube_queries_loop (E : Env) (history : list Song)
    (last_song : Song) (max_songs MAX_DURATION : Z)
    (search_queries : list string) (recommendations : list Song)
    (w : World) : list Song * World :=
  match search_queries with
  | [] => (recommendations, w)
  | query :: rest =>
      if max_songs <=? Py.len recommendations then (recommendations, w)
      else
        let '(search_results, w1) :=
          enhanced_youtube_search_multiple E query
            (max_songs - Py.len recommendations) w in
        youtube_queries_loop E history last_song max_songs MAX_DURATION rest
          (youtube_results_loop history last_song max_songs MAX_DURATION
             search_results recommendations)
          w1
  end.

(** Lines 496-501. *)
Definition autoplay_queries (last_song : Song) : list string :=
  let artist_name := Py.strip (Py.split_first "," (artist last_song)) in
  [ String.append artist_name " lagu terbaru";
    String.append artist_name " lagu populer";
    String.append (title last_song) " remix";
    String.append "musik " artist_name ].

(** Lines 493-542: the YouTube-only strategy. *)
Definition youtube_strategy (E : Env) (last_song : Song)
    (history : list Song) (max_songs MAX_DURATION : Z)
    (recommendations : list Song) (w : World) : list Song * World :=
  if (Py.len recommendations <? max_songs) && ytdl E then
    youtube_queries_loop E history last_song max_songs MAX_DURATION
      (autoplay_queries last_song) recommendations w
  else (recommendations, w).

(** Lines 545-546. *)
Definition add_to_history (history recommendations : list Song)
    : list Song :=
  fold_left (Py.deque_append autoplay_history_maxlen) recommendations
    history.

Definition get_autoplay_recommendations (E : Env) (last_song : Song)
    (s : EnhancedMusicQueue) (max_songs max_duration : Z) (w : World)
    : list Song * EnhancedMusicQueue * World :=
  let MAX_DURATION := max_duration in
  let history := autoplay_history s in
  let '(recs1, w1) :=
    spotify_strategy E last_song history max_songs MAX_DURATION w in
  let '(recs2, w2) :=
    youtube_strategy E last_song history max_songs MAX_DURATION recs1 w1 in
  (recs2, set_autoplay_history s (add_to_history history recs2), w2).

(** ** [play_next_in_queue] (lines 726-783) *)

(** [for song in recommendations: music_queue.add_song(song)]; every
    [add_song] reads the clock. *)
Fixpoint add_songs (E : Env) (songs : list Song)
    (s : EnhancedMusicQueue) (w : World) : EnhancedMusicQueue * World :=
  match songs with
  | [] => (s, w)
  | song :: rest =>
      let '(n, w1) := ask w in
      add_songs E rest (add_song (time_time E n) song s) w1
  end.

(** The guard of lines 732-734; the clock is read only when the first
    three conjuncts hold. *)
Definition autoplay_due (E : Env) (s : EnhancedMusicQueue) (w : World)
    : bool * World :=
  if autoplay_enabled s
     && negb (bool_decide (last_played_songs s = []))
     && (autoplay_failures s <? 3)
  then
    let '(n, w1) := ask w in
    (Py.float_gt (PrimFloat.sub (time_time E n) (last_autoplay_attempt s))
       30%float, w1)
  else (false, w).

(** Lines 776-783. *)
Definition queue_finished (s : EnhancedMusicQueue) (w : World)
    : EnhancedMusicQueue * World :=
  let s1 := set_is_playing s false in
  if autoplay_enabled s1 then (s1, w)
  else (s1, emit (Send QueueFinished) w).

Definition play_next_in_queue (fuel : nat) (E : Env)
    (s : EnhancedMusicQueue) (w : World)
    : option (EnhancedMusicQueue * World) :=
  let '(c, s1) := get_next_song s in
  let s2 := set_current s1 c in
  match c with
  | Some _ => play_next_song fuel E false s2 w
  | None =>
      let '(due, w1) := autoplay_due E s2 w in
      if due then
        let '(n, w2) := ask w1 in
        let s3 := set_last_autoplay_attempt s2 (time_time E n) in
        match Py.deque_last (last_played_songs s3) with
        | None =>
            Some (queue_finished
                    (set_autoplay_failures s3 (autoplay_failures s3 + 1)) w2)
        | Some last_song =>
            let w3 := emit (Recommend last_song) w2 in
            let '(recommendations, s4, w4) :=
              get_autoplay_recommendations E last_song s3 3 300 w3 in
            match recommendations with
            | [] =>
                Some (queue_finished
                        (set_autoplay_failures s4 (autoplay_failures s4 + 1))
                        w4)
            | _ :: _ =>
                let s5 := set_autoplay_failures s4 0 in
                let '(s6, w5) := add_songs E recommendations s5 w4 in
                let w6 :=
                  emit (Send (AutoplayActive (length recommendations))) w5 in
                let '(c', s7) := get_next_song s6 in
                let s8 := set_current s7 c' in
                match c' with
                | Some _ => play_next_song fuel E false s8 w6
                | None => Some (queue_finished s8 w6)
                end
            end
        end
      else Some (queue_finished s2 w1)
  end.

(** ** The sweeper (lines 884-912) and the commands (lines 915-1456) *)

(** The body of the sweep for one session (lines 891-906). *)
Definition cleanup_session (E : Env) (s : EnhancedMusicQueue) (w : World)
    : EnhancedMusicQueue * World :=
  match voice_client s with
  | Some vc =>
      if negb (vc_connected vc) then
        let s1 := set_current (set_is_playing (set_voice_client s None) false)
                    None in
        let '(n, w1) := ask w in
        (clear_queue (time_time E n) s1, w1)
      else
        let '(n, w1) := ask w in
        if is_inactive (time_time E n) 15 s then
          let w2 := emit Disconnect w1 in
          let s1 := set_current
                      (set_is_playing (set_voice_client s None) false) None in
          let '(n', w3) := ask w2 in
          (clear_queue (time_time E n') s1, w3)
        else (s, w1)
  | None => (s, w)
  end.

(** [get_music_queue] (lines 242-245). *)
Definition get_music_queue (E : Env) (guild_id : Z)
    (music_queues : gmap Z EnhancedMusicQueue) (w : World)
    : EnhancedMusicQueue * gmap Z EnhancedMusicQueue * World :=
  match music_queues !! guild_id with
  | Some s => (s, music_queues, w)
  | None =>
      let '(n, w1) := ask w in
      let s := EnhancedMusicQueue_init (time_time E n) in
      (s, <[guild_id := s]> music_queues, w1)
  end.

Module Commands.

(** [play], from the point where the search has produced [song]
    (lines 1023-1045). *)
Definition play (fuel : nat) (E : Env) (song : option Song)
    (s : EnhancedMusicQueue) (w : World)
    : option (EnhancedMusicQueue * World) :=
  match song with
  | None => Some (s, w)
  | Some song =>
      let '(n, w1) := ask w in
      let s1 := add_song (time_time E n) song s in
      if negb (is_playing s1) then play_next_song fuel E true s1 w1
      else Some (s1, w1)
  end.

(** [stop] (lines 1086-1114); the voice client's [stop()] later fires
    [after_playing]. *)
Definition stop (E : Env) (s : EnhancedMusicQueue) (w : World)
    : EnhancedMusicQueue * World :=
  match voice_client s with
  | Some _ =>
      let '(n, w1) := ask w in
      (set_is_playing (set_current (clear_queue (time_time E n) s) None)
         false, w1)
  | None => (s, w)
  end.

(** [disconnect] (lines 1174-1202). *)
Definition disconnect (E : Env) (s : EnhancedMusicQueue) (w : World)
    : EnhancedMusicQueue * World :=
  match voice_client s with
  | Some _ =>
      let '(n, w1) := ask w in
      let s1 := set_is_playing
                  (set_current (clear_queue (time_time E n) s) None)
                  false in
      (set_voice_client s1 None, emit Disconnect w1)
  | None => (s, w)
  end.

(** [clear] (lines 1307-1330). *)
Definition clear_queue (E : Env) (s : EnhancedMusicQueue) (w : World)
    : EnhancedMusicQueue * World :=
  match queue s with
  | [] => (s, w)
  | _ :: _ =>
      let '(n, w1) := ask w in
      (clear_queue (time_time E n) s, w1)
  end.

(** [autoplay] (lines 1333-1398): [action] is [None] for the status
    form, else whether the word asks for on ([Some true]), off
    ([Some false]); an unknown word changes nothing. *)
Definition autoplay (action : option bool) (s : EnhancedMusicQueue)
    : EnhancedMusicQueue :=
  match action with
  | None => s
  | Some true =>
      if autoplay_enabled s then s else set_autoplay_enabled s true
  | Some false =>
      if negb (autoplay_enabled s) then s else set_autoplay_enabled s false
  end.

(** [volume] on the session of the guild (lines 1411-1456). *)
Definition volume_session (volume' : option Z) (s : EnhancedMusicQueue)
    (w : World) : EnhancedMusicQueue * World :=
  match voice_client s, current s with
  | Some _, Some cur =>
      match source cur with
      | Some src =>
          match volume' with
          | None =>
              (s, emit (Send (VolumeInfo
                                (PrimFloat.mul (volume src) 100%float))) w)
          | Some v =>
              if (v <? 0) || (200 <? v) then
                (s, emit (Send VolumeInvalid) w)
              else
                let src' :=
                  set_volume src
                    (PrimFloat.div (Py.float_of_int v) 100%float) in
                (set_current s (Some (set_source cur (Some src'))),
                 emit (Send (VolumeChanged v)) w)
          end
      | None => (s, emit (Send VolumeError) w)
      end
  | _, _ => (s, emit (Send VolumeError) w)
  end.

(** [volume] (lines 1400-1456). *)
Definition volume (E : Env) (guild_id : Z) (volume' : option Z)
    (music_queues : gmap Z EnhancedMusicQueue) (w : World)
    : gmap Z EnhancedMusicQueue * World :=
  let '(s, music_queues1, w1) := get_music_queue E guild_id music_queues w in
  let '(s', w2) := volume_session volume' s w1 in
  (<[guild_id := s']> music_queues1, w2).

End Commands.

(** The gain factor of the active stream, if there is one. *)
Definition gain (s : EnhancedMusicQueue) : option float :=
  match current s with
  | Some cur => volume <$> source cur
  | None => None
  end.

(** [delayed_disconnect_if_alone] (lines 851-882), after its sleep;
    [alone] tells whether the channel has no human member left. *)
Definition delayed_disconnect_if_alone (E : Env) (alone : bool)
    (s : EnhancedMusicQueue) (w : World) : EnhancedMusicQueue * World :=
  match voice_client s with
  | Some vc =>
      if vc_connected vc && alone then
        let '(n, w1) := ask w in
        let s1 := set_is_playing
                    (set_current (clear_queue (time_time E n) s) None)
                    false in
        (set_voice_client s1 None, emit Disconnect w1)
      else (s, w)
  | None => (s, w)
  end.

(** ** The session as a transition system *)

(** What can happen to one session between two observations: a command,
    the completion callback, the scheduled [play_next_in_queue], a sweep,
    or the voice link dropping. *)
Inductive Step (E : Env)
    : EnhancedMusicQueue * World -> EnhancedMusicQueue * World -> Prop :=
| step_connect s w ch b s' w' :
    connect_to_voice_channel E s ch w = (b, s', w') ->
    Step E (s, w) (s', w')
| step_play s w fuel found r :
    (forall song, found = Some song ->
       exists t a d th u sd, song = Song_init t a d th u sd) ->
    Commands.play fuel E found s w = Some r ->
    Step E (s, w) r
| step_after_playing s w :
    Step E (s, w) (after_playing s, w)
| step_play_next_in_queue s w fuel r :
    play_next_in_queue fuel E s w = Some r ->
    Step E (s, w) r
| step_stop s w :
    Step E (s, w) (Commands.stop E s w)
| step_disconnect s w :
    Step E (s, w) (Commands.disconnect E s w)
| step_clear s w :
    Step E (s, w) (Commands.clear_queue E s w)
| step_autoplay s w action :
    Step E (s, w) (Commands.autoplay action s, w)
| step_volume s w v :
    Step E (s, w) (Commands.volume_session v s w)
| step_cleanup s w :
    Step E (s, w) (cleanup_session E s w)
| step_alone s w alone :
    Step E (s, w) (delayed_disconnect_if_alone E alone s w)
| step_link_lost s w vc :
    voice_client s = Some vc ->
    Step E (s, w)
      (set_voice_client s (Some (mkVoiceClient false (vc_channel vc))), w).

(** The states a session goes through, from its creation by
    [get_music_queue]. *)
Inductive reachable (E : Env) : EnhancedMusicQueue * World -> Prop :=
| reach_init n :
    reachable E (EnhancedMusicQueue_init (time_time E n), mkWorld (S n) [])
| reach_step x y :
    reachable E x -> Step E x y -> reachable E y.

(** A song within its retry cap. *)
Definition song_ok (song : Song) : Prop :=
  max_retries song = 2 /\ 0 <= retry_count song <= max_retries song.

(** The invariant of a session: every song it holds is within its retry
    cap, and the two rings are within their capacities. *)
Record session_inv (s : EnhancedMusicQueue) : Prop := mkInv {
  inv_queue : Forall song_ok (queue s);
  inv_current : forall c, current s = Some c -> song_ok c;
  inv_played : Forall song_ok (last_played_songs s);
  inv_history : Forall song_ok (autoplay_history s);
  inv_played_len : (length (last_played_songs s) <= last_played_maxlen)%nat;
  inv_history_len :
    (length (autoplay_history s) <= autoplay_history_maxlen)%nat
}.

(** Every song a session holds. *)
Definition session_songs (s : EnhancedMusicQueue) : list Song :=
  queue s ++ option_list (current s) ++ last_played_songs s
  ++ autoplay_history s.

(** ** Observations on the log *)

(** The URLs handed to yt-dlp for playback. *)
Definition is_load (u : option string) (e : Event) : Prop :=
  e = Extract (ReqUrl u).

(** The skeleton of a connection run: gateway attempts and pauses. *)
Inductive ConnStep :=
| Attempt
| Pause (seconds : Py.number).

Fixpoint conn_skeleton (evs : list Event) : list ConnStep :=
  match evs with
  | [] => []
  | Connect _ :: evs' => Attempt :: conn_skeleton evs'
  | MoveTo _ :: evs' => Attempt :: conn_skeleton evs'
  | Sleep n :: evs' => Pause n :: conn_skeleton evs'
  | _ :: evs' => conn_skeleton evs'
  end.

(** A recommended song repeats an entry of the history when title and
    artist agree up to case. *)
Definition pair_duplicate (x h : Song) : Prop :=
  Py.lower (title x) = Py.lower (title h)
  /\ Py.lower (artist x) = Py.lower (artist h).

(** ** Concrete environments and sessions *)

Module Sample.

(** A clock that advances 1000 seconds per reading. *)
Definition clock (n : nat) : float := Py.float_of_int (1000 * Z.of_nat n).

Definition entry (t u : string) : YtdlEntry :=
  mkEntry (Val t) (Val "Uploader") (Val u) (Val 200) Missing (Val u).

(** yt-dlp answers every request with one playable entry; Spotify is
    not configured; the gateway links at once. *)
Definition env_up : Env :=
  mkEnv true false clock
    (fun _ _ => Ok (InfoEntries [entry "Found" "https://youtu.be/found"]))
    (fun _ _ _ => Raise Exception)
    (fun _ _ => Linked).

(** yt-dlp fails every request and the gateway times out. *)
Definition env_down : Env :=
  mkEnv true true clock
    (fun _ _ => Raise Exception)
    (fun _ _ _ => Raise TimeoutError)
    (fun _ _ => TimedOut).

Definition song (t : string) : Song :=
  Song_init t "Artist" (Some 180) None (Some (String.append "https://youtu.be/" t))
    None.

Definition w0 : World := mkWorld 1 [].

(** A fresh session, created at the first clock reading. *)
Definition fresh : EnhancedMusicQueue := EnhancedMusicQueue_init (clock 0).

(** A fresh session with a live voice link to channel 7. *)
Definition linked : EnhancedMusicQueue :=
  set_voice_client fresh (Some (mkVoiceClient true 7)).

(** The state after [connect_to_voice_channel] linked a fresh session
    to channel 7. *)
Definition connected : EnhancedMusicQueue * World :=
  let '(_, s, w) := connect_to_voice_channel env_up fresh 7 w0 in (s, w).

End Sample.

(** A scripted run: for each title, the [play] command, the completion
    callback once the track ends, and the scheduled
    [play_next_in_queue]. *)
Fixpoint play_through (E : Env) (titles : list string)
    (x : EnhancedMusicQueue * World) : EnhancedMusicQueue * World :=
  match titles with
  | [] => x
  | t :: rest =>
      match Commands.play 10 E (Some (Sample.song t)) x.1 x.2 with
      | Some y =>
          match play_next_in_queue 10 E (after_playing y.1) y.2 with
          | Some z => play_through E rest z
          | None => x
          end
      | None => x
      end
  end.

(** The number of gateway attempts ([connect] or [move_to]) in a log. *)
Fixpoint count_attempts (steps : list ConnStep) : nat :=
  match steps with
  | [] => O
  | Attempt :: steps' => S (count_attempts steps')
  | Pause _ :: steps' => count_attempts steps'
  end.

Definition attempts_made (evs : list Event) : nat :=
  count_attempts (conn_skeleton evs).

(** The skeleton of a run in which all three attempts fail. *)
Definition three_failures : list ConnStep :=
  [Attempt; Pause (Py.PInt 1); Attempt; Pause (Py.PInt 2); Attempt].

(** A function that raises at every call, without any other effect. *)
Definition always_raises {A} (w : World) : result A * World :=
  (Raise Exception, w).

Module Sample2.

(** The state after [play] resolved and started a song on the linked
    session. *)
Definition playing : EnhancedMusicQueue * World :=
  match Commands.play 10 Sample.env_up (Some (Sample.song "a"))
          Sample.connected.1 Sample.connected.2 with
  | Some y => y
  | None => Sample.connected
  end.

(** The registry with that session for guild 1. *)
Definition registry : gmap Z EnhancedMusicQueue := {[ 1 := playing.1 ]}.

End Sample2.

(** The gain factor of the active stream of a guild. *)
Definition gain_of (music_queues : gmap Z EnhancedMusicQueue) (guild_id : Z)
    : option float :=
  music_queues !! guild_id ≫= gain.

Module Sample3.

(** Search results with one over-long entry, one entry whose title is in
    the history up to case, and one fresh entry. *)
Definition results : list YtdlEntry :=
  [ mkEntry (Val "Long Mix") (Val "Uploader") (Val "https://youtu.be/long")
      (Val 400) Missing (Val "https://cdn.example/long");
    mkEntry (Val "OLD SONG") (Val "Artist") (Val "https://youtu.be/old2")
      (Val 100) Missing (Val "https://cdn.example/old2");
    mkEntry (Val "Fresh") (Val "Uploader") (Val "https://youtu.be/fresh")
      (Val 200) Missing (Val "https://cdn.example/fresh") ].

Definition env : Env :=
  mkEnv true false Sample.clock
    (fun _ _ => Ok (InfoEntries results))
    (fun _ _ _ => Raise Exception)
    (fun _ _ => Linked).

(** A session whose [autoplay_history] holds "old song". *)
Definition session : EnhancedMusicQueue :=
  set_autoplay_history Sample.linked [Sample.song "old song"].

End Sample3.

(** [w'] continues [w]: its log is the log of [w] followed by events that
    all satisfy [Q]. *)
Definition extends (Q : Event -> Prop) (w w' : World) : Prop :=
  exists evs, log w' = log w ++ evs /\ Forall Q evs.

(** The events [play_next_song] can cause on a session holding [songs]:
    pauses, notices, playback, and extraction of the URL of one of the
    [songs]. *)
Definition driver_event (songs : list Song) (e : Event) : Prop :=
  match e with
  | Extract (ReqUrl u) => exists x, x ∈ songs /\ youtube_url x = u
  | Sleep _ | Send _ | Play _ => True
  | _ => False
  end.

(** The events [get_autoplay_recommendations] can cause: provider
    requests. *)
Definition provider_event (e : Event) : Prop :=
  match e with
  | Extract (ReqSearch _ _) | SpotifyRecommendations _ => True
  | _ => False
  end.

(** The songs the playback driver can still load. *)
Definition pending (s : EnhancedMusicQueue) : list Song :=
  option_list (current s) ++ queue s.

(** The fields [play_next_song] never writes. *)
Definition same_settings (s s' : EnhancedMusicQueue) : Prop :=
  last_activity s' = last_activity s
  /\ autoplay_enabled s' = autoplay_enabled s
  /\ autoplay_failures s' = autoplay_failures s
  /\ last_autoplay_attempt s' = last_autoplay_attempt s
  /\ last_played_songs s' = last_played_songs s
  /\ autoplay_history s' = autoplay_history s
  /\ voice_client s' = voice_client s
  /\ connection_failures s' = connection_failures s.

(** The state and the world in which [play_next_in_queue] calls
    [get_autoplay_recommendations]: two clock readings after [w] (the
    guard and the time stamp). *)
Definition autoplay_state (E : Env) (s : EnhancedMusicQueue) (w : World)
    : EnhancedMusicQueue :=
  set_last_autoplay_attempt (set_current s None) (time_time E (S (tick w))).

Definition autoplay_world (seed : Song) (w : World) : World :=
  emit (Recommend seed) (ask (ask w).2).2.

Module Sample4.

(** Autoplay switched on, one song played to its end, nothing queued. *)
Definition drained : EnhancedMusicQueue :=
  set_last_played_songs (set_autoplay_enabled Sample.linked true)
    [Sample.song "seed"].

(** The same session 30 seconds exactly after an attempt made at clock
    reading 970. *)
Definition cooling : EnhancedMusicQueue :=
  set_last_autoplay_attempt drained 970%float.

(** A seed that carries Spotify provenance (a 22-character track id). *)
Definition spotify_seed : Song :=
  Song_init "Seed" "Artist, Other" (Some 200) None
    (Some "https://youtu.be/seed")
    (Some (mkSpotifyData
             "https://open.spotify.com/track/0123456789abcdefghijkl?si=x")).

Definition drained_spotify : EnhancedMusicQueue :=
  set_last_played_songs (set_autoplay_enabled Sample3.session true)
    [spotify_seed].

(** Spotify raises, yt-dlp answers. *)
Definition env_spotify_down : Env :=
  mkEnv true true Sample.clock
    (fun _ _ => Ok (InfoEntries Sample3.results))
    (fun _ _ _ => Raise Exception)
    (fun _ _ => Linked).

End Sample4.

(** Two records describe the same track when they agree on everything
    except the per-attempt fields [source] and [retry_count]. *)
Definition same_track (x y : Song) : Prop :=
  set_source (set_retry_count x 0) None
  = set_source (set_retry_count y 0) None.

Module Sample5.

(** A session whose current song has used up its retries, with one more
    song queued behind it. *)
Definition capped : EnhancedMusicQueue :=
  set_current (add_song 1%float (Sample.song "b") Sample.linked)
    (Some (set_retry_count (Sample.song "a") 2)).

End Sample5.

Module Sample6.

(** Song "a" is playing and "b" was queued behind it. *)
Definition queued : EnhancedMusicQueue * World :=
  match Commands.play 10 Sample.env_up (Some (Sample.song "b"))
          Sample2.playing.1 Sample2.playing.2 with
  | Some y => y
  | None => Sample2.playing
  end.

(** "a" has ended; the scheduled [play_next_in_queue] dequeued "b" and
    started it. *)
Definition busy : EnhancedMusicQueue * World :=
  match play_next_in_queue 10 Sample.env_up (after_playing queued.1)
          queued.2 with
  | Some y => y
  | None => queued
  end.

End Sample6.

(** ** Metadata and media resolvers (lines 260-389) *)

(** [is_spotify_url] and [is_youtube_url] (lines 260-264). *)
Definition is_spotify_url (url : string) : bool :=
  Py.contains "open.spotify.com" url.

Definition is_youtube_url (url : string) : bool :=
  existsb (fun domain => Py.contains domain url)
    ["youtube.com"; "youtu.be"; "youtube-nocookie.com"].

(** What [spotify.search(q=..., type='track', limit=1)] returns: a falsy
    value, a dict without ['tracks'], or the list
    [results['tracks']['items']]. *)
Inductive SpotifySearch :=
| SearchFalsy
| SearchNoTracks
| SearchItems (items : list Track).

(** The collaborators of the [play] command: those of [Env], and the two
    look-ups of the Spotify client. *)
Record Resolvers := mkResolvers {
  base : Env;
  spotify_search : nat -> string -> result SpotifySearch;
  spotify_track : nat -> string -> result Track
}.

(** The dict built at lines 284-290 and 313-319. *)
Record SpotifyInfo := mkSpotifyInfo {
  si_title : string;
  si_artist : string;
  si_duration : Z;
  si_thumbnail : option string;
  si_spotify_url : string
}.

Definition spotify_info_of_track (track : Track) : SpotifyInfo :=
  {| si_title := name track;
     si_artist := Py.join ", " (artists track);
     si_duration := duration_ms track / 1000;
     si_thumbnail := head (album_images track);
     si_spotify_url := external_url track |}.

(** [_spotify_search] (lines 271-293): every exception, the timeout
    included, is caught and gives [None]. *)
Definition _spotify_search (R : Resolvers) (query : string) (w : World)
    : result (option SpotifyInfo) * World :=
  if negb (spotify (base R)) then (Ok None, w)
  else
    let '(n, w1) := ask w in
    match spotify_search R n query with
    | Ok (SearchItems (track :: _)) =>
        (Ok (Some (spotify_info_of_track track)), w1)
    | _ => (Ok None, w1)
    end.

(** [search_spotify_track] (lines 267-295). *)
Definition search_spotify_track (R : Resolvers) (query : string) (w : World)
    : result (option SpotifyInfo) * World :=
  if negb (spotify (base R)) then (Ok None, w)
  else
    let '(r, _, w') :=
      retry_async (_spotify_search R query)
        (mkRetryConfig 2 1%float 2%float) w in
    (r, w').

(** [_get_track_info] (lines 301-322). *)
Definition _get_track_info (R : Resolvers) (spotify_url' : string)
    (w : World) : result (option SpotifyInfo) * World :=
  let track_id := Py.split_first "?" (Py.split_last "/" spotify_url') in
  if negb (spotify (base R)) then (Ok None, w)
  else
    let '(n, w1) := ask w in
    match spotify_track R n track_id with
    | Ok track => (Ok (Some (spotify_info_of_track track)), w1)
    | Raise _ => (Ok None, w1)
    end.

(** [get_spotify_track_info] (lines 297-324). *)
Definition get_spotify_track_info (R : Resolvers) (spotify_url' : string)
    (w : World) : result (option SpotifyInfo) * World :=
  if negb (spotify (base R)) then (Ok None, w)
  else
    let '(r, _, w') :=
      retry_async (_get_track_info R spotify_url')
        (mkRetryConfig 2 1%float 2%float) w in
    (r, w').

(** The dict built at lines 379-384. *)
Record YoutubeInfo := mkYoutubeInfo {
  yi_title : option string;
  yi_duration : option Z;
  yi_thumbnail : option string;
  yi_url : option string
}.

Definition youtube_info_of_entry (e : YtdlEntry) : YoutubeInfo :=
  {| yi_title := Py.get (e_title e) None;
     yi_duration := Py.get (e_duration e) None;
     yi_thumbnail := Py.get (e_thumbnail e) None;
     yi_url := Py.get (e_webpage_url e) None |}.

(** [_get_info] (lines 365-387).  [InfoFalsy] is [None] here (the test
    ['entries' in data] raises on it); an empty dict is an [InfoSingle]
    with every key missing. *)
Definition _get_info (E : Env) (url : string) (w : World)
    : result (option YoutubeInfo) * World :=
  if negb (ytdl E) then (Ok None, w)
  else
    let '(n, w1) := ask w in
    let w2 := emit (Extract (ReqUrl (Some url))) w1 in
    match ytdl_extract_info E n (ReqUrl (Some url)) with
    | Ok (InfoSingle e) => (Ok (Some (youtube_info_of_entry e)), w2)
    | Ok (InfoEntries (e :: _)) => (Ok (Some (youtube_info_of_entry e)), w2)
    | _ => (Ok None, w2)
    end.

(** [get_youtube_info] (lines 361-389). *)
Definition get_youtube_info (E : Env) (url : string) (w : World)
    : result (option YoutubeInfo) * World :=
  if negb (ytdl E) then (Ok None, w)
  else
    let '(r, _, w') :=
      retry_async (_get_info E url) (mkRetryConfig 2 1%float 2%float) w in
    (r, w').

(** The loop of [search_youtube_for_song] (lines 337-357): a query that
    cleans to nothing is skipped; an exception, a result without entries
    or a first entry without ['webpage_url'] leads to the next query; a
    first entry with that key ends the search with its value. *)
Fixpoint search_queries_loop (E : Env) (search_queries : list string)
    (w : World) : option string * World :=
  match search_queries with
  | [] => (None, w)
  | query :: rest =>
      let clean_query := Py.strip (Py.clean query) in
      if negb (Py.truthy clean_query) then search_queries_loop E rest w
      else
        let '(n, w1) := ask w in
        let w2 := emit (Extract (ReqSearch 1 clean_query)) w1 in
        match ytdl_extract_info E n (ReqSearch 1 clean_query) with
        | Ok (InfoEntries (e :: _)) =>
            match e_webpage_url e with
            | Val u => (Some u, w2)
            | Null => (None, w2)
            | Missing => search_queries_loop E rest w2
            end
        | _ => search_queries_loop E rest w2
        end
  end.

(** Lines 330-335. *)
Definition song_search_queries (title' artist' : string) : list string :=
  let both := String.append title' (String.append " " artist') in
  [ both;
    String.append both " official";
    String.append both " audio";
    Py.strip (Py.split_first "(" title') ].

(** [search_youtube_for_song] (lines 326-359). *)
Definition search_youtube_for_song (E : Env) (title' artist' : string)
    (w : World) : option string * World :=
  if negb (ytdl E) then (None, w)
  else search_queries_loop E (song_search_queries title' artist') w.

(** ** The search of the [play] command (lines 951-1021) *)

(** Lines 957-968 and 987-998: a Spotify record becomes a song when a
    YouTube URL is found for it. *)
Definition song_of_spotify (E : Env) (info : SpotifyInfo) (w : World)
    : option Song * World :=
  let '(youtube_url', w1) :=
    search_youtube_for_song E (si_title info) (si_artist info) w in
  if truthy_opt youtube_url' then
    (Some (Song_init (si_title info) (si_artist info)
             (Some (si_duration info)) (si_thumbnail info) youtube_url'
             (Some (mkSpotifyData (si_spotify_url info)))), w1)
  else (None, w1).

(** Lines 1000-1021: the search on the raw query. *)
Definition youtube_direct (E : Env) (query : string) (w : World)
    : option Song * World :=
  let '(n, w1) := ask w in
  let w2 := emit (Extract (ReqSearch 1 query)) w1 in
  match ytdl_extract_info E n (ReqSearch 1 query) with
  | Ok (InfoEntries (first_result :: _)) =>
      (Some (Song_init
               (default "" (Py.get (e_title first_result)
                              (Some "Unknown Title")))
               (default "" (Py.get (e_uploader first_result)
                              (Some "Unknown Artist")))
               (Py.get (e_duration first_result) None)
               (Py.get (e_thumbnail first_result) None)
               (Py.get (e_webpage_url first_result) None)
               None), w2)
  | _ => (None, w2)
  end.

(** Lines 955-1021: the song found for [query], if any; [Raise] when an
    exception reaches the handler of line 1047. *)
Definition resolve_song (R : Resolvers) (query : string) (w : World)
    : result (option Song) * World :=
  let E := base R in
  if is_spotify_url query then
    match get_spotify_track_info R query w with
    | (Raise e, w1) => (Raise e, w1)
    | (Ok None, w1) => (Ok None, w1)
    | (Ok (Some info), w1) =>
        let '(song, w2) := song_of_spotify E info w1 in (Ok song, w2)
    end
  else if is_youtube_url query then
    match get_youtube_info E query w with
    | (Raise e, w1) => (Raise e, w1)
    | (Ok None, w1) => (Ok None, w1)
    | (Ok (Some info), w1) =>
        (Ok (Some (Song_init (default "" (yi_title info)) "Unknown Artist"
                     (yi_duration info) (yi_thumbnail info) (yi_url info)
                     None)), w1)
    end
  else
    let via_spotify :=
      if spotify E then
        match search_spotify_track R query w with
        | (Raise e, w1) => (Raise e, w1)
        | (Ok None, w1) => (Ok None, w1)
        | (Ok (Some info), w1) =>
            let '(song, w2) := song_of_spotify E info w1 in (Ok song, w2)
        end
      else (Ok None, w) in
    match via_spotify with
    | (Raise e, w1) => (Raise e, w1)
    | (Ok (Some song), w1) => (Ok (Some song), w1)
    | (Ok None, w1) =>
        if ytdl E then
          let '(song, w2) := youtube_direct E query w1 in (Ok song, w2)
        else (Ok None, w1)
    end.


(** The skeleton of a load: extraction attempts and pauses. *)
Fixpoint load_skeleton (evs : list Event) : list ConnStep :=
  match evs with
  | [] => []
  | Extract (ReqUrl _) :: evs' => Attempt :: load_skeleton evs'
  | Sleep n :: evs' => Pause n :: load_skeleton evs'
  | _ :: evs' => load_skeleton evs'
  end.

(** The skeleton of a load whose three attempts all fail. *)
Definition three_extractions : list ConnStep :=
  [Attempt; Pause (Py.PFloat 2%float); Attempt; Pause (Py.PFloat 4%float);
   Attempt].

(** A search request for one result. *)
Definition is_search (e : Event) : Prop :=
  exists q, e = Extract (ReqSearch 1 q).

Module Sample7.

(** yt-dlp raises on its first two calls and answers afterwards. *)
Definition flaky : Env :=
  mkEnv true false Sample.clock
    (fun n _ =>
       if (n <? 3)%nat then Raise TimeoutError
       else Ok (InfoEntries
                  [Sample.entry "Found" "https://youtu.be/found"]))
    (fun _ _ _ => Raise Exception)
    (fun _ _ => Linked).

(** Spotify knows one track; yt-dlp as in [flaky]. *)
Definition resolvers : Resolvers :=
  mkResolvers flaky
    (fun _ _ => Raise TimeoutError)
    (fun _ _ => Raise Exception).

End Sample7.

(** ** The counters of a session *)


Module Sample8.


End Sample8.

(** ** Pauses *)

(** The pauses in a stretch of the log, in order. *)
Fixpoint sleeps (evs : list Event) : list Py.number :=
  match evs with
  | [] => []
  | Sleep n :: evs' => n :: sleeps evs'
  | _ :: evs' => sleeps evs'
  end.

(** The first [k] pauses of [retry_async]: [delay], multiplied by
    [backoff] after each one (line 139). *)
Fixpoint backoff_delays (k : nat) (delay backoff : float)
    : list Py.number :=
  match k with
  | O => []
  | S k' =>
      Py.PFloat delay
      :: backoff_delays k' (PrimFloat.mul delay backoff) backoff
  end.

Module Sample9.

(** A configuration that allows no attempt at all. *)
Definition no_attempts : RetryConfig := mkRetryConfig 0 1%float 2%float.

(** Twenty-two songs, numbered by their duration. *)
Definition numbered : list Song :=
  map (fun n => Song_init "t" "a" (Some n) None None None) (Py.range 22).

End Sample9.

(** ** Playback observations *)


Module Sample10.

(** "b" is playing after "a" ended, and autoplay has just been switched
    on. *)
Definition auto : EnhancedMusicQueue * World :=
  (Commands.autoplay (Some true) Sample6.busy.1, Sample6.busy.2).

End Sample10.

(** The number of requests sent to yt-dlp in a stretch of the log. *)
Fixpoint extractions (evs : list Event) : nat :=
  match evs with
  | [] => 0
  | Extract _ :: evs' => S (extractions evs')
  | _ :: evs' => extractions evs'
  end.

(** ** Display helpers (lines 248-258 and 1116-1171) *)

(** [str(n)] for an [int]. *)
Definition str_of_int (n : Z) : string := pretty n.

(** [f"{n:02d}"]: at least two characters, padded with a zero. *)
Definition fmt_02d (n : Z) : string :=
  let digits := str_of_int n in
  if (String.length digits <? 2)%nat then String.append "0" digits
  else digits.

(** [format_duration] (lines 248-258). *)
Definition format_duration (seconds : option Z) : string :=
  match seconds with
  | None => "Unknown"
  | Some sec =>
      if (sec =? 0) || (sec <=? 0) then "Unknown"
      else
        let hours := sec / 3600 in
        let minutes := (sec mod 3600) / 60 in
        let seconds' := sec mod 60 in
        if 0 <? hours then
          String.append (str_of_int hours)
            (String.append ":"
               (String.append (fmt_02d minutes)
                  (String.append ":" (fmt_02d seconds'))))
        else
          String.append (str_of_int minutes)
            (String.append ":" (fmt_02d seconds'))
  end.

(** The line feed of the embed texts. *)
Definition nl : string := String (ascii_of_nat 10) "".

(** The text shown for one song: title, artist and duration (lines
    1140-1141 and 1291). *)
Definition song_card (song : Song) : string :=
  String.append "**"
    (String.append (title song)
       (String.append "**"
          (String.append nl
             (String.append "By: "
                (String.append (artist song)
                   (String.append nl
                      (String.append "Durasi: "
                         (format_duration (duration song))))))))).

(** One line of the "Up Next" field (line 1152). *)
Definition queue_line (i : Z) (song : Song) : string :=
  String.append "`"
    (String.append (str_of_int i)
       (String.append ".` **"
          (String.append (title song)
             (String.append "** - "
                (String.append (artist song)
                   (String.append " `["
                      (String.append (format_duration (duration song))
                         "]`"))))))).

(** The loop of lines 1150-1154 over the listed songs, numbered from
    [i]: the lines, and the running [total_duration]. *)
Fixpoint queue_lines (i : Z) (songs : list Song) (total_duration : Z)
    : list string * Z :=
  match songs with
  | [] => ([], total_duration)
  | song :: rest =>
      let total_duration' :=
        match duration song with
        | Some d => if d =? 0 then total_duration else total_duration + d
        | None => total_duration
        end in
      let '(lines, total) := queue_lines (i + 1) rest total_duration' in
      (queue_line i song :: lines, total)
  end.

(** The embed [show_queue] sends when the session holds something: the
    text of the field of the current song, the count in the name of the
    "Up Next" field, its lines, the count of the "Additional" field and
    the footer.  The playing/paused label of the first field, which
    reads the state of the voice client, is left out. *)
Record QueueEmbed := mkQueueEmbed {
  now_field : option string;
  up_next_count : option Z;
  up_next : list string;
  additional : option Z;
  footer : option string
}.

(** [show_queue] (lines 1116-1171): [None] stands for the "queue empty"
    embed. *)
Definition show_queue (s : EnhancedMusicQueue) : option QueueEmbed :=
  match current s, queue s with
  | None, [] => None
  | _, _ =>
      let now := song_card <$> current s in
      match queue s with
      | [] => Some (mkQueueEmbed now None [] None None)
      | _ :: _ =>
          let '(queue_list, total_duration) :=
            queue_lines 1 (take 15 (queue s)) 0 in
          Some (mkQueueEmbed now (Some (Py.len (queue s))) queue_list
                  (if 15 <? Py.len (queue s)
                   then Some (Py.len (queue s) - 15) else None)
                  (if 0 <? total_duration
                   then Some (String.append "Total durasi queue: "
                                (format_duration (Some total_duration)))
                   else None))
      end
  end.

(** Reading a rendered duration back, as a check of the format: digits
    build a field, a colon closes a field worth sixty of the next. *)
Definition digit_val (c : ascii) : Z := Z.of_nat (nat_of_ascii c) - 48.

Fixpoint read_duration (total field : Z) (s : string) : Z :=
  match s with
  | EmptyString => total + field
  | String c s' =>
      if Ascii.eqb c ":" then read_duration ((total + field) * 60) 0 s'
      else read_duration total (10 * field + digit_val c) s'
  end.

Module Sample11.

(** Seventeen queued songs of three minutes each. *)
Definition long_queue : EnhancedMusicQueue :=
  set_queue Sample.fresh
    (map (fun n => Sample.song (str_of_int n)) (Py.range 17)).

End Sample11.
(** * Properties *)

(** ** The queue is FIFO *)

Lemma get_next_song_head s :
  (get_next_song s).1 = head (queue s) /\
  queue (get_next_song s).2 = tail (queue s).
Proof. unfold get_next_song. destruct (queue s) eqn:E; simpl; auto. Qed.

Lemma get_next_song_none s :
  (get_next_song s).1 = None <-> queue s = [].
Proof.
  unfold get_next_song. destruct (queue s); simpl; split; congruence.
Qed.

Lemma run_queue_ops_fifo ops : forall s,
  returned (run_queue_ops ops s).1 ++ queue (run_queue_ops ops s).2
  = queue s ++ enqueued ops.
Proof.
  induction ops as [|[now song|] ops IH]; intros s; simpl.
  - by rewrite app_nil_r.
  - rewrite IH. simpl. by rewrite <- app_assoc.
  - unfold get_next_song. destruct (queue s) as [|x q] eqn:E.
    + specialize (IH s). destruct (run_queue_ops ops s) as [rs s2].
      simpl in *. by rewrite IH, E.
    + specialize (IH (set_queue s q)).
      destruct (run_queue_ops ops (set_queue s q)) as [rs s2].
      simpl in *. by rewrite IH.
Qed.

(** C1: over every sequence of [add_song] and [get_next_song] calls, the
    songs returned, followed by the songs still queued, are exactly the
    songs initially queued followed by the songs enqueued, in that order
    (so the k-th song returned is the k-th song inserted); a call on an
    empty queue returns [None], a call on a non-empty one pops its head;
    and when every song was enqueued once, no song is returned twice. *)
Theorem get_next_song_fifo (ops : list QueueOp) (s : EnhancedMusicQueue) :
  returned (run_queue_ops ops s).1 ++ queue (run_queue_ops ops s).2
    = queue s ++ enqueued ops
  /\ (forall s0, (get_next_song s0).1 = head (queue s0)
              /\ queue (get_next_song s0).2 = tail (queue s0)
              /\ ((get_next_song s0).1 = None <-> queue s0 = []))
  /\ (forall x, x ∈ returned (run_queue_ops ops s).1 ->
               x ∈ queue s ++ enqueued ops)
  /\ (NoDup (queue s ++ enqueued ops) ->
      NoDup (returned (run_queue_ops ops s).1)).
Proof.
  pose proof (run_queue_ops_fifo ops s) as Heq.
  repeat split.
  - exact Heq.
  - apply get_next_song_head.
  - apply get_next_song_head.
  - apply get_next_song_none.
  - apply get_next_song_none.
  - intros x Hx. rewrite <- Heq. apply elem_of_app. by left.
  - intros Hnd. rewrite <- Heq in Hnd. by apply NoDup_app in Hnd as [? _].
Qed.

(** ** Worlds only grow *)

Lemma log_emit e w : log (emit e w) = log w ++ [e].
Proof. reflexivity. Qed.

Lemma log_ask w : log (ask w).2 = log w.
Proof. reflexivity. Qed.

(** ** [retry_async] does not touch its configuration *)

Section RetryFacts.
Context {A : Type}.
Variable func : World -> result A * World.

Lemma retry_loop_config attempts : forall config delay last w,
  (retry_loop func attempts config delay last w).1.1.2 = config.
Proof.
  induction attempts as [|attempt rest IH]; intros config d last w; simpl.
  - reflexivity.
  - destruct (func w) as [[r|e] w1]; simpl; [reflexivity|].
    destruct (attempt <? max_attempts config - 1); apply IH.
Qed.

Lemma retry_async_config config w :
  (retry_async func config w).1.2 = config.
Proof.
  unfold retry_async.
  pose proof (retry_loop_config (Py.range (max_attempts config)) config
                (delay config) None w) as H.
  destruct (retry_loop func _ config (delay config) None w)
    as [[[[r|] c] [e|]] w']; simpl in *; exact H.
Qed.
End RetryFacts.

(** ** The recursion of [play_next_song] ends *)

Lemma play_fuel_take_current s : play_fuel (take_current s) = play_fuel s.
Proof.
  unfold take_current, play_fuel, get_next_song.
  destruct (current s) as [c|] eqn:Ec; [by rewrite Ec|].
  destruct (queue s) as [|x q] eqn:Eq; simpl; rewrite ?Ec, ?Eq; simpl; lia.
Qed.

Lemma song_budget_retry cur :
  retry_count cur < max_retries cur ->
  S (song_budget (set_retry_count cur (retry_count cur + 1)))
  = song_budget cur.
Proof. unfold song_budget; simpl. lia. Qed.

Lemma play_next_song_enough fuel : forall E m s w,
  (play_fuel s <= fuel)%nat -> is_Some (play_next_song fuel E m s w).
Proof.
  induction fuel as [|fuel IH]; intros E m s w Hf.
  - unfold play_fuel in Hf. lia.
  - rewrite <- play_fuel_take_current in Hf. simpl.
    set (s0 := take_current s) in *.
    destruct (current s0) as [cur|] eqn:Ecur; [|by eexists].
    destruct (from_url E (youtube_url cur) play_retry_config _)
      as [[[src|e] cfg] w2].
    + simpl. destruct (voice_client s0) as [vc|]; [|by eexists].
      destruct (vc_connected vc); by eexists.
    + destruct (Z.ltb_spec (retry_count cur) (max_retries cur)) as [Hlt|Hge].
      * apply IH. unfold play_fuel in *. simpl. rewrite Ecur in Hf.
        unfold song_budget in *. simpl in *. lia.
      * simpl. destruct (queue s0) as [|x q] eqn:Eq; [by eexists|].
        apply IH. unfold play_fuel in *. simpl. rewrite Ecur in Hf.
        rewrite Eq in *. unfold song_budget in *. simpl in *. lia.
Qed.

Lemma play_next_song_more fuel : forall fuel' E m s w r,
  play_next_song fuel E m s w = Some r -> (fuel <= fuel')%nat ->
  play_next_song fuel' E m s w = Some r.
Proof.
  induction fuel as [|fuel IH]; intros fuel' E m s w r H Hle; [discriminate|].
  destruct fuel' as [|fuel']; [lia|]. simpl in *.
  destruct (current (take_current s)) as [cur|]; [|exact H].
  destruct (from_url E (youtube_url cur) play_retry_config _)
    as [[[src|e] cfg] w2]; [exact H|].
  destruct (retry_count cur <? max_retries cur).
  - apply IH; [exact H|lia].
  - simpl in *. destruct (queue (take_current s)); [exact H|].
    apply IH; [exact H|lia].
Qed.

(** ** Bounded deques *)

Lemma deque_append_room {A} (m : nat) (d : list A) x :
  (length d < m)%nat -> Py.deque_append m d x = d ++ [x].
Proof.
  intros H. unfold Py.deque_append. rewrite length_app. simpl.
  destruct (Nat.ltb_spec m (length d + 1)); [lia|reflexivity].
Qed.

Lemma deque_append_full {A} (m : nat) (d : list A) x :
  length d = m -> (0 < m)%nat -> Py.deque_append m d x = tail d ++ [x].
Proof.
  intros H Hm. unfold Py.deque_append. rewrite length_app. simpl.
  destruct (Nat.ltb_spec m (length d + 1)); [|lia].
  destruct d; simpl in *; [lia|reflexivity].
Qed.

Lemma deque_append_length {A} (m : nat) (d : list A) x :
  (length d <= m)%nat -> (length (Py.deque_append m d x) <= m)%nat.
Proof.
  intros H. unfold Py.deque_append.
  destruct (Nat.ltb_spec m (length (d ++ [x]))) as [Hlt|Hle]; [|exact Hle].
  rewrite length_app in Hlt. simpl in Hlt.
  destruct d; simpl in *; [lia|]. rewrite length_app. simpl. lia.
Qed.

Lemma deque_append_Forall {A} (P : A -> Prop) (m : nat) (d : list A) x :
  Forall P d -> P x -> Forall P (Py.deque_append m d x).
Proof.
  intros Hd Hx. unfold Py.deque_append.
  assert (Forall P (d ++ [x])) as H by (apply Forall_app; auto).
  destruct (m <? length (d ++ [x]))%nat; [|exact H].
  destruct (d ++ [x]); [constructor|]. by apply Forall_cons in H as [_ H].
Qed.

(** ** The session invariant *)

Lemma Song_init_ok t a d th u sd : song_ok (Song_init t a d th u sd).
Proof. unfold song_ok. simpl. lia. Qed.

Lemma set_source_ok x src : song_ok x -> song_ok (set_source x src).
Proof. exact id. Qed.

Lemma set_retry_count_ok x :
  song_ok x -> retry_count x < max_retries x ->
  song_ok (set_retry_count x (retry_count x + 1)).
Proof. unfold song_ok. simpl. lia. Qed.

Ltac inv_auto :=
  match goal with
  | H : session_inv _ |- session_inv _ =>
      destruct H; constructor; simpl in *; eauto;
      try (intros ? [=]); try congruence
  end.

Lemma inv_init now : session_inv (EnhancedMusicQueue_init now).
Proof.
  constructor; simpl; try constructor; try discriminate;
    unfold last_played_maxlen, autoplay_history_maxlen; lia.
Qed.

Lemma inv_set_is_playing s b : session_inv s -> session_inv (set_is_playing s b).
Proof. intros H. inv_auto. Qed.

Lemma inv_set_voice_client s v :
  session_inv s -> session_inv (set_voice_client s v).
Proof. intros H. inv_auto. Qed.

Lemma inv_set_connection_failures s n :
  session_inv s -> session_inv (set_connection_failures s n).
Proof. intros H. inv_auto. Qed.

Lemma inv_set_autoplay_enabled s b :
  session_inv s -> session_inv (set_autoplay_enabled s b).
Proof. intros H. inv_auto. Qed.

Lemma inv_set_autoplay_failures s n :
  session_inv s -> session_inv (set_autoplay_failures s n).
Proof. intros H. inv_auto. Qed.

Lemma inv_set_last_autoplay_attempt s t :
  session_inv s -> session_inv (set_last_autoplay_attempt s t).
Proof. intros H. inv_auto. Qed.

Lemma inv_set_current s o :
  session_inv s -> (forall c, o = Some c -> song_ok c) ->
  session_inv (set_current s o).
Proof. intros H Ho. inv_auto. Qed.

Lemma inv_add_song now x s :
  session_inv s -> song_ok x -> session_inv (add_song now x s).
Proof.
  intros H Hx. inv_auto. apply Forall_app. split; [done|by constructor].
Qed.

Lemma inv_clear_queue now s : session_inv s -> session_inv (clear_queue now s).
Proof. intros H. inv_auto. Qed.

Lemma inv_take_current s : session_inv s -> session_inv (take_current s).
Proof.
  intros H. unfold take_current, get_next_song.
  destruct (current s) eqn:Ec; [done|].
  destruct (queue s) as [|x q] eqn:Eq; simpl.
  - destruct H. constructor; simpl; eauto. discriminate.
  - destruct H. rewrite Eq in inv_queue0.
    apply Forall_cons in inv_queue0 as [Hx Hq].
    constructor; simpl; eauto. intros c [= <-]. exact Hx.
Qed.

Lemma inv_get_next_song s :
  session_inv s ->
  session_inv (get_next_song s).2 /\
  (forall c, (get_next_song s).1 = Some c -> song_ok c).
Proof.
  intros H. unfold get_next_song.
  destruct (queue s) as [|x q] eqn:Eq; simpl; [split; [done|discriminate]|].
  destruct H. rewrite Eq in inv_queue0.
  apply Forall_cons in inv_queue0 as [Hx Hq].
  split; [constructor; simpl; eauto|]. intros c [= <-]. exact Hx.
Qed.

Lemma inv_after_playing s : session_inv s -> session_inv (after_playing s).
Proof.
  intros H. unfold after_playing. apply inv_set_current; [|discriminate].
  destruct (current s) as [c|] eqn:Ec; [|done].
  destruct H. constructor; simpl; eauto.
  - apply deque_append_Forall; eauto.
  - by apply deque_append_length.
Qed.

Lemma inv_play_next_song fuel : forall E m s w s' w',
  session_inv s -> play_next_song fuel E m s w = Some (s', w') ->
  session_inv s'.
Proof.
  induction fuel as [|fuel IH]; intros E m s w s' w' Hinv H; [discriminate|].
  simpl in H. apply inv_take_current in Hinv.
  set (s0 := take_current s) in *.
  destruct (current s0) as [cur|] eqn:Ecur.
  2:{ injection H as <- <-. by apply inv_set_is_playing. }
  assert (song_ok cur) as Hcur by (by apply (inv_current _ Hinv)).
  destruct (from_url E (youtube_url cur) play_retry_config _)
    as [[[src|e] cfg] w2].
  - assert (session_inv
              (set_current (set_is_playing s0 true)
                 (Some (set_source cur (Some src))))) as Hok.
    { apply inv_set_current; [by apply inv_set_is_playing|].
      intros c [= <-]. exact Hcur. }
    simpl in H. destruct (voice_client s0) as [vc|].
    + destruct (vc_connected vc); injection H as <- <-;
        [done|by apply inv_set_is_playing].
    + injection H as <- <-. by apply inv_set_is_playing.
  - destruct (Z.ltb_spec (retry_count cur) (max_retries cur)) as [Hlt|Hge].
    + eapply IH; [|exact H]. apply inv_set_current;
        [by apply inv_set_is_playing|].
      intros c [= <-]. by apply set_retry_count_ok.
    + assert (session_inv (set_current (set_is_playing s0 true) None)) as Hok.
      { apply inv_set_current; [by apply inv_set_is_playing|discriminate]. }
      simpl in H. destruct (queue s0).
      * injection H as <- <-. by apply inv_set_is_playing.
      * eapply IH; [|exact H]. exact Hok.
Qed.

(** ** What the recommendation loops add *)

Lemma len_app {A} (l : list A) x : Py.len (l ++ [x]) = Py.len l + 1.
Proof. unfold Py.len. rewrite length_app. simpl. lia. Qed.

Section SpotifyLoop.
Variables (E : Env) (history : list Song) (max_songs MAX_DURATION : Z).
Variable P : Song -> Prop.

(** [P] holds of every song the loop can build. *)
Hypothesis P_built : forall track first rest u,
  (MAX_DURATION <? duration_ms track / 1000) = false ->
  artists track = first :: rest ->
  is_duplicate_spotify history (Py.lower (name track)) (Py.lower first)
    = false ->
  Py.truthy u = true ->
  P (Song_init (name track) (Py.join ", " (artists track))
       (Some (duration_ms track / 1000)) (head (album_images track))
       (Some u) (Some (mkSpotifyData (external_url track)))).

Lemma spotify_tracks_loop_Forall tracks : forall recs w,
  Forall P recs ->
  Forall P (spotify_tracks_loop E history max_songs MAX_DURATION tracks
              recs w).1.
Proof.
  induction tracks as [|track rest IH]; intros recs w Hrecs; simpl; [done|].
  destruct (max_songs <=? Py.len recs); [done|].
  destruct (MAX_DURATION <? duration_ms track / 1000) eqn:Edur; [by apply IH|].
  destruct (artists track) as [|first others] eqn:Eart; [done|].
  destruct (is_duplicate_spotify history _ _) eqn:Edup; [by apply IH|].
  destruct (enhanced_youtube_search E _ w) as [[u|] w1]; [|by apply IH].
  destruct (Py.truthy u) eqn:Eu; [|by apply IH].
  apply IH. apply Forall_app. split; [done|]. constructor; [|constructor].
  rewrite <- Eart. eapply P_built; eauto.
Qed.
End SpotifyLoop.

Lemma spotify_tracks_loop_len E history max_songs MAX tracks :
  forall recs w,
  Py.len (spotify_tracks_loop E history max_songs MAX tracks recs w).1
  <= Z.max (Py.len recs) max_songs.
Proof.
  induction tracks as [|track rest IH]; intros recs w; simpl; [lia|].
  destruct (Z.leb_spec max_songs (Py.len recs)); [simpl; lia|].
  destruct (MAX <? duration_ms track / 1000); [by apply IH|].
  destruct (artists track) as [|first others]; [simpl; lia|].
  destruct (is_duplicate_spotify history _ _); [by apply IH|].
  destruct (enhanced_youtube_search E _ w) as [[u|] w1]; [|by apply IH].
  destruct (Py.truthy u); [|by apply IH].
  etrans; [apply IH|]. rewrite len_app. lia.
Qed.

Section YoutubeLoop.
Variables (history : list Song) (last_song : Song).
Variables (max_songs MAX_DURATION : Z).
Variable P : Song -> Prop.

Hypothesis P_built : forall r,
  let title' := Py.get (e_title r) (Some "Unknown Title") in
  let webpage_url := Py.get (e_webpage_url r) (Some "") in
  let duration' := Py.get (e_duration r) (Some 0) in
  too_long MAX_DURATION duration' = false ->
  is_duplicate_youtube history last_song title' webpage_url = Ok false ->
  truthy_opt webpage_url = true ->
  P (Song_init (default "" title')
       (default "" (Py.get (e_uploader r) (Some "Unknown Artist")))
       duration' (Py.get (e_thumbnail r) None) webpage_url None).

Lemma youtube_results_loop_Forall results : forall recs,
  Forall P recs ->
  Forall P (youtube_results_loop history last_song max_songs MAX_DURATION
              results recs).
Proof.
  induction results as [|r rest IH]; intros recs Hrecs; simpl; [done|].
  destruct (max_songs <=? Py.len recs); [done|].
  destruct (too_long MAX_DURATION _) eqn:Edur; [by apply IH|].
  destruct (is_duplicate_youtube history last_song _ _) as [dup|e] eqn:Edup;
    [|done].
  destruct dup; simpl; [by apply IH|].
  destruct (truthy_opt _) eqn:Eu; [|by apply IH].
  apply IH. apply Forall_app. split; [done|]. constructor; [|constructor].
  by apply P_built.
Qed.

Lemma youtube_queries_loop_Forall E queries : forall recs w,
  Forall P recs ->
  Forall P (youtube_queries_loop E history last_song max_songs MAX_DURATION
              queries recs w).1.
Proof.
  induction queries as [|q rest IH]; intros recs w Hrecs; simpl; [done|].
  destruct (max_songs <=? Py.len recs); [done|].
  destruct (enhanced_youtube_search_multiple E q _ w) as [results w1].
  apply IH. by apply youtube_results_loop_Forall.
Qed.
End YoutubeLoop.

Lemma youtube_results_loop_len history last_song max_songs MAX results :
  forall recs,
  Py.len (youtube_results_loop history last_song max_songs MAX results recs)
  <= Z.max (Py.len recs) max_songs.
Proof.
  induction results as [|r rest IH]; intros recs; simpl; [lia|].
  destruct (Z.leb_spec max_songs (Py.len recs)); [lia|].
  destruct (too_long MAX _); [by apply IH|].
  destruct (is_duplicate_youtube history last_song _ _) as [dup|e]; [|lia].
  destruct (negb dup && truthy_opt _); [|by apply IH].
  etrans; [apply IH|]. rewrite len_app. lia.
Qed.

Lemma youtube_queries_loop_len E history last_song max_songs MAX queries :
  forall recs w,
  Py.len (youtube_queries_loop E history last_song max_songs MAX queries
            recs w).1
  <= Z.max (Py.len recs) max_songs.
Proof.
  induction queries as [|q rest IH]; intros recs w; simpl; [lia|].
  destruct (Z.leb_spec max_songs (Py.len recs)); [simpl; lia|].
  destruct (enhanced_youtube_search_multiple E q _ w) as [results w1].
  etrans; [apply IH|].
  pose proof (youtube_results_loop_len history last_song max_songs MAX
                results recs). lia.
Qed.

Lemma add_to_history_Forall (P : Song -> Prop) recs : forall history,
  Forall P history -> Forall P recs -> Forall P (add_to_history history recs).
Proof.
  unfold add_to_history.
  induction recs as [|x recs IH]; intros history Hh Hr; simpl; [done|].
  apply Forall_cons in Hr as [Hx Hr].
  apply IH; [|done]. by apply deque_append_Forall.
Qed.

Lemma add_to_history_length recs : forall history,
  (length history <= autoplay_history_maxlen)%nat ->
  (length (add_to_history history recs) <= autoplay_history_maxlen)%nat.
Proof.
  unfold add_to_history.
  induction recs as [|x recs IH]; intros history Hh; simpl; [done|].
  apply IH. by apply deque_append_length.
Qed.

(** The songs returned by [get_autoplay_recommendations], in terms of the
    two strategies. *)
Lemma get_autoplay_recommendations_recs E last_song s max_songs MAX w :
  (get_autoplay_recommendations E last_song s max_songs MAX w).1.1
  = (youtube_strategy E last_song (autoplay_history s) max_songs MAX
       (spotify_strategy E last_song (autoplay_history s) max_songs MAX w).1
       (spotify_strategy E last_song (autoplay_history s) max_songs MAX w).2).1.
Proof.
  unfold get_autoplay_recommendations.
  destruct (spotify_strategy E last_song _ max_songs MAX w) as [recs1 w1].
  simpl. by destruct (youtube_strategy E last_song _ max_songs MAX recs1 w1).
Qed.

Lemma get_autoplay_recommendations_state E last_song s max_songs MAX w :
  (get_autoplay_recommendations E last_song s max_songs MAX w).1.2
  = set_autoplay_history s
      (add_to_history (autoplay_history s)
         (get_autoplay_recommendations E last_song s max_songs MAX w).1.1).
Proof.
  unfold get_autoplay_recommendations.
  destruct (spotify_strategy E last_song _ max_songs MAX w) as [recs1 w1].
  by destruct (youtube_strategy E last_song _ max_songs MAX recs1 w1).
Qed.

Lemma spotify_strategy_Forall (P : Song -> Prop) E last_song history
    max_songs MAX w :
  (forall t a d th u sd, P (Song_init t a d th u sd)) ->
  Forall P (spotify_strategy E last_song history max_songs MAX w).1.
Proof.
  intros HP. unfold spotify_strategy.
  repeat match goal with
         | |- context [match ?x with _ => _ end] => destruct x; simpl; try done
         end.
  apply spotify_tracks_loop_Forall; [|done]. intros. apply HP.
Qed.

Lemma youtube_strategy_Forall (P : Song -> Prop) E last_song history
    max_songs MAX recs w :
  (forall t a d th u sd, P (Song_init t a d th u sd)) ->
  Forall P recs ->
  Forall P (youtube_strategy E last_song history max_songs MAX recs w).1.
Proof.
  intros HP Hrecs. unfold youtube_strategy.
  destruct (_ && _); [|done].
  apply youtube_queries_loop_Forall; [|done]. intros. apply HP.
Qed.

Lemma get_autoplay_recommendations_built (P : Song -> Prop) E last_song s
    max_songs MAX w :
  (forall t a d th u sd, P (Song_init t a d th u sd)) ->
  Forall P (get_autoplay_recommendations E last_song s max_songs MAX w).1.1.
Proof.
  intros HP. rewrite get_autoplay_recommendations_recs.
  apply youtube_strategy_Forall; [done|]. by apply spotify_strategy_Forall.
Qed.

Lemma inv_get_autoplay_recommendations E last_song s max_songs MAX w :
  session_inv s ->
  session_inv (get_autoplay_recommendations E last_song s max_songs MAX w).1.2.
Proof.
  intros H. rewrite get_autoplay_recommendations_state.
  pose proof (get_autoplay_recommendations_built song_ok E last_song s
                max_songs MAX w Song_init_ok) as Hrecs.
  destruct H. constructor; simpl; eauto.
  - by apply add_to_history_Forall.
  - by apply add_to_history_length.
Qed.

(** ** Every operation keeps the invariant *)

Lemma inv_add_songs E songs : forall s w,
  session_inv s -> Forall song_ok songs ->
  session_inv (add_songs E songs s w).1.
Proof.
  induction songs as [|x songs IH]; intros s w Hs Hx; simpl; [done|].
  apply Forall_cons in Hx as [Hx Hxs].
  apply IH; [|done]. by apply inv_add_song.
Qed.

Lemma inv_queue_finished s w :
  session_inv s -> session_inv (queue_finished s w).1.
Proof.
  intros H. unfold queue_finished.
  destruct (autoplay_enabled _); simpl; by apply inv_set_is_playing.
Qed.

Lemma inv_take_next s :
  session_inv s ->
  session_inv (set_current (get_next_song s).2 (get_next_song s).1).
Proof.
  intros H. destruct (inv_get_next_song s H) as [H1 H2].
  by apply inv_set_current.
Qed.

Lemma inv_play_next_in_queue fuel E s w s' w' :
  session_inv s -> play_next_in_queue fuel E s w = Some (s', w') ->
  session_inv s'.
Proof.
  intros Hinv H. unfold play_next_in_queue in H.
  pose proof (inv_take_next s Hinv) as Hnext.
  destruct (get_next_song s) as [c s1]. simpl in Hnext.
  destruct c as [c|]; [by eapply inv_play_next_song|].
  destruct (autoplay_due E _ w) as [due w1].
  destruct due.
  2:{ injection H as H. change s' with (s', w').1. rewrite <- H. by apply inv_queue_finished. }
  simpl in H.
  set (s3 := set_last_autoplay_attempt _ _) in H.
  assert (session_inv s3) as H3 by (by apply inv_set_last_autoplay_attempt).
  destruct (Py.deque_last (last_played_songs s1)) as [last_song|].
  2:{ injection H as H. change s' with (s', w').1. rewrite <- H.
      by apply inv_queue_finished, inv_set_autoplay_failures. }
  pose proof (inv_get_autoplay_recommendations E last_song s3 3 300
                (emit (Recommend last_song) (mkWorld (S (tick w1)) (log w1)))
                H3) as H4.
  pose proof (get_autoplay_recommendations_built song_ok E last_song s3 3 300
                (emit (Recommend last_song) (mkWorld (S (tick w1)) (log w1)))
                Song_init_ok) as Hrecs.
  destruct (get_autoplay_recommendations E last_song s3 3 300 _)
    as [[recs s4] w4]. simpl in H4, Hrecs.
  destruct recs as [|r recs].
  { injection H as H. change s' with (s', w').1. rewrite <- H.
    by apply inv_queue_finished, inv_set_autoplay_failures. }
  pose proof (inv_add_songs E (r :: recs) (set_autoplay_failures s4 0) w4
                (inv_set_autoplay_failures _ _ H4) Hrecs) as H6.
  destruct (add_songs E (r :: recs) _ w4) as [s6 w5]. simpl in H6.
  pose proof (inv_take_next s6 H6) as H8.
  destruct (get_next_song s6) as [c' s7]. simpl in H8.
  destruct c' as [c'|]; [by eapply inv_play_next_song|].
  injection H as H. change s' with (s', w').1. rewrite <- H. by apply inv_queue_finished.
Qed.

Lemma inv_gateway_call E ev ch s w :
  session_inv s -> session_inv (gateway_call E ev ch s w).1.2.
Proof.
  intros H. unfold gateway_call. simpl.
  destruct (voice_gateway E (tick w) ch); simpl; [|done..].
  by apply inv_set_connection_failures, inv_set_voice_client.
Qed.

Lemma inv_connect_try E ch s w :
  session_inv s -> session_inv (connect_try E ch s w).1.2.
Proof.
  intros H. unfold connect_try.
  destruct (voice_client s) as [vc|]; [|by apply inv_gateway_call].
  destruct (vc_connected vc).
  - destruct (vc_channel vc =? ch);
      [by apply inv_set_connection_failures|by apply inv_gateway_call].
  - by apply inv_gateway_call, inv_set_voice_client.
Qed.

Lemma inv_connect_except m a s w :
  session_inv s -> session_inv (connect_except m a s w).1.
Proof.
  intros H. unfold connect_except.
  assert (session_inv (increment_connection_failures s)) as H1
    by (by apply inv_set_connection_failures).
  destruct (voice_client (increment_connection_failures s));
    destruct (a <? m - 1); simpl; try done; by apply inv_set_voice_client.
Qed.

Lemma inv_connect_loop E ch m attempts : forall s w,
  session_inv s -> session_inv (connect_loop E ch m attempts s w).1.2.
Proof.
  induction attempts as [|a rest IH]; intros s w H; simpl; [done|].
  pose proof (inv_connect_try E ch s w H) as H1.
  destruct (connect_try E ch s w) as [[[b|e] s1] w1]; simpl in *; [done|].
  pose proof (inv_connect_except m a s1 w1 H1) as H2.
  destruct (connect_except m a s1 w1) as [s2 w2]. by apply IH.
Qed.

Lemma inv_teardown now s :
  session_inv s ->
  session_inv (set_voice_client
                 (set_is_playing (set_current (clear_queue now s) None) false)
                 None).
Proof. intros H. inv_auto. Qed.

Lemma inv_Step E x y : Step E x y -> session_inv x.1 -> session_inv y.1.
Proof.
  intros HS. destruct HS; simpl; intros Hinv.
  - pose proof (inv_connect_loop E ch 3 (Py.range 3) s w Hinv) as H1.
    unfold connect_to_voice_channel in H. by rewrite H in H1.
  - unfold Commands.play in H0. destruct found as [song|].
    + destruct (H song eq_refl) as (t & a & d & th & u & sd & ->).
      simpl in H0.
      assert (session_inv (add_song (time_time E (tick w))
                             (Song_init t a d th u sd) s)) as H1
        by (apply inv_add_song; [done|apply Song_init_ok]).
      destruct (negb _).
      * destruct r as [s' w']. by eapply inv_play_next_song.
      * by injection H0 as <-.
    + by injection H0 as <-.
  - by apply inv_after_playing.
  - destruct r as [s' w']. by eapply inv_play_next_in_queue.
  - unfold Commands.stop. destruct (voice_client s); simpl; [|done]. inv_auto.
  - unfold Commands.disconnect. destruct (voice_client s); simpl; [|done].
    by apply inv_teardown.
  - unfold Commands.clear_queue. destruct (queue s) eqn:Eq; simpl; [done|].
    by apply inv_clear_queue.
  - unfold Commands.autoplay. destruct action as [[|]|]; [| |done].
    + destruct (autoplay_enabled s); [done|by apply inv_set_autoplay_enabled].
    + destruct (negb _); [done|by apply inv_set_autoplay_enabled].
  - unfold Commands.volume_session.
    destruct (voice_client s); [|done].
    destruct (current s) as [cur|] eqn:Ec; [|done].
    destruct (source cur); [|done].
    destruct v as [v|]; [|done].
    destruct (_ || _); [done|]. simpl.
    apply inv_set_current; [done|]. intros c [= <-].
    apply set_source_ok. by apply (inv_current _ Hinv).
  - unfold cleanup_session. destruct (voice_client s) as [vc|]; [|done].
    destruct (negb (vc_connected vc)); simpl; [inv_auto|].
    destruct (is_inactive _ 15 s); simpl; [inv_auto|done].
  - unfold delayed_disconnect_if_alone.
    destruct (voice_client s) as [vc|]; [|done].
    destruct (_ && _); simpl; [|done]. by apply inv_teardown.
  - by apply inv_set_voice_client.
Qed.

Lemma reachable_inv E x : reachable E x -> session_inv x.1.
Proof.
  induction 1 as [n|x y _ IH HS]; [apply inv_init|by eapply inv_Step].
Qed.

(** * The claims *)

(** Witness of [get_next_song_fifo]: three songs enqueued and dequeued,
    with a dequeue on the empty queue before and after. *)
Lemma get_next_song_fifo_witness :
  let ops := [DequeueNext; Enqueue 1%float (Sample.song "a");
              Enqueue 2%float (Sample.song "b"); DequeueNext;
              Enqueue 3%float (Sample.song "c"); DequeueNext; DequeueNext;
              DequeueNext] in
  (run_queue_ops ops Sample.fresh).1
    = [None; Some (Sample.song "a"); Some (Sample.song "b");
       Some (Sample.song "c"); None]
  /\ NoDup (returned (run_queue_ops ops Sample.fresh).1).
Proof.
  intros ops. split; [reflexivity|].
  apply (get_next_song_fifo ops Sample.fresh).
  cbn. repeat (apply NoDup_cons; split); try apply NoDup_nil;
    rewrite ?not_elem_of_cons; repeat split;
    try apply not_elem_of_nil; discriminate.
Defined.

(** ** The two rings *)

Lemma add_to_history_one history x :
  add_to_history history [x]
  = Py.deque_append autoplay_history_maxlen history x.
Proof. reflexivity. Qed.

(** C6: in every state a session can reach, [last_played_songs] holds at
    most 5 songs and [autoplay_history] at most 20; the completion
    callback on a full [last_played_songs] drops its oldest song and
    appends the finished one after the others, in their order, and so
    does each append to a full [autoplay_history]. *)
Theorem rings_bounded (E : Env) (x : EnhancedMusicQueue * World) :
  reachable E x ->
  (length (last_played_songs x.1) <= 5)%nat
  /\ (length (autoplay_history x.1) <= 20)%nat
  /\ (forall c, current x.1 = Some c ->
        length (last_played_songs x.1) = 5%nat ->
        last_played_songs (after_playing x.1)
        = tail (last_played_songs x.1) ++ [c])
  /\ (forall c, current x.1 = Some c ->
        (length (last_played_songs x.1) < 5)%nat ->
        last_played_songs (after_playing x.1) = last_played_songs x.1 ++ [c])
  /\ (forall song,
        length (autoplay_history x.1) = 20%nat ->
        add_to_history (autoplay_history x.1) [song]
        = tail (autoplay_history x.1) ++ [song])
  /\ (forall song,
        (length (autoplay_history x.1) < 20)%nat ->
        add_to_history (autoplay_history x.1) [song]
        = autoplay_history x.1 ++ [song]).
Proof.
  intros Hreach. apply reachable_inv in Hreach. destruct Hreach.
  repeat split; try assumption.
  - intros c Hc Hlen. unfold after_playing. rewrite Hc. simpl.
    apply deque_append_full; [exact Hlen|unfold last_played_maxlen; lia].
  - intros c Hc Hlen. unfold after_playing. rewrite Hc. simpl.
    by apply deque_append_room.
  - intros song Hlen. rewrite add_to_history_one.
    apply deque_append_full; [exact Hlen|unfold autoplay_history_maxlen; lia].
  - intros song Hlen. rewrite add_to_history_one.
    by apply deque_append_room.
Qed.

Lemma reachable_play_through E titles : forall x,
  reachable E x -> reachable E (play_through E titles x).
Proof.
  induction titles as [|t rest IH]; intros [s w] Hx;
    cbn [play_through fst snd]; [done|].
  destruct (Commands.play 10 E (Some (Sample.song t)) s w)
    as [[s1 w1]|] eqn:Eplay; [|done].
  cbn [fst snd].
  destruct (play_next_in_queue 10 E (after_playing s1) w1) as [z|] eqn:Enext;
    [|done].
  apply IH. eapply reach_step; [|eapply step_play_next_in_queue, Enext].
  eapply reach_step; [|apply step_after_playing].
  eapply reach_step; [exact Hx|]. eapply step_play; [|exact Eplay].
  intros song [= <-]. unfold Sample.song. by repeat eexists.
Qed.

(** Witness of [rings_bounded]: after six tracks played to their end on a
    linked session, the ring holds the last five. *)
Lemma rings_bounded_witness :
  let x := play_through Sample.env_up ["a"; "b"; "c"; "d"; "e"; "f"]
             Sample.connected in
  map title (last_played_songs x.1) = ["b"; "c"; "d"; "e"; "f"]
  /\ (length (last_played_songs x.1) <= 5)%nat
  /\ (length (autoplay_history x.1) <= 20)%nat.
Proof.
  intros x. split; [vm_compute; reflexivity|].
  assert (reachable Sample.env_up x) as Hx.
  { apply reachable_play_through.
    eapply reach_step; [apply (reach_init Sample.env_up 0)|].
    eapply (step_connect _ _ _ 7 true). reflexivity. }
  destruct (rings_bounded Sample.env_up x Hx) as (H1 & H2 & _).
  split; assumption.
Defined.

(** ** Connection attempts and their pauses *)

Lemma connect_except_spec attempt s w :
  voice_client (connect_except 3 attempt s w).1 = None
  /\ connection_failures (connect_except 3 attempt s w).1
     = connection_failures s + 1
  /\ exists pre,
       conn_skeleton pre = []
       /\ log (connect_except 3 attempt s w).2
          = log w ++ pre ++
            (if attempt <? 2 then [Sleep (Py.PInt (2 ^ attempt))] else []).
Proof.
  unfold connect_except, increment_connection_failures,
    set_connection_failures, set_voice_client.
  cbn [voice_client]. change (3 - 1) with 2.
  destruct (voice_client s) as [vc|]; destruct (attempt <? 2);
    cbn [fst snd voice_client connection_failures emit log];
    (split; [reflexivity|]); (split; [reflexivity|]).
  - exists [Disconnect]. split; [reflexivity|]. by rewrite <- app_assoc.
  - exists [Disconnect]. split; [reflexivity|]. by rewrite app_nil_r.
  - exists []. split; reflexivity.
  - exists []. split; [reflexivity|]. by rewrite !app_nil_r.
Qed.

Lemma conn_skeleton_app a b :
  conn_skeleton (a ++ b) = conn_skeleton a ++ conn_skeleton b.
Proof.
  induction a as [|[] a IH]; simpl; rewrite ?IH; reflexivity.
Qed.

Lemma gateway_call_spec E ev ch s w :
  (ev = Connect ch \/ ev = MoveTo ch) ->
  log (gateway_call E ev ch s w).2 = log w ++ [ev]
  /\ conn_skeleton [ev] = [Attempt]
  /\ match (gateway_call E ev ch s w).1.1 with
     | Ok b =>
         b = true /\ connection_failures (gateway_call E ev ch s w).1.2 = 0
     | Raise _ => (gateway_call E ev ch s w).1.2 = s
     end.
Proof.
  intros Hev. unfold gateway_call. cbn [ask fst snd].
  split; [|split].
  - by destruct (voice_gateway E (tick w) ch).
  - by destruct Hev as [-> | ->].
  - by destruct (voice_gateway E (tick w) ch).
Qed.

(** One [try] block: it returns [True] with the counter reset, after at
    most one gateway attempt, or raises after exactly one. *)
Lemma connect_try_spec E ch s w :
  exists evs,
    log (connect_try E ch s w).2 = log w ++ evs
    /\ match (connect_try E ch s w).1.1 with
       | Ok b =>
           b = true
           /\ connection_failures (connect_try E ch s w).1.2 = 0
           /\ (conn_skeleton evs = [Attempt]
               \/ conn_skeleton evs = [] /\ voice_client s <> None)
       | Raise _ =>
           conn_skeleton evs = [Attempt]
           /\ connection_failures (connect_try E ch s w).1.2
              = connection_failures s
       end.
Proof.
  unfold connect_try.
  destruct (voice_client s) as [vc|] eqn:Evc.
  - destruct (vc_connected vc).
    + destruct (vc_channel vc =? ch).
      * exists []. cbn [fst snd]. rewrite app_nil_r. split; [done|].
        split; [done|]. split; [done|]. by right.
      * destruct (gateway_call_spec E (MoveTo ch) ch s w) as (Hl & Hs & Hr);
          [by right|].
        exists [MoveTo ch]. split; [done|].
        destruct (gateway_call E (MoveTo ch) ch s w).1.1;
          [destruct Hr; by auto|]. by rewrite Hr.
    + destruct (gateway_call_spec E (Connect ch) ch (set_voice_client s None)
                  (emit Disconnect w)) as (Hl & Hs & Hr); [by left|].
      exists [Disconnect; Connect ch]. rewrite Hl. simpl.
      rewrite <- app_assoc. split; [done|].
      destruct (gateway_call E (Connect ch) ch _ _).1.1;
        [destruct Hr; by auto|]. by rewrite Hr.
  - destruct (gateway_call_spec E (Connect ch) ch s w) as (Hl & Hs & Hr);
      [by left|].
    exists [Connect ch]. split; [done|].
    destruct (gateway_call E (Connect ch) ch s w).1.1;
      [destruct Hr; by auto|]. by rewrite Hr.
Qed.

(** After a failure the handle is gone, so the next [try] is a fresh
    [connect]: exactly one attempt. *)
Lemma connect_try_fresh E ch s w :
  voice_client s = None ->
  exists evs,
    log (connect_try E ch s w).2 = log w ++ evs
    /\ conn_skeleton evs = [Attempt]
    /\ match (connect_try E ch s w).1.1 with
       | Ok b =>
           b = true /\ connection_failures (connect_try E ch s w).1.2 = 0
       | Raise _ =>
           connection_failures (connect_try E ch s w).1.2
           = connection_failures s
       end.
Proof.
  intros Hvc. destruct (connect_try_spec E ch s w) as (evs & Hl & Hr).
  exists evs. split; [done|].
  destruct (connect_try E ch s w).1.1.
  - destruct Hr as (-> & Hc & [Hs|[_ Hs]]); [done|done].
  - by destruct Hr.
Qed.

(** C3: one call of [connect_to_voice_channel] makes at most three
    gateway attempts; the attempts and pauses it makes are an initial
    part of "attempt, sleep 1, attempt, sleep 2, attempt"; when it returns
    [False] all three attempts were made, with the pauses of 1 and 2
    seconds between them and none after the last, the handle is gone and
    the failure counter went up by three; and each failed attempt [i]
    drops the handle, adds one to the counter and then sleeps [2 ** i]
    seconds exactly when it is not the last one. *)
Theorem connect_backoff (E : Env) (s : EnhancedMusicQueue) (ch : Z)
    (w : World) :
  (exists evs,
     log (connect_to_voice_channel E s ch w).2
       = log w ++ evs
     /\ (attempts_made evs <= 3)%nat
     /\ conn_skeleton evs `prefix_of` three_failures
     /\ (forall n, last (conn_skeleton evs) <> Some (Pause n))
     /\ ((connect_to_voice_channel E s ch w).1.1 = false ->
         conn_skeleton evs = three_failures
         /\ voice_client (connect_to_voice_channel E s ch w).1.2 = None
         /\ connection_failures (connect_to_voice_channel E s ch w).1.2
            = connection_failures s + 3)
     /\ ((connect_to_voice_channel E s ch w).1.1 = true ->
         connection_failures (connect_to_voice_channel E s ch w).1.2 = 0))
  /\ (forall attempt s0 w0,
        voice_client (connect_except 3 attempt s0 w0).1 = None
        /\ connection_failures (connect_except 3 attempt s0 w0).1
           = connection_failures s0 + 1
        /\ exists pre,
             conn_skeleton pre = []
             /\ log (connect_except 3 attempt s0 w0).2
                = log w0 ++ pre ++
                  (if attempt <? 2 then [Sleep (Py.PInt (2 ^ attempt))]
                   else [])).
Proof.
  split; [|apply connect_except_spec].
  unfold connect_to_voice_channel, three_failures.
  change (Py.range 3) with [0; 1; 2]. cbn [connect_loop].
  unfold attempts_made.
  (* attempt 0 *)
  destruct (connect_try_spec E ch s w) as (ev0 & Hl0 & Hr0).
  destruct (connect_try E ch s w) as [[[b0|e0] s1] w1]; cbn [fst snd] in *.
  { destruct Hr0 as (-> & Hc & Hs). exists ev0. split; [done|].
    destruct Hs as [-> | [-> _]]; cbn; repeat split; try done; try lia;
      try (by eexists); by apply prefix_nil. }
  destruct Hr0 as [Hs0 Hc0].
  destruct (connect_except_spec 0 s1 w1) as (Hv1 & Hf1 & pre1 & Hp1 & Hl1).
  destruct (connect_except 3 0 s1 w1) as [s2 w2]; cbn [fst snd] in *.
  (* attempt 1 *)
  destruct (connect_try_fresh E ch s2 w2 Hv1) as (ev1 & Hl1' & Hs1 & Hr1).
  destruct (connect_try E ch s2 w2) as [[[b1|e1] s3] w3]; cbn [fst snd] in *.
  { destruct Hr1 as (-> & Hc). eexists. split.
    { rewrite Hl1', Hl1, Hl0, <- !app_assoc. reflexivity. }
    rewrite !conn_skeleton_app, Hs0, Hp1, Hs1. cbn.
    repeat split; try done; try lia. by eexists. }
  destruct (connect_except_spec 1 s3 w3) as (Hv2 & Hf2 & pre2 & Hp2 & Hl2).
  destruct (connect_except 3 1 s3 w3) as [s4 w4]; cbn [fst snd] in *.
  (* attempt 2 *)
  destruct (connect_try_fresh E ch s4 w4 Hv2) as (ev2 & Hl2' & Hs2 & Hr2).
  destruct (connect_try E ch s4 w4) as [[[b2|e2] s5] w5]; cbn [fst snd] in *.
  { destruct Hr2 as (-> & Hc). eexists. split.
    { rewrite Hl2', Hl2, Hl1', Hl1, Hl0, <- !app_assoc. reflexivity. }
    rewrite !conn_skeleton_app, Hs0, Hp1, Hs1, Hp2, Hs2. cbn.
    repeat split; try done; lia. }
  destruct (connect_except_spec 2 s5 w5) as (Hv3 & Hf3 & pre3 & Hp3 & Hl3).
  destruct (connect_except 3 2 s5 w5) as [s6 w6]; cbn [fst snd] in *.
  eexists. split.
  { rewrite Hl3, Hl2', Hl2, Hl1', Hl1, Hl0, <- !app_assoc. reflexivity. }
  rewrite !conn_skeleton_app, Hs0, Hp1, Hs1, Hp2, Hs2, Hp3. cbn.
  repeat split; try done; lia.
Qed.

(** ** The retry configuration is only read *)

Lemma from_url_config E url config w :
  (from_url E url config w).1.2 = config.
Proof. apply retry_async_config. Qed.

(** C9: [retry_async] hands back the configuration object it was given
    with every field as it was, whatever the retried function does; so
    does [from_url]; a second call on the default configuration therefore
    finds the fields the first one found ([max_attempts = 3],
    [delay = 1.0], [backoff = 2.0]), and against a function that always
    fails both calls pause 1.0 and then 2.0 seconds. *)
Theorem retry_config_unchanged :
  (forall (A : Type) (func : World -> result A * World)
          (config : RetryConfig) (w : World),
     (retry_async func config w).1.2 = config
     /\ max_attempts (retry_async func config w).1.2 = max_attempts config
     /\ delay (retry_async func config w).1.2 = delay config
     /\ backoff (retry_async func config w).1.2 = backoff config)
  /\ (forall E url config w, (from_url E url config w).1.2 = config)
  /\ (forall (A B : Type) (f : World -> result A * World)
             (g : World -> result B * World) (w : World),
        let first := retry_async f RetryConfig_default w in
        let second := retry_async g first.1.2 first.2 in
        first.1.2 = RetryConfig_default
        /\ second.1.2 = RetryConfig_default
        /\ second = retry_async g RetryConfig_default first.2)
  /\ (forall w : World,
        let first := retry_async (@always_raises unit) RetryConfig_default w in
        let second := retry_async (@always_raises unit) first.1.2 first.2 in
        log first.2
          = log w ++ [Sleep (Py.PFloat 1%float); Sleep (Py.PFloat 2%float)]
        /\ log second.2
           = log first.2
             ++ [Sleep (Py.PFloat 1%float); Sleep (Py.PFloat 2%float)]).
Proof.
  split; [|split; [|split]].
  - intros A func config w. rewrite retry_async_config. auto.
  - apply from_url_config.
  - intros A B f g w first second. subst second first.
    rewrite !retry_async_config. auto.
  - intros w first second. subst second first.
    rewrite retry_async_config.
    assert (forall w0 : World,
              log (retry_async (@always_raises unit) RetryConfig_default w0).2
              = (log w0 ++ [Sleep (Py.PFloat 1%float)])
                ++ [Sleep (Py.PFloat 2%float)]) as H
      by (intros w0; reflexivity).
    rewrite !H, <- !app_assoc. split; reflexivity.
Qed.

(** ** The volume command *)

Lemma volume_session_spec v s w vc cur src :
  voice_client s = Some vc -> current s = Some cur -> source cur = Some src ->
  Commands.volume_session (Some v) s w
  = if (v <? 0) || (200 <? v) then (s, emit (Send VolumeInvalid) w)
    else (set_current s
            (Some (set_source cur
                     (Some (set_volume src
                              (PrimFloat.div (Py.float_of_int v) 100%float))))),
          emit (Send (VolumeChanged v)) w).
Proof.
  intros Hvc Hcur Hsrc. unfold Commands.volume_session.
  by rewrite Hvc, Hcur, Hsrc.
Qed.

(** C8: on a guild with a voice link and a current song that has a
    stream, [volume v] with [v < 0] or [v > 200] answers "invalid" and
    leaves the registry, hence the gain, as it was; with [0 <= v <= 200]
    it answers "changed" and sets the gain of that guild's stream to the
    double [v / 100.0], touching no other guild; so 0 gives gain 0.0 and
    100 gives gain 1.0. *)
Theorem volume_range (E : Env) (guild_id v : Z)
    (music_queues : gmap Z EnhancedMusicQueue) (w : World)
    (s : EnhancedMusicQueue) (vc : VoiceClient) (cur : Song)
    (src : EnhancedYTDLSource) :
  music_queues !! guild_id = Some s ->
  voice_client s = Some vc ->
  current s = Some cur ->
  source cur = Some src ->
  let r := Commands.volume E guild_id (Some v) music_queues w in
  (v < 0 \/ 200 < v ->
     r.1 = music_queues
     /\ gain_of r.1 guild_id = Some (volume src)
     /\ log r.2 = log w ++ [Send VolumeInvalid])
  /\ (0 <= v <= 200 ->
        gain_of r.1 guild_id
          = Some (PrimFloat.div (Py.float_of_int v) 100%float)
        /\ log r.2 = log w ++ [Send (VolumeChanged v)]
        /\ forall g, g <> guild_id -> r.1 !! g = music_queues !! g)
  /\ (v = 0 -> gain_of r.1 guild_id = Some 0%float)
  /\ (v = 100 -> gain_of r.1 guild_id = Some 1%float).
Proof.
  intros Hreg Hvc Hcur Hsrc r.
  assert (r = let '(s', w2) := Commands.volume_session (Some v) s w in
              (<[guild_id := s']> music_queues, w2)) as Hr.
  { subst r. unfold Commands.volume, get_music_queue. by rewrite Hreg. }
  rewrite (volume_session_spec v s w vc cur src Hvc Hcur Hsrc) in Hr.
  assert (0 <= v <= 200 ->
          gain_of r.1 guild_id
            = Some (PrimFloat.div (Py.float_of_int v) 100%float)
          /\ log r.2 = log w ++ [Send (VolumeChanged v)]
          /\ forall g, g <> guild_id -> r.1 !! g = music_queues !! g) as Hin.
  { intros Hv. rewrite Hr.
    destruct (Z.ltb_spec v 0); [lia|]. destruct (Z.ltb_spec 200 v); [lia|].
    cbn [orb fst snd]. unfold gain_of. rewrite lookup_insert_eq.
    repeat split. intros g Hg. by rewrite lookup_insert_ne. }
  split; [|split; [exact Hin|split]].
  - intros Hv. rewrite Hr.
    assert ((v <? 0) || (200 <? v) = true) as ->.
    { destruct Hv as [Hv|Hv].
      - destruct (Z.ltb_spec v 0); [done|lia].
      - destruct (Z.ltb_spec 200 v); [by rewrite orb_true_r|lia]. }
    cbn [fst snd]. rewrite (insert_id _ _ _ Hreg).
    repeat split. unfold gain_of, gain. rewrite Hreg. simpl.
    by rewrite Hcur, Hsrc.
  - intros ->. by destruct Hin as [-> _]; [lia|].
  - intros ->. by destruct Hin as [-> _]; [lia|].
Qed.

(** Witness of [volume_range]: 250 is refused, 0 mutes, 100 is unity. *)
Lemma volume_range_witness :
  gain_of (Commands.volume Sample.env_up 1 (Some 250) Sample2.registry
             Sample2.playing.2).1 1 = Some 0.5%float
  /\ gain_of (Commands.volume Sample.env_up 1 (Some 0) Sample2.registry
                Sample2.playing.2).1 1 = Some 0%float
  /\ gain_of (Commands.volume Sample.env_up 1 (Some 100) Sample2.registry
                Sample2.playing.2).1 1 = Some 1%float
  /\ gain_of (Commands.volume Sample.env_up 1 (Some 50) Sample2.registry
                Sample2.playing.2).1 1 = Some 0.5%float.
Proof.
  pose (s := Sample2.playing.1).
  assert (Sample2.registry !! 1 = Some s) as Hreg by reflexivity.
  assert (exists cur src, current s = Some cur /\ source cur = Some src
                          /\ volume src = 0.5%float)
    as (cur & src & Hcur & Hsrc & Hvol)
    by (vm_compute; eauto).
  assert (voice_client s = Some (mkVoiceClient true 7)) as Hvc
    by reflexivity.
  split; [|split; [|split]].
  - rewrite <- Hvol.
    apply (volume_range Sample.env_up 1 250 Sample2.registry
             Sample2.playing.2 s _ cur src Hreg Hvc Hcur Hsrc). lia.
  - apply (volume_range Sample.env_up 1 0 Sample2.registry
             Sample2.playing.2 s _ cur src Hreg Hvc Hcur Hsrc). reflexivity.
  - apply (volume_range Sample.env_up 1 100 Sample2.registry
             Sample2.playing.2 s _ cur src Hreg Hvc Hcur Hsrc). reflexivity.
  - apply (volume_range Sample.env_up 1 50 Sample2.registry
             Sample2.playing.2 s _ cur src Hreg Hvc Hcur Hsrc). lia.
Defined.

(** ** Strings *)

Lemma append_cons c a b :
  String.append (String c a) b = String c (String.append a b).
Proof. reflexivity. Qed.

Lemma prefix_app a b : String.prefix a (String.append a b) = true.
Proof.
  induction a as [|c a IH]; simpl; [by destruct b|].
  by destruct (ascii_dec c c).
Qed.

Lemma prefix_refl a : String.prefix a a = true.
Proof.
  induction a as [|c a IH]; simpl; [done|]. by destruct (ascii_dec c c).
Qed.

Lemma contains_prefix a b : String.prefix a b = true -> Py.contains a b = true.
Proof. intros H. destruct b; cbn [Py.contains]; by rewrite H. Qed.

Lemma contains_refl a : Py.contains a a = true.
Proof. apply contains_prefix, prefix_refl. Qed.

Lemma contains_empty b : Py.contains "" b = true.
Proof. by destruct b. Qed.

Lemma lower_app a b :
  Py.lower (String.append a b) = String.append (Py.lower a) (Py.lower b).
Proof. induction a as [|c a IH]; simpl; [done|]. by rewrite IH. Qed.

Lemma join_head sep first rest :
  exists z, Py.join sep (first :: rest) = String.append first z.
Proof.
  destruct rest as [|p ps]; simpl.
  - exists "". induction first as [|c a IH]; [done|].
    rewrite append_cons. by f_equal.
  - by eexists.
Qed.

Lemma str_or_cases a b :
  a = "" /\ Py.str_or a b = b \/ a <> "" /\ Py.str_or a b = a.
Proof. destruct a; [by left|by right]. Qed.

Lemma append_empty_l a b : String.append a b = "" -> a = "".
Proof. by destruct a. Qed.

Lemma existsb_false {A} (f : A -> bool) l x :
  existsb f l = false -> x ∈ l -> f x = false.
Proof.
  intros H Hx. destruct (f x) eqn:E; [|done].
  rewrite <- H. symmetry. apply existsb_exists. exists x.
  split; [by apply list_elem_of_In|done].
Qed.

(** ** What the recommendation filters let through *)

Lemma spotify_not_duplicate history track first rest d th u sd h :
  artists track = first :: rest ->
  is_duplicate_spotify history (Py.lower (name track)) (Py.lower first)
    = false ->
  h ∈ history ->
  ~ pair_duplicate
      (Song_init (name track) (Py.join ", " (artists track)) d th u sd) h.
Proof.
  intros Hart Hdup Hh [Ht Ha]. simpl in Ht, Ha.
  apply (existsb_false _ _ h) in Hdup; [|done]. simpl in Hdup.
  apply andb_false_iff in Hdup as [Hdup|Hdup].
  - destruct (str_or_cases (name track) "Unknown Title") as [[E _]|[_ E]].
    + rewrite E in Hdup. cbn [Py.lower] in Hdup.
      by rewrite contains_empty in Hdup.
    + rewrite E in Ht. by rewrite Ht, contains_refl in Hdup.
  - rewrite Hart in Ha. destruct (join_head ", " first rest) as [z Hz].
    destruct (str_or_cases (Py.join ", " (first :: rest)) "Unknown Artist")
      as [[E _]|[_ E]].
    + rewrite Hz in E. apply append_empty_l in E. subst first.
      cbn [Py.lower] in Hdup. by rewrite contains_empty in Hdup.
    + rewrite E, Hz, lower_app in Ha. rewrite <- Ha in Hdup.
      by rewrite contains_prefix in Hdup by apply prefix_app.
Qed.

Lemma youtube_not_duplicate history last_song title' url a d th h :
  is_duplicate_youtube history last_song title' url = Ok false ->
  h ∈ history ->
  ~ pair_duplicate (Song_init (default "" title') a d th url None) h.
Proof.
  intros Hdup Hh [Ht _]. simpl in Ht. unfold is_duplicate_youtube in Hdup.
  destruct history as [|h0 history]; [by apply elem_of_nil in Hh|].
  remember (h0 :: history) as hist eqn:Ehist. clear Ehist.
  destruct title' as [t|]; [|discriminate]. injection Hdup as Hdup.
  apply (existsb_false _ _ h) in Hdup; [|done]. simpl in Hdup, Ht.
  apply orb_false_iff in Hdup as [Hdup _].
  apply orb_false_iff in Hdup as [Hdup _].
  apply orb_false_iff in Hdup as [Hdup _].
  destruct (str_or_cases t "Unknown Title") as [[E _]|[_ E]].
  - rewrite E in Hdup. cbn [Py.lower] in Hdup.
    by rewrite contains_empty in Hdup.
  - rewrite E in Ht. by rewrite Ht, contains_refl in Hdup.
Qed.

Lemma too_long_false MAX d :
  0 <= MAX -> too_long MAX (Some d) = false -> d <= MAX.
Proof.
  unfold too_long. intros HM H. apply andb_false_iff in H as [H|H].
  - apply negb_false_iff, Z.eqb_eq in H. lia.
  - apply Z.ltb_ge in H. lia.
Qed.

(** C5: with [0 <= max_songs] and [0 <= max_duration] (the driver passes
    3 and 300), [get_autoplay_recommendations] returns at most
    [max_songs] songs, none with a duration above [max_duration], and
    none whose title and artist both equal, up to case, those of a song
    that was in [autoplay_history] at the call. *)
Theorem recommendations_filtered (E : Env) (last_song : Song)
    (s : EnhancedMusicQueue) (max_songs max_duration : Z) (w : World) :
  0 <= max_songs -> 0 <= max_duration ->
  let recs :=
    (get_autoplay_recommendations E last_song s max_songs max_duration w).1.1
  in
  Py.len recs <= max_songs
  /\ Forall (fun x => forall d, duration x = Some d -> d <= max_duration) recs
  /\ Forall (fun x => forall h, h ∈ autoplay_history s ->
                                ~ pair_duplicate x h) recs.
Proof.
  intros Hsongs Hdur recs. subst recs.
  rewrite get_autoplay_recommendations_recs.
  set (history := autoplay_history s).
  set (P := fun x : Song =>
              (forall d, duration x = Some d -> d <= max_duration)
              /\ (forall h, h ∈ history -> ~ pair_duplicate x h)).
  assert (Forall P (spotify_strategy E last_song history max_songs
                      max_duration w).1) as Hsp.
  { unfold spotify_strategy.
    repeat match goal with
           | |- context [match ?x with _ => _ end] =>
               destruct x; simpl; try done
           end.
    apply spotify_tracks_loop_Forall; [|done].
    intros track first rest u Hd Hart Hdup Hu. split.
    - intros d [= <-]. by apply Z.ltb_ge in Hd.
    - intros h Hh. by eapply spotify_not_duplicate. }
  assert (Py.len (spotify_strategy E last_song history max_songs
                    max_duration w).1 <= max_songs) as Hlen.
  { unfold spotify_strategy.
    repeat match goal with
           | |- context [match ?x with _ => _ end] =>
               destruct x; simpl; try done
           end.
    etrans; [apply spotify_tracks_loop_len|].
    change (Py.len (@nil Song)) with 0. lia. }
  destruct (spotify_strategy E last_song history max_songs max_duration w)
    as [recs1 w1]. simpl in Hsp, Hlen.
  assert (Forall P (youtube_strategy E last_song history max_songs
                      max_duration recs1 w1).1) as Hyt.
  { unfold youtube_strategy. destruct (_ && _); [|done].
    apply youtube_queries_loop_Forall; [|done].
    intros r title' url duration' Hd Hdup Hu. split.
    - intros d Hdd. simpl in Hdd. subst duration'. rewrite Hdd in Hd.
      by apply too_long_false.
    - intros h Hh. by eapply youtube_not_duplicate. }
  assert (Py.len (youtube_strategy E last_song history max_songs
                    max_duration recs1 w1).1 <= max_songs) as Hlen2.
  { unfold youtube_strategy. destruct (_ && _); [|done].
    etrans; [apply youtube_queries_loop_len|]. lia. }
  split; [exact Hlen2|].
  split; eapply Forall_impl; try exact Hyt; intros x [H1 H2]; assumption.
Qed.

(** Witness of [recommendations_filtered]: of the three search results
    only the fresh one comes back (once per query that still had room). *)
Lemma recommendations_filtered_witness :
  let recs :=
    (get_autoplay_recommendations Sample3.env (Sample.song "seed")
       Sample3.session 3 300 Sample.w0).1.1 in
  map title recs = ["Fresh"; "Fresh"; "Fresh"]
  /\ Py.len recs <= 3
  /\ Forall (fun x => forall d, duration x = Some d -> d <= 300) recs
  /\ Forall (fun x => forall h, h ∈ autoplay_history Sample3.session ->
                                ~ pair_duplicate x h) recs.
Proof.
  intros recs. split; [reflexivity|].
  apply (recommendations_filtered Sample3.env (Sample.song "seed")
           Sample3.session 3 300 Sample.w0); lia.
Defined.

(** ** What each function adds to the log *)

Lemma extends_refl Q w : extends Q w w.
Proof. exists []. by rewrite app_nil_r. Qed.

Lemma extends_trans Q w1 w2 w3 :
  extends Q w1 w2 -> extends Q w2 w3 -> extends Q w1 w3.
Proof.
  intros (e1 & H1 & F1) (e2 & H2 & F2). exists (e1 ++ e2).
  rewrite H2, H1, app_assoc. split; [done|]. by apply Forall_app.
Qed.

Lemma extends_emit (Q : Event -> Prop) e w : Q e -> extends Q w (emit e w).
Proof. intros H. exists [e]. split; [done|]. by constructor. Qed.

Lemma extends_impl (P Q : Event -> Prop) w w' :
  (forall e, P e -> Q e) -> extends P w w' -> extends Q w w'.
Proof.
  intros H (evs & Hl & F). exists evs. split; [done|].
  by eapply Forall_impl.
Qed.

Lemma extends_same_log Q w w' : log w' = log w -> extends Q w w'.
Proof. intros H. exists []. by rewrite app_nil_r. Qed.

Lemma extends_new Q w w' evs e :
  extends Q w w' -> log w' = log w ++ evs -> e ∈ evs -> Q e.
Proof.
  intros (evs' & Hl & F) Hl' He. rewrite Hl in Hl'.
  apply app_inv_head in Hl'. subst evs'.
  by eapply (proj1 (Forall_forall _ _)) in F.
Qed.

Section RetryLog.
Context {A : Type}.
Variable func : World -> result A * World.
Variable Q : Event -> Prop.
Hypothesis func_log : forall w, extends Q w (func w).2.
Hypothesis sleep_ok : forall n, Q (Sleep n).

Lemma retry_loop_extends attempts : forall config d last w,
  extends Q w (retry_loop func attempts config d last w).2.
Proof.
  induction attempts as [|a rest IH]; intros config d last w; simpl;
    [apply extends_refl|].
  pose proof (func_log w) as Hf.
  destruct (func w) as [[r|e] w1]; simpl in *; [done|].
  destruct (a <? max_attempts config - 1).
  - eapply extends_trans; [exact Hf|].
    eapply extends_trans; [apply extends_emit, sleep_ok|apply IH].
  - eapply extends_trans; [exact Hf|apply IH].
Qed.

Lemma retry_async_extends config w :
  extends Q w (retry_async func config w).2.
Proof.
  unfold retry_async.
  pose proof (retry_loop_extends (Py.range (max_attempts config)) config
                (delay config) None w) as H.
  by destruct (retry_loop func _ config (delay config) None w)
    as [[[[r|] c] [e|]] w'].
Qed.
End RetryLog.

Lemma _extract_info_extends E url w :
  extends (fun e => e = Extract (ReqUrl url)) w (_extract_info E url w).2.
Proof.
  unfold _extract_info. destruct (negb (ytdl E)); [apply extends_refl|].
  cbn [ask fst snd].
  assert (extends (fun e => e = Extract (ReqUrl url)) w
            (emit (Extract (ReqUrl url)) (mkWorld (S (tick w)) (log w))))
    as H by (exists [Extract (ReqUrl url)]; split; [done|by constructor]).
  destruct (ytdl_extract_info E (tick w) (ReqUrl url)) as [[|e|[|e es]]|];
    exact H.
Qed.

Lemma from_url_extends E url config w songs x :
  x ∈ songs -> youtube_url x = url ->
  extends (driver_event songs) w (from_url E url config w).2.
Proof.
  intros Hx Hu. unfold from_url. apply retry_async_extends; [|done].
  intros w0. eapply extends_impl; [|apply _extract_info_extends].
  intros e ->. simpl. eauto.
Qed.

Lemma driver_event_mono songs1 songs2 e :
  (forall x, x ∈ songs1 ->
     exists y, y ∈ songs2 /\ youtube_url y = youtube_url x) ->
  driver_event songs1 e -> driver_event songs2 e.
Proof.
  intros H. destruct e as [| [u|] | | | | | | |]; simpl; try done.
  intros (x & Hx & <-). by apply H.
Qed.

Lemma pending_take_current s : pending (take_current s) = pending s.
Proof.
  unfold pending, take_current, get_next_song.
  destruct (current s) eqn:Ec; [by rewrite Ec|].
  destruct (queue s) eqn:Eq; simpl; by rewrite ?Ec, ?Eq.
Qed.

Lemma play_next_song_extends fuel : forall E m s w r,
  play_next_song fuel E m s w = Some r ->
  extends (driver_event (pending s)) w r.2.
Proof.
  induction fuel as [|fuel IH]; intros E m s w r H; [discriminate|].
  simpl in H. rewrite <- pending_take_current.
  set (s0 := take_current s) in *.
  destruct (current s0) as [cur|] eqn:Ecur.
  2:{ injection H as <-. by apply extends_emit. }
  assert (cur ∈ pending s0) as Hcur
    by (unfold pending; rewrite Ecur; simpl; apply list_elem_of_here).
  set (w1 := if m then emit (Send (Loading (title cur))) w else w) in H.
  assert (extends (driver_event (pending s0)) w w1) as Hw1
    by (subst w1; destruct m; [by apply extends_emit|apply extends_refl]).
  pose proof (from_url_extends E (youtube_url cur) play_retry_config w1
                (pending s0) cur Hcur eq_refl) as Hw2.
  destruct (from_url E (youtube_url cur) play_retry_config w1)
    as [[[src|e] cfg] w2]; cbn [fst snd] in Hw2.
  - simpl in H.
    assert (extends (driver_event (pending s0)) w w2) as Hw
      by (by eapply extends_trans).
    destruct (voice_client s0) as [vc|]; [|by injection H as <-].
    destruct (vc_connected vc); injection H as <-; [|done].
    eapply extends_trans; [exact Hw|].
    eapply extends_trans;
      [apply (extends_emit _ (Play (set_source cur (Some src))) w2)
      |apply extends_emit]; exact I.
  - destruct (retry_count cur <? max_retries cur).
    + apply IH in H. eapply extends_trans; [exact Hw1|].
      eapply extends_trans; [exact Hw2|].
      eapply extends_trans;
        [by apply (extends_emit _ (Sleep (Py.PInt 2)))|].
      eapply extends_impl; [|exact H]. intros ev.
      apply driver_event_mono. unfold pending. simpl. rewrite Ecur. simpl.
      intros x Hx. apply elem_of_cons in Hx as [-> | Hx].
      * exists cur. split; [apply list_elem_of_here|done].
      * exists x. split; [by apply list_elem_of_further|done].
    + simpl in H.
      assert (extends (driver_event (pending s0)) w
                (emit (Send (LoadFailed (title cur))) w2)) as Hw.
      { eapply extends_trans; [exact Hw1|].
        eapply extends_trans; [exact Hw2|]. by apply extends_emit. }
      destruct (queue s0) as [|x q] eqn:Eq; [by injection H as <-|].
      apply IH in H. eapply extends_trans; [exact Hw|].
      eapply extends_trans;
        [by apply (extends_emit _ (Sleep (Py.PInt 2)))|].
      eapply extends_impl; [|exact H]. intros ev.
      apply driver_event_mono. unfold pending. simpl. rewrite Ecur, Eq.
      simpl. intros y Hy. exists y. split; [|done].
      by apply list_elem_of_further.
Qed.

(** ** What [play_next_song] leaves alone *)

Lemma same_settings_refl s : same_settings s s.
Proof. by repeat split. Qed.

Lemma same_settings_trans s1 s2 s3 :
  same_settings s1 s2 -> same_settings s2 s3 -> same_settings s1 s3.
Proof.
  unfold same_settings. intros H1 H2.
  destruct H1 as (?&?&?&?&?&?&?&?), H2 as (?&?&?&?&?&?&?&?).
  repeat split; congruence.
Qed.

Lemma same_settings_take_current s : same_settings s (take_current s).
Proof.
  unfold take_current, get_next_song.
  destruct (current s); [apply same_settings_refl|].
  destruct (queue s); by repeat split.
Qed.

Lemma play_next_song_settings fuel : forall E m s w r,
  play_next_song fuel E m s w = Some r -> same_settings s r.1.
Proof.
  induction fuel as [|fuel IH]; intros E m s w r H; [discriminate|].
  simpl in H.
  eapply same_settings_trans; [apply same_settings_take_current|].
  set (s0 := take_current s) in *.
  destruct (current s0) as [cur|] eqn:Ecur;
    [|injection H as <-; by repeat split].
  destruct (from_url E (youtube_url cur) play_retry_config _)
    as [[[src|e] cfg] w2].
  - simpl in H. destruct (voice_client s0) as [vc|] eqn:Evc.
    + destruct (vc_connected vc); injection H as <-; by repeat split.
    + injection H as <-; by repeat split.
  - destruct (retry_count cur <? max_retries cur).
    + apply IH in H. eapply same_settings_trans; [|exact H].
      by repeat split.
    + simpl in H. destruct (queue s0); [injection H as <-; by repeat split|].
      apply IH in H. eapply same_settings_trans; [|exact H].
      by repeat split.
Qed.

(** The driver never stops with songs queued and nothing current, and
    what it leaves queued is a final part of what was queued. *)
Lemma play_next_song_no_stall fuel : forall E m s w r,
  play_next_song fuel E m s w = Some r ->
  (current r.1 = None -> queue r.1 = [] /\ is_playing r.1 = false)
  /\ queue r.1 `suffix_of` queue (take_current s).
Proof.
  induction fuel as [|fuel IH]; intros E m s w r H; [discriminate|].
  simpl in H. set (s0 := take_current s) in *.
  destruct (current s0) as [cur|] eqn:Ecur.
  { destruct (from_url E (youtube_url cur) play_retry_config _)
      as [[[src|e] cfg] w2].
    - simpl in H. destruct (voice_client s0) as [vc|];
        [destruct (vc_connected vc)|]; injection H as <-; simpl;
        (split; [discriminate|done]).
    - destruct (retry_count cur <? max_retries cur).
      + apply IH in H as [H1 H2]. split; [exact H1|].
        unfold take_current in H2. simpl in H2. exact H2.
      + simpl in H. destruct (queue s0) as [|x q] eqn:Eq.
        * injection H as <-. simpl. rewrite Eq. by split.
        * apply IH in H as [H1 H2]. split; [exact H1|].
          unfold take_current, get_next_song in H2. simpl in H2.
          rewrite Eq in H2. simpl in H2.
          etrans; [exact H2|]. by apply suffix_cons_r. }
  injection H as <-. simpl. split; [|done]. intros _. split; [|done].
  subst s0. unfold take_current, get_next_song in *.
  destruct (current s) eqn:Ec; [by rewrite Ec in Ecur|].
  destruct (queue s) eqn:Eq; simpl in *; [by rewrite Eq|discriminate].
Qed.

(** ** The log of a recommendation attempt *)

Lemma enhanced_youtube_search_extends E q w :
  extends provider_event w (enhanced_youtube_search E q w).2.
Proof.
  unfold enhanced_youtube_search.
  destruct (negb (ytdl E)); [apply extends_refl|]. cbn [ask fst snd].
  set (w2 := emit _ _).
  assert (extends provider_event w w2) as H
    by (eexists [_]; split; [reflexivity|by constructor]).
  destruct (ytdl_extract_info E (tick w) _) as [[|e|[|e es]]|]; try exact H.
  by destruct (e_webpage_url e).
Qed.

Lemma enhanced_youtube_search_multiple_extends E q limit w :
  extends provider_event w (enhanced_youtube_search_multiple E q limit w).2.
Proof.
  unfold enhanced_youtube_search_multiple.
  destruct (negb (ytdl E)); [apply extends_refl|]. cbn [ask fst snd].
  set (w2 := emit _ _).
  assert (extends provider_event w w2) as H
    by (eexists [_]; split; [reflexivity|by constructor]).
  by destruct (ytdl_extract_info E (tick w) _) as [[|e|es]|].
Qed.

Lemma spotify_tracks_loop_extends E history max_songs MAX tracks :
  forall recs w,
  extends provider_event w
    (spotify_tracks_loop E history max_songs MAX tracks recs w).2.
Proof.
  induction tracks as [|track rest IH]; intros recs w; simpl;
    [apply extends_refl|].
  destruct (max_songs <=? Py.len recs); [apply extends_refl|].
  destruct (MAX <? duration_ms track / 1000); [apply IH|].
  destruct (artists track) as [|first others]; [apply extends_refl|].
  destruct (is_duplicate_spotify history _ _); [apply IH|].
  pose proof (enhanced_youtube_search_extends E
                (String.append (name track) (String.append " " first)) w) as H.
  destruct (enhanced_youtube_search E _ w) as [[u|] w1]; cbn [snd] in H.
  - destruct (Py.truthy u); (eapply extends_trans; [exact H|apply IH]).
  - eapply extends_trans; [exact H|apply IH].
Qed.

Lemma spotify_strategy_extends E last_song history max_songs MAX w :
  extends provider_event w
    (spotify_strategy E last_song history max_songs MAX w).2.
Proof.
  unfold spotify_strategy.
  destruct (spotify_data last_song) as [sd|]; [|apply extends_refl].
  destruct (spotify E && (0 <? max_songs)); [|apply extends_refl].
  destruct (Py.truthy (spotify_url sd)); [|apply extends_refl].
  destruct (Py.truthy _ && _); [|apply extends_refl].
  cbn [ask fst snd]. set (w2 := emit _ _).
  assert (extends provider_event w w2) as H
    by (eexists [_]; split; [reflexivity|by constructor]).
  destruct (spotify_recommendations E (tick w) _ max_songs); [|exact H].
  eapply extends_trans; [exact H|apply spotify_tracks_loop_extends].
Qed.

Lemma youtube_queries_loop_extends E history last_song max_songs MAX queries :
  forall recs w,
  extends provider_event w
    (youtube_queries_loop E history last_song max_songs MAX queries
       recs w).2.
Proof.
  induction queries as [|q rest IH]; intros recs w; simpl;
    [apply extends_refl|].
  destruct (max_songs <=? Py.len recs); [apply extends_refl|].
  pose proof (enhanced_youtube_search_multiple_extends E q
                (max_songs - Py.len recs) w) as H.
  destruct (enhanced_youtube_search_multiple E q _ w) as [results w1].
  eapply extends_trans; [exact H|apply IH].
Qed.

Lemma get_autoplay_recommendations_extends E last_song s max_songs MAX w :
  extends provider_event w
    (get_autoplay_recommendations E last_song s max_songs MAX w).2.
Proof.
  unfold get_autoplay_recommendations.
  pose proof (spotify_strategy_extends E last_song (autoplay_history s)
                max_songs MAX w) as H1.
  destruct (spotify_strategy E last_song _ max_songs MAX w) as [recs1 w1].
  cbn [snd] in H1.
  assert (extends provider_event w1
            (youtube_strategy E last_song (autoplay_history s) max_songs MAX
               recs1 w1).2) as H2.
  { unfold youtube_strategy. destruct (_ && _); [|apply extends_refl].
    apply youtube_queries_loop_extends. }
  destruct (youtube_strategy E last_song _ max_songs MAX recs1 w1)
    as [recs2 w2]. by eapply extends_trans.
Qed.

Lemma add_songs_log E songs : forall s w, log (add_songs E songs s w).2 = log w.
Proof.
  induction songs as [|x songs IH]; intros s w; simpl; [done|].
  by rewrite IH.
Qed.

Lemma queue_finished_extends s w :
  extends (fun e => e = Send QueueFinished) w (queue_finished s w).2.
Proof.
  unfold queue_finished. destruct (autoplay_enabled _); simpl;
    [apply extends_refl|by apply extends_emit].
Qed.

Lemma autoplay_due_true E s w :
  (autoplay_due E s w).1 = true ->
  autoplay_enabled s = true
  /\ last_played_songs s <> []
  /\ autoplay_failures s < 3
  /\ Py.float_gt (PrimFloat.sub (time_time E (tick w))
                    (last_autoplay_attempt s)) 30%float = true
  /\ (autoplay_due E s w).2 = (ask w).2.
Proof.
  unfold autoplay_due.
  destruct (autoplay_enabled s); [|discriminate].
  destruct (bool_decide_reflect (last_played_songs s = [])) as [|Hne];
    [discriminate|].
  destruct (Z.ltb_spec (autoplay_failures s) 3) as [Hlt|]; [|discriminate].
  simpl. intros Hgt. by repeat split.
Qed.

(** ** The autoplay guard *)

Lemma play_next_in_queue_attempt E fuel s w seed :
  queue s = [] ->
  (autoplay_due E (set_current s None) w).1 = true ->
  Py.deque_last (last_played_songs s) = Some seed ->
  play_next_in_queue fuel E s w
  = let '(recs, s4, w4) :=
      get_autoplay_recommendations E seed (autoplay_state E s w) 3 300
        (autoplay_world seed w) in
    match recs with
    | [] =>
        Some (queue_finished
                (set_autoplay_failures s4 (autoplay_failures s4 + 1)) w4)
    | _ :: _ =>
        let '(s6, w5) := add_songs E recs (set_autoplay_failures s4 0) w4 in
        let w6 := emit (Send (AutoplayActive (length recs))) w5 in
        let '(c', s7) := get_next_song s6 in
        match c' with
        | Some _ => play_next_song fuel E false (set_current s7 c') w6
        | None => Some (queue_finished (set_current s7 c') w6)
        end
    end.
Proof.
  intros Hq Hdue Hseed. unfold play_next_in_queue, get_next_song.
  rewrite Hq. apply autoplay_due_true in Hdue as Hd.
  destruct Hd as (_ & _ & _ & _ & Hw).
  destruct (autoplay_due E (set_current s None) w) as [due w1].
  simpl in Hdue, Hw. subst due w1. cbn [ask fst snd].
  change (last_played_songs (set_last_autoplay_attempt _ _))
    with (last_played_songs s).
  rewrite Hseed. reflexivity.
Qed.

(** C4: when a run of [play_next_in_queue] asks for recommendations (a
    [Recommend] event among the events it adds to the log), then at its
    decision point the queue was empty, [autoplay_enabled] was true,
    [last_played_songs] was not empty, [autoplay_failures] was below 3,
    and the clock reading minus [last_autoplay_attempt] was greater than
    30; the seed is the most recent entry of [last_played_songs]. *)
Theorem autoplay_guard (E : Env) (fuel : nat) (s : EnhancedMusicQueue)
    (w : World) (r : EnhancedMusicQueue * World) (evs : list Event)
    (seed : Song) :
  play_next_in_queue fuel E s w = Some r ->
  log r.2 = log w ++ evs ->
  Recommend seed ∈ evs ->
  queue s = []
  /\ autoplay_enabled s = true
  /\ last_played_songs s <> []
  /\ autoplay_failures s < 3
  /\ Py.float_gt (PrimFloat.sub (time_time E (tick w))
                    (last_autoplay_attempt s)) 30%float = true
  /\ Py.deque_last (last_played_songs s) = Some seed.
Proof.
  intros Hrun Hlog Hin. unfold play_next_in_queue, get_next_song in Hrun.
  destruct (queue s) as [|x q] eqn:Eq.
  2:{ apply play_next_song_extends in Hrun.
      by apply (extends_new _ _ _ _ _ Hrun Hlog) in Hin. }
  destruct (autoplay_due E (set_current s None) w) as [due w1] eqn:Edue.
  destruct due.
  2:{ injection Hrun as <-.
      assert (log w1 = log w) as Hw1.
      { unfold autoplay_due in Edue.
        destruct (_ && _); simpl in Edue;
          [injection Edue as _ <-|injection Edue as <-]; reflexivity. }
      pose proof (queue_finished_extends (set_current s None) w1) as Hext.
      destruct Hext as (evs' & Hl & F). rewrite Hw1, Hlog in Hl.
      apply app_inv_head in Hl. subst evs'.
      eapply (proj1 (Forall_forall _ _)) in F; [|exact Hin]. discriminate. }
  pose proof (autoplay_due_true E (set_current s None) w) as Hd.
  rewrite Edue in Hd. destruct (Hd eq_refl) as (H1 & H2 & H3 & H4 & Hw).
  simpl in H1, H2, H3, H4, Hw. subst w1.
  split; [done|]. do 4 (split; [done|]).
  cbn [ask fst snd] in Hrun.
  change (last_played_songs (set_last_autoplay_attempt _ _))
    with (last_played_songs s) in Hrun.
  destruct (Py.deque_last (last_played_songs s)) as [last_song|] eqn:Elast.
  2:{ exfalso. injection Hrun as <-.
      pose proof (queue_finished_extends
                    (set_autoplay_failures
                       (set_last_autoplay_attempt (set_current s None)
                          (time_time E (S (tick w))))
                       (autoplay_failures s + 1))
                    (mkWorld (S (S (tick w))) (log w))) as Hext.
      destruct Hext as (evs' & Hl & F). simpl in Hl, Hlog.
      rewrite Hlog in Hl. apply app_inv_head in Hl. subst evs'.
      eapply (proj1 (Forall_forall _ _)) in F; [|exact Hin]. discriminate. }
  f_equal.
  set (w3 := emit (Recommend last_song) _) in Hrun.
  pose proof (get_autoplay_recommendations_extends E last_song
                (set_last_autoplay_attempt (set_current s None)
                   (time_time E (S (tick w)))) 3 300 w3) as Hrec.
  destruct (get_autoplay_recommendations E last_song _ 3 300 w3)
    as [[recs s4] w4]. cbn [snd] in Hrec.
  assert (extends (fun e => forall x, e <> Recommend x) w4 r.2) as Hrest.
  { destruct recs as [|x recs].
    - injection Hrun as <-. eapply extends_impl;
        [|apply queue_finished_extends]. by intros e ->.
    - pose proof (add_songs_log E (x :: recs) (set_autoplay_failures s4 0)
                    w4) as Hadd.
      destruct (add_songs E (x :: recs) _ w4) as [s6 w5]. cbn [snd] in Hadd.
      eapply extends_trans; [apply extends_same_log; exact Hadd|].
      eapply extends_trans;
        [by apply (extends_emit _ (Send (AutoplayActive
                                          (length (x :: recs)))))|].
      destruct (queue s6) as [|c' q'].
      + injection Hrun as <-. eapply extends_impl;
          [|apply queue_finished_extends]. by intros e ->.
      + apply play_next_song_extends in Hrun. eapply extends_impl;
          [|exact Hrun]. intros e He y ->. exact He. }
  destruct Hrec as (e1 & Hl1 & F1). destruct Hrest as (e2 & Hl2 & F2).
  rewrite Hl2, Hl1 in Hlog. subst w3. simpl in Hlog.
  rewrite <- !app_assoc in Hlog. apply app_inv_head in Hlog. subst evs.
  apply elem_of_cons in Hin as [Hin|Hin]; [by injection Hin|].
  exfalso. apply elem_of_app in Hin as [Hin|Hin].
  - eapply (proj1 (Forall_forall _ _)) in F1; [|exact Hin]. exact F1.
  - eapply (proj1 (Forall_forall _ _)) in F2; [|exact Hin]. by eapply F2.
Qed.

(** Witness of [autoplay_guard]: a drained session with autoplay on asks
    for recommendations at clock reading 1000; exactly 30 seconds after
    an attempt it does not. *)
Lemma autoplay_guard_witness :
  (exists r evs,
     play_next_in_queue 10 Sample3.env Sample4.drained Sample.w0 = Some r
     /\ log r.2 = log Sample.w0 ++ evs
     /\ Recommend (Sample.song "seed") ∈ evs
     /\ autoplay_failures Sample4.drained < 3
     /\ Py.float_gt (PrimFloat.sub (time_time Sample3.env 1)
                       (last_autoplay_attempt Sample4.drained)) 30%float
        = true)
  /\ (exists r,
        play_next_in_queue 10 Sample3.env Sample4.cooling Sample.w0 = Some r
        /\ log r.2 = []).
Proof.
  split.
  - destruct (play_next_in_queue 10 Sample3.env Sample4.drained Sample.w0)
      as [r|] eqn:Erun; [|by vm_compute in Erun].
    exists r, (log r.2).
    assert (log r.2 = log Sample.w0 ++ log r.2) as Hlog by reflexivity.
    assert (Recommend (Sample.song "seed") ∈ log r.2) as Hin.
    { vm_compute in Erun. injection Erun as <-. apply list_elem_of_here. }
    split; [reflexivity|]. split; [exact Hlog|]. split; [exact Hin|].
    destruct (autoplay_guard Sample3.env 10 Sample4.drained Sample.w0 r
                (log r.2) (Sample.song "seed") Erun Hlog Hin)
      as (_ & _ & _ & H3 & H4 & _).
    split; [exact H3|exact H4].
  - eexists. split; reflexivity.
Defined.

(** ** Provider errors and the failure counter *)

Lemma add_songs_queue E songs : forall s w,
  queue (add_songs E songs s w).1 = queue s ++ songs
  /\ autoplay_failures (add_songs E songs s w).1 = autoplay_failures s.
Proof.
  induction songs as [|x songs IH]; intros s w; simpl;
    [by rewrite app_nil_r|].
  destruct (IH (add_song (time_time E (tick w)) x s)
              (mkWorld (S (tick w)) (log w))) as [-> ->].
  simpl. by rewrite <- app_assoc.
Qed.

Lemma queue_finished_state s w :
  queue (queue_finished s w).1 = queue s
  /\ autoplay_failures (queue_finished s w).1 = autoplay_failures s
  /\ is_playing (queue_finished s w).1 = false.
Proof. unfold queue_finished. by destruct (autoplay_enabled _). Qed.

(** When the Spotify client raises, the Spotify strategy ends with no
    song and the YouTube strategy runs from there. *)
Lemma spotify_error_caught E last_song s max_songs MAX w :
  (forall id, exists e,
     spotify_recommendations E (tick w) id max_songs = Raise e) ->
  (spotify_strategy E last_song (autoplay_history s) max_songs MAX w).1 = []
  /\ (get_autoplay_recommendations E last_song s max_songs MAX w).1.1
     = (youtube_strategy E last_song (autoplay_history s) max_songs MAX []
          (spotify_strategy E last_song (autoplay_history s) max_songs MAX
             w).2).1.
Proof.
  intros Herr.
  assert ((spotify_strategy E last_song (autoplay_history s) max_songs MAX
             w).1 = []) as H.
  { unfold spotify_strategy.
    destruct (spotify_data last_song) as [sd|]; [|done].
    destruct (spotify E && (0 <? max_songs)); [|done].
    destruct (Py.truthy (spotify_url sd)); [|done].
    destruct (Py.truthy _ && _); [|done]. cbn [ask fst snd].
    destruct (Herr (Py.split_first "?" (Py.split_last "/" (spotify_url sd))))
      as [e ->]. done. }
  split; [exact H|]. rewrite get_autoplay_recommendations_recs. by rewrite H.
Qed.

(** When yt-dlp raises on a fallback query, the songs found so far are
    kept and the remaining queries run. *)
Lemma youtube_error_caught E history last_song max_songs MAX q rest recs w e :
  ytdl E = true ->
  Py.len recs < max_songs ->
  ytdl_extract_info E (tick w)
    (ReqSearch (max_songs - Py.len recs) (Py.strip (Py.clean q))) = Raise e ->
  youtube_queries_loop E history last_song max_songs MAX (q :: rest) recs w
  = youtube_queries_loop E history last_song max_songs MAX rest recs
      (emit (Extract (ReqSearch (max_songs - Py.len recs)
                        (Py.strip (Py.clean q))))
         (ask w).2).
Proof.
  intros Hy Hlen Herr. cbn [youtube_queries_loop].
  destruct (Z.leb_spec max_songs (Py.len recs)); [lia|].
  unfold enhanced_youtube_search_multiple. rewrite Hy. cbn [negb ask fst snd].
  by rewrite Herr.
Qed.

(** When yt-dlp raises while a Spotify track is looked up, that track is
    skipped and the loop goes on with the next one. *)
Lemma track_search_error_caught E history max_songs MAX track rest recs w
    first others e :
  ytdl E = true ->
  Py.len recs < max_songs ->
  (MAX <? duration_ms track / 1000) = false ->
  artists track = first :: others ->
  is_duplicate_spotify history (Py.lower (name track)) (Py.lower first)
    = false ->
  ytdl_extract_info E (tick w)
    (ReqSearch 1
       (Py.strip
          (Py.clean (String.append (name track) (String.append " " first)))))
    = Raise e ->
  spotify_tracks_loop E history max_songs MAX (track :: rest) recs w
  = spotify_tracks_loop E history max_songs MAX rest recs
      (emit (Extract
               (ReqSearch 1
                  (Py.strip
                     (Py.clean (String.append (name track)
                                  (String.append " " first))))))
         (ask w).2).
Proof.
  intros Hy Hlen Hd Hart Hdup Herr. cbn [spotify_tracks_loop].
  destruct (Z.leb_spec max_songs (Py.len recs)); [lia|].
  rewrite Hd, Hart, Hdup. unfold enhanced_youtube_search.
  rewrite Hy. cbn [negb ask fst snd]. by rewrite Herr.
Qed.

(** C7: in a run of [play_next_in_queue] that attempts autoplay, an
    empty list of recommendations leaves [autoplay_failures] one higher
    than before, and a non-empty one leaves it at 0, the counter being
    already 0 in the state, with an empty queue, to which the new songs
    are then added; and inside the attempt a raising Spotify client gives
    way to the YouTube strategy, a raising yt-dlp search on one fallback
    query gives way to the next query with the songs found so far, and a
    raising yt-dlp lookup for one Spotify track gives way to the next
    track. *)
Theorem autoplay_failure_count (E : Env) (fuel : nat)
    (s : EnhancedMusicQueue) (w : World) (seed : Song)
    (r : EnhancedMusicQueue * World) :
  queue s = [] ->
  (autoplay_due E (set_current s None) w).1 = true ->
  Py.deque_last (last_played_songs s) = Some seed ->
  play_next_in_queue fuel E s w = Some r ->
  let attempt :=
    get_autoplay_recommendations E seed (autoplay_state E s w) 3 300
      (autoplay_world seed w) in
  let s5 := set_autoplay_failures attempt.1.2 0 in
  (attempt.1.1 = [] ->
     autoplay_failures r.1 = autoplay_failures s + 1 /\ queue r.1 = [])
  /\ (attempt.1.1 <> [] ->
        autoplay_failures r.1 = 0
        /\ autoplay_failures s5 = 0 /\ queue s5 = []
        /\ queue (add_songs E attempt.1.1 s5 attempt.2).1 = attempt.1.1
        /\ autoplay_failures (add_songs E attempt.1.1 s5 attempt.2).1 = 0)
  /\ (forall last_song s0 max_songs MAX w0,
        (forall id, exists e,
           spotify_recommendations E (tick w0) id max_songs = Raise e) ->
        (get_autoplay_recommendations E last_song s0 max_songs MAX w0).1.1
        = (youtube_strategy E last_song (autoplay_history s0) max_songs MAX
             []
             (spotify_strategy E last_song (autoplay_history s0) max_songs
                MAX w0).2).1)
  /\ (forall history last_song max_songs MAX q rest recs w0 e,
        ytdl E = true ->
        Py.len recs < max_songs ->
        ytdl_extract_info E (tick w0)
          (ReqSearch (max_songs - Py.len recs) (Py.strip (Py.clean q)))
          = Raise e ->
        youtube_queries_loop E history last_song max_songs MAX (q :: rest)
          recs w0
        = youtube_queries_loop E history last_song max_songs MAX rest recs
            (emit (Extract (ReqSearch (max_songs - Py.len recs)
                              (Py.strip (Py.clean q))))
               (ask w0).2))
  /\ (forall history max_songs MAX track rest recs w0 first others e,
        ytdl E = true ->
        Py.len recs < max_songs ->
        (MAX <? duration_ms track / 1000) = false ->
        artists track = first :: others ->
        is_duplicate_spotify history (Py.lower (name track))
          (Py.lower first) = false ->
        ytdl_extract_info E (tick w0)
          (ReqSearch 1
             (Py.strip
                (Py.clean (String.append (name track)
                             (String.append " " first)))))
          = Raise e ->
        spotify_tracks_loop E history max_songs MAX (track :: rest) recs w0
        = spotify_tracks_loop E history max_songs MAX rest recs
            (emit (Extract
                     (ReqSearch 1
                        (Py.strip
                           (Py.clean (String.append (name track)
                                        (String.append " " first))))))
               (ask w0).2)).
Proof.
  intros Hq Hdue Hseed Hrun attempt s5.
  rewrite (play_next_in_queue_attempt E fuel s w seed Hq Hdue Hseed) in Hrun.
  fold attempt in Hrun.
  assert (autoplay_failures attempt.1.2 = autoplay_failures s
          /\ queue attempt.1.2 = []) as [Hf4 Hq4].
  { subst attempt. rewrite get_autoplay_recommendations_state. by simpl. }
  split; [|split; [|split; [|split]]].
  - intros Hempty. destruct attempt as [[recs s4] w4]. cbn [fst snd] in *.
    subst recs. injection Hrun as <-.
    destruct (queue_finished_state
                (set_autoplay_failures s4 (autoplay_failures s4 + 1)) w4)
      as (-> & -> & _). simpl. by rewrite Hf4.
  - intros Hne. pose proof (add_songs_queue E attempt.1.1 s5 attempt.2)
      as [Hq6 Hf6].
    assert (queue s5 = []) as Hq5 by (subst s5; exact Hq4).
    rewrite Hq5 in Hq6. cbn [app] in Hq6.
    change (autoplay_failures s5) with 0 in Hf6.
    split; [|by repeat split].
    destruct attempt as [[recs s4] w4]. cbn [fst snd] in *.
    destruct recs as [|x recs]; [done|]. subst s5.
    destruct (add_songs E (x :: recs) (set_autoplay_failures s4 0) w4)
      as [s6 w5]. cbn [fst snd] in *.
    destruct (get_next_song s6) as [c' s7] eqn:Enext.
    assert (autoplay_failures s7 = 0) as Hf7.
    { unfold get_next_song in Enext.
      destruct (queue s6); injection Enext as <- <-; exact Hf6. }
    destruct c' as [c'|].
    + apply play_next_song_settings in Hrun.
      destruct Hrun as (_ & _ & -> & _). exact Hf7.
    + injection Hrun as <-.
      destruct (queue_finished_state (set_current s7 None)
                  (emit (Send (AutoplayActive (length (x :: recs)))) w5))
        as (_ & Hf & _).
      etrans; [exact Hf|exact Hf7].
  - intros. by apply spotify_error_caught.
  - intros. by eapply youtube_error_caught.
  - intros. by eapply track_search_error_caught.
Qed.

(** Witness of [autoplay_failure_count]: with Spotify raising and yt-dlp
    answering, the attempt finds songs through YouTube and the counter is
    0 afterwards. *)
Lemma autoplay_failure_count_witness :
  exists r,
    play_next_in_queue 10 Sample4.env_spotify_down Sample4.drained_spotify
      Sample.w0 = Some r
    /\ map title (queue r.1) = ["Fresh"; "Fresh"]
    /\ autoplay_failures r.1 = 0.
Proof.
  destruct (play_next_in_queue 10 Sample4.env_spotify_down
              Sample4.drained_spotify Sample.w0) as [r|] eqn:Erun;
    [|by vm_compute in Erun].
  exists r. split; [reflexivity|].
  split; [vm_compute in Erun; by injection Erun as <-|].
  apply (autoplay_failure_count Sample4.env_spotify_down 10
           Sample4.drained_spotify Sample.w0 Sample4.spotify_seed r
           eq_refl eq_refl eq_refl Erun).
  vm_compute. discriminate.
Defined.

(** ** The retry cap of a song *)

Lemma take_current_idem s : take_current (take_current s) = take_current s.
Proof.
  unfold take_current at 1. destruct (current (take_current s)) eqn:E; [done|].
  unfold take_current, get_next_song in *.
  destruct (current s) eqn:Ec; [congruence|].
  destruct (queue s) eqn:Eq; simpl in *; [by rewrite Eq|discriminate].
Qed.

Lemma play_next_song_take fuel E m s w :
  play_next_song fuel E m (take_current s) w = play_next_song fuel E m s w.
Proof. destruct fuel; [done|]. simpl. by rewrite take_current_idem. Qed.

Lemma same_track_refl x : same_track x x.
Proof. reflexivity. Qed.

Lemma same_track_url x y : same_track x y -> youtube_url x = youtube_url y.
Proof. unfold same_track. intros H. by injection H. Qed.

Lemma pending_current_in s c : current s = Some c -> c ∈ pending s.
Proof. intros H. unfold pending. rewrite H. apply list_elem_of_here. Qed.

(** Whatever the driver leaves as current is one of the songs it was
    given, up to [source] and [retry_count]. *)
Lemma play_next_song_current fuel : forall E m s w r c,
  play_next_song fuel E m s w = Some r ->
  current r.1 = Some c ->
  exists x, x ∈ pending s /\ same_track c x.
Proof.
  induction fuel as [|fuel IH]; intros E m s w r c H Hc; [discriminate|].
  simpl in H. rewrite <- pending_take_current.
  set (s0 := take_current s) in *.
  destruct (current s0) as [cur|] eqn:Ecur;
    [|injection H as <-; simpl in Hc; congruence].
  pose proof (pending_current_in s0 cur Ecur) as Hin.
  destruct (from_url E (youtube_url cur) play_retry_config _)
    as [[[src|e] cfg] w2].
  - exists cur. split; [done|].
    simpl in H. destruct (voice_client s0) as [vc|];
      [destruct (vc_connected vc)|]; injection H as <-; simpl in Hc;
      injection Hc as <-; reflexivity.
  - destruct (retry_count cur <? max_retries cur).
    + destruct (IH _ _ _ _ _ _ H Hc) as (x & Hx & Hsame).
      unfold pending in Hx. simpl in Hx.
      apply elem_of_cons in Hx as [-> | Hx].
      * exists cur. split; [done|]. exact Hsame.
      * exists x. split; [|done]. unfold pending. rewrite Ecur.
        by apply list_elem_of_further.
    + simpl in H. destruct (queue s0) as [|y q] eqn:Eq.
      * injection H as <-. simpl in Hc. discriminate.
      * destruct (IH _ _ _ _ _ _ H Hc) as (x & Hx & Hsame).
        exists x. split; [|done]. unfold pending in *. simpl in Hx.
        rewrite Ecur, Eq. rewrite Eq in Hx. by apply list_elem_of_further.
Qed.

(** The branch taken when the load fails with the retries used up. *)
Lemma play_next_song_cap E fuel (m : bool) s w cur e cfg w2 :
  current (take_current s) = Some cur ->
  max_retries cur <= retry_count cur ->
  from_url E (youtube_url cur) play_retry_config
    (if m then emit (Send (Loading (title cur))) w else w)
    = (Raise e, cfg, w2) ->
  play_next_song (S fuel) E m s w
  = match queue (take_current s) with
    | [] =>
        Some (set_is_playing (set_current (take_current s) None) false,
              emit (Send (LoadFailed (title cur))) w2)
    | next :: rest =>
        play_next_song fuel E false
          (set_current
             (set_queue (set_is_playing (take_current s) true) rest)
             (Some next))
          (emit (Sleep (Py.PInt 2))
             (emit (Send (LoadFailed (title cur))) w2))
    end.
Proof.
  intros Hcur Hcap Hfail. cbn [play_next_song]. rewrite Hcur. cbn zeta.
  rewrite Hfail.
  destruct (Z.ltb_spec (retry_count cur) (max_retries cur)); [lia|].
  cbn [queue set_current set_is_playing].
  destruct (queue (take_current s)) as [|next rest] eqn:Eq; [done|].
  rewrite <- play_next_song_take. unfold take_current at 1, get_next_song.
  cbn [current set_current queue].
  change (queue (set_is_playing (take_current s) true))
    with (queue (take_current s)).
  by rewrite Eq.
Qed.

Lemma session_inv_songs s : session_inv s -> Forall song_ok (session_songs s).
Proof.
  intros [Hq Hc Hp Hh _ _]. unfold session_songs.
  repeat (apply Forall_app; split); try done.
  destruct (current s) as [c|]; simpl; [|constructor].
  constructor; [by apply Hc|constructor].
Qed.

(** C2: every song held by a session, in every state it can reach, has
    [max_retries = 2] and [0 <= retry_count <= max_retries]; and when a
    load fails for a current song whose [retry_count] has reached
    [max_retries], [play_next_song] returns, having dropped that song and
    gone on exactly as a call on the next queued song would (or, with
    nothing queued, having stopped with [is_playing] false); from that
    failure on it only extracts URLs of songs that were queued behind the
    dropped one, whatever is current at the end is one of those songs,
    and it never ends with nothing current while songs are queued. *)
Theorem retry_cap :
  (forall E x, reachable E x -> Forall song_ok (session_songs x.1))
  /\ (forall E (m : bool) s w cur e cfg w2 fuel,
        current (take_current s) = Some cur ->
        max_retries cur <= retry_count cur ->
        from_url E (youtube_url cur) play_retry_config
          (if m then emit (Send (Loading (title cur))) w else w)
          = (Raise e, cfg, w2) ->
        (play_fuel s <= S fuel)%nat ->
        exists r,
          play_next_song (S fuel) E m s w = Some r
          /\ match queue (take_current s) with
             | [] =>
                 r = (set_is_playing (set_current (take_current s) None)
                        false,
                      emit (Send (LoadFailed (title cur))) w2)
             | next :: rest =>
                 play_next_song fuel E false
                   (set_current
                      (set_queue (set_is_playing (take_current s) true) rest)
                      (Some next))
                   (emit (Sleep (Py.PInt 2))
                      (emit (Send (LoadFailed (title cur))) w2))
                 = Some r
             end
          /\ extends (driver_event (queue (take_current s))) w2 r.2
          /\ (forall c, current r.1 = Some c ->
                exists x, x ∈ queue (take_current s) /\ same_track c x)
          /\ (current r.1 = None -> queue r.1 = [] /\ is_playing r.1 = false)
          /\ queue r.1 `suffix_of` queue (take_current s)).
Proof.
  split.
  { intros E x Hx. apply session_inv_songs. by apply (reachable_inv E). }
  intros E m s w cur e cfg w2 fuel Hcur Hcap Hfail Hfuel.
  destruct (play_next_song_enough (S fuel) E m s w Hfuel) as [r Hr].
  exists r. split; [exact Hr|].
  rewrite (play_next_song_cap E fuel m s w cur e cfg w2 Hcur Hcap Hfail)
    in Hr.
  destruct (queue (take_current s)) as [|next rest] eqn:Eq.
  - injection Hr as <-. split; [done|]. cbn [fst snd].
    split; [by apply extends_emit|].
    split; [intros c Hc; simpl in Hc; discriminate|].
    split; [|simpl; by rewrite Eq]. intros _. simpl. by rewrite Eq.
  - split; [exact Hr|].
    set (s1 := set_current _ (Some next)) in Hr.
    assert (pending s1 = next :: rest) as Hpend by reflexivity.
    split; [|split; [|split]].
    + eapply extends_trans;
        [by apply (extends_emit _ (Send (LoadFailed (title cur))))|].
      eapply extends_trans;
        [by apply (extends_emit _ (Sleep (Py.PInt 2)))|].
      rewrite <- Hpend. by eapply play_next_song_extends.
    + intros c Hc. rewrite <- Hpend. by eapply play_next_song_current.
    + by eapply play_next_song_no_stall.
    + apply play_next_song_no_stall in Hr as [_ Hs].
      etrans; [exact Hs|]. by apply suffix_cons_r.
Qed.

(** Witness of [retry_cap]: with yt-dlp down, the current song at its cap
    is dropped, the queued one is tried with its own three loads, and the
    run ends idle with an empty queue. *)
Lemma retry_cap_witness :
  exists r,
    play_next_song 10 Sample.env_down false Sample5.capped Sample.w0 = Some r
    /\ current r.1 = None /\ queue r.1 = [] /\ is_playing r.1 = false
    /\ extends
         (driver_event (queue (take_current Sample5.capped)))
         (from_url Sample.env_down (Some "https://youtu.be/a")
            play_retry_config Sample.w0).2
         r.2.
Proof.
  destruct retry_cap as [_ Hcap].
  destruct (Hcap Sample.env_down false Sample5.capped Sample.w0
              (set_retry_count (Sample.song "a") 2) Exception
              play_retry_config
              (from_url Sample.env_down (Some "https://youtu.be/a")
                 play_retry_config Sample.w0).2 9%nat)
    as (r & Hr & _ & Hext & _ & Hstall & _).
  - reflexivity.
  - simpl. lia.
  - reflexivity.
  - vm_compute. lia.
  - exists r. split; [exact Hr|].
    assert (current r.1 = None) as Hnone
      by (vm_compute in Hr; by injection Hr as <-).
    split; [exact Hnone|]. destruct (Hstall Hnone) as [H1 H2].
    by repeat split.
Defined.

(** ** What refreshes [last_activity] *)

Lemma get_next_song_frame s :
  (get_next_song s).2 = set_queue s (tail (queue s)).
Proof.
  unfold get_next_song. destruct (queue s) eqn:Eq; [|done].
  destruct s. simpl in *. by subst.
Qed.

Lemma reach_play E fuel t x y :
  reachable E x ->
  Commands.play fuel E (Some (Sample.song t)) x.1 x.2 = Some y ->
  reachable E y.
Proof.
  destruct x as [s w]. intros Hx Hplay.
  eapply reach_step; [exact Hx|]. eapply step_play; [|exact Hplay].
  intros song [= <-]. unfold Sample.song. by repeat eexists.
Qed.

Lemma reach_track_end E fuel x y :
  reachable E x ->
  play_next_in_queue fuel E (after_playing x.1) x.2 = Some y ->
  reachable E y.
Proof.
  destruct x as [s w]. intros Hx Hnext.
  eapply reach_step; [|eapply step_play_next_in_queue, Hnext].
  eapply reach_step; [exact Hx|apply step_after_playing].
Qed.

Lemma reachable_busy : reachable Sample.env_up Sample6.busy.
Proof.
  assert (reachable Sample.env_up Sample.connected) as H0.
  { eapply reach_step; [apply (reach_init Sample.env_up 0)|].
    eapply (step_connect _ _ _ 7 true). reflexivity. }
  apply (reach_track_end Sample.env_up 10 Sample6.queued);
    [|vm_compute; reflexivity].
  apply (reach_play Sample.env_up 10 "b" Sample2.playing);
    [|vm_compute; reflexivity].
  apply (reach_play Sample.env_up 10 "a" Sample.connected);
    [exact H0|vm_compute; reflexivity].
Qed.

(** C10: [get_next_song] changes the queue and nothing else, so
    [last_activity] and the answer of [is_inactive] are the same after it
    as before; [add_song] and [clear_queue] set [last_activity] to the
    clock reading; the completion callback and [play_next_song] leave it
    alone.  So a session can be inactive for the sweeper while it plays
    what it dequeues: in the reachable state [Sample6.busy] song "b" has
    just been dequeued and is playing over a live link, [is_inactive]
    with 15 minutes is true at the next clock reading, and the sweep
    disconnects and clears the session. *)
Theorem last_activity_refresh :
  (forall s, (get_next_song s).2 = set_queue s (tail (queue s)))
  /\ (forall s, last_activity (get_next_song s).2 = last_activity s)
  /\ (forall now t s,
        is_inactive now t (get_next_song s).2 = is_inactive now t s)
  /\ (forall now x s, last_activity (add_song now x s) = now)
  /\ (forall now s, last_activity (clear_queue now s) = now)
  /\ (forall s, last_activity (after_playing s) = last_activity s)
  /\ (forall fuel E m s w r,
        play_next_song fuel E m s w = Some r ->
        last_activity r.1 = last_activity s)
  /\ (reachable Sample.env_up Sample6.busy
      /\ is_playing Sample6.busy.1 = true
      /\ title <$> current Sample6.busy.1 = Some "b"
      /\ voice_client Sample6.busy.1 = Some (mkVoiceClient true 7)
      /\ (exists x, Play x ∈ log Sample6.busy.2 /\ title x = "b")
      /\ is_inactive (time_time Sample.env_up (tick Sample6.busy.2)) 15
           Sample6.busy.1 = true
      /\ voice_client
           (cleanup_session Sample.env_up Sample6.busy.1 Sample6.busy.2).1
         = None
      /\ current
           (cleanup_session Sample.env_up Sample6.busy.1 Sample6.busy.2).1
         = None
      /\ is_playing
           (cleanup_session Sample.env_up Sample6.busy.1 Sample6.busy.2).1
         = false
      /\ Disconnect
         ∈ log (cleanup_session Sample.env_up Sample6.busy.1
                  Sample6.busy.2).2).
Proof.
  split; [apply get_next_song_frame|].
  split; [intros s; by rewrite get_next_song_frame|].
  split; [intros now t s; by rewrite get_next_song_frame|].
  split; [done|]. split; [done|].
  split.
  { intros s. unfold after_playing. by destruct (current s). }
  split.
  { intros fuel E m s w r H. by apply play_next_song_settings in H as [-> _]. }
  split; [exact reachable_busy|].
  split; [vm_compute; reflexivity|].
  split; [vm_compute; reflexivity|].
  split; [vm_compute; reflexivity|].
  split.
  { eexists. split.
    - vm_compute. do 6 apply list_elem_of_further. apply list_elem_of_here.
    - reflexivity. }
  split; [vm_compute; reflexivity|].
  split; [vm_compute; reflexivity|].
  split; [vm_compute; reflexivity|].
  split; [vm_compute; reflexivity|].
  vm_compute. do 8 apply list_elem_of_further. apply list_elem_of_here.
Qed.

(** * Further properties of the program *)

(** ** Attempts and pauses of [from_url] *)

Lemma _extract_info_shape E url w :
  if ytdl E
  then exists res,
         _extract_info E url w
         = (res, emit (Extract (ReqUrl url)) (ask w).2)
         /\ (forall e, res = Raise e -> e = Exception)
  else _extract_info E url w = (Raise Exception, w).
Proof.
  unfold _extract_info. destruct (ytdl E); [|done]. cbn [negb ask fst snd].
  destruct (ytdl_extract_info E (tick w) (ReqUrl url))
    as [[|e1|[|e1 es]]|x];
    eexists; (split; [reflexivity|]); try (by intros ? [= <-]);
    unfold source_of_entry; destruct (e_url e1); try discriminate;
    by intros ? [= <-].
Qed.

Lemma load_skeleton_app a b :
  load_skeleton (a ++ b) = load_skeleton a ++ load_skeleton b.
Proof.
  induction a as [|[| [u|] | | | | | | |] a IH]; simpl; rewrite ?IH;
    reflexivity.
Qed.

(** One load through [from_url] with the driver's configuration tries
    the extraction at most three times, pausing 2.0 seconds after the
    first failure and 4.0 after the second and not at all after the
    third; it raises only after three failed extractions.  When yt-dlp
    was never initialised it still pauses 2.0 and 4.0 seconds before
    raising, without any extraction. *)
Theorem from_url_attempts (E : Env) (url : option string) (w : World) :
  exists evs,
    log (from_url E url play_retry_config w).2 = log w ++ evs
    /\ (ytdl E = true ->
        load_skeleton evs `prefix_of` three_extractions
        /\ load_skeleton evs <> []
        /\ (forall n, last (load_skeleton evs) <> Some (Pause n))
        /\ (forall e, (from_url E url play_retry_config w).1.1 = Raise e ->
              e = Exception /\ load_skeleton evs = three_extractions))
    /\ (ytdl E = false ->
        (from_url E url play_retry_config w).1.1 = Raise Exception
        /\ evs = [Sleep (Py.PFloat 2%float); Sleep (Py.PFloat 4%float)]).
Proof.
  unfold from_url, retry_async, play_retry_config, three_extractions.
  cbn [max_attempts delay backoff]. change (Py.range 3) with [0; 1; 2].
  cbn [retry_loop max_attempts backoff].
  change (0 <? 3 - 1) with true. change (1 <? 3 - 1) with true.
  change (2 <? 3 - 1) with false. cbn iota.
  change (PrimFloat.mul 2 2) with 4%float.
  pose proof (_extract_info_shape E url) as Hshape.
  destruct (ytdl E) eqn:Ey.
  - destruct (Hshape w) as (r0 & -> & Hx0).
    destruct r0 as [src0|x0].
    { eexists [_]. split; [reflexivity|].
      split; [|discriminate]. intros _. cbn.
      repeat split; try done. by eexists. }
    set (w1 := emit (Sleep (Py.PFloat 2)) _).
    destruct (Hshape w1) as (r1 & -> & Hx1).
    destruct r1 as [src1|x1].
    { eexists [_; _; _]. split.
      { subst w1. cbn. rewrite <- !app_assoc. reflexivity. }
      split; [|discriminate]. intros _. cbn.
      repeat split; try done. by eexists. }
    set (w2 := emit (Sleep (Py.PFloat 4)) _).
    destruct (Hshape w2) as (r2 & -> & Hx2).
    eexists [_; _; _; _; _]. split.
    { subst w2 w1. destruct r2; cbn; rewrite <- !app_assoc; reflexivity. }
    split; [|discriminate]. intros _.
    destruct r2 as [src2|x2]; cbn;
      (split; [done|]); (split; [done|]); (split; [done|]).
    + intros e' He. discriminate.
    + intros e' [= <-]. split; [by apply Hx2|reflexivity].
  - rewrite !Hshape. eexists. split.
    { cbn. rewrite <- !app_assoc. reflexivity. }
    split; [discriminate|]. intros _. by split.
Qed.

(** ** Look-ups wrapped in a retry that never retries *)

Lemma range_pos n : 0 < n -> exists rest, Py.range n = 0 :: rest.
Proof.
  intros H. unfold Py.range. destruct (Z.to_nat n) as [|k] eqn:E; [lia|].
  simpl. by eexists.
Qed.

Lemma retry_async_first_ok {A} (func : World -> result A * World) config w r
    w1 :
  func w = (Ok r, w1) -> 0 < max_attempts config ->
  retry_async func config w = (Ok r, config, w1).
Proof.
  intros Hf Hn. unfold retry_async.
  destruct (range_pos _ Hn) as [rest ->]. simpl. by rewrite Hf.
Qed.

Lemma search_spotify_track_spec R q w :
  (exists o, (search_spotify_track R q w).1 = Ok o)
  /\ log (search_spotify_track R q w).2 = log w
  /\ (tick w <= tick (search_spotify_track R q w).2 <= S (tick w))%nat
  /\ ((exists x, spotify_search R (tick w) q = Raise x) ->
      (search_spotify_track R q w).1 = Ok None).
Proof.
  unfold search_spotify_track.
  destruct (spotify (base R)) eqn:Es; cbn [negb].
  2:{ repeat split; eauto. }
  assert (exists o w1, _spotify_search R q w = (Ok o, w1)
                       /\ log w1 = log w /\ tick w1 = S (tick w)
                       /\ ((exists x, spotify_search R (tick w) q = Raise x)
                           -> o = None))
    as (o & w1 & Hf & Hl & Ht & Herr).
  { unfold _spotify_search. rewrite Es. cbn [negb ask fst snd].
    destruct (spotify_search R (tick w) q) as [[| |[|t ts]]|x];
      eexists _, _; repeat split; try done; by intros [? [=]]. }
  rewrite (retry_async_first_ok _ _ _ _ _ Hf) by (simpl; lia).
  cbn [fst snd]. rewrite Hl, Ht. repeat split; eauto.
  intros Hx. by rewrite (Herr Hx).
Qed.

Lemma get_spotify_track_info_spec R url w :
  (exists o, (get_spotify_track_info R url w).1 = Ok o)
  /\ log (get_spotify_track_info R url w).2 = log w
  /\ (tick w <= tick (get_spotify_track_info R url w).2 <= S (tick w))%nat
  /\ ((exists x,
         spotify_track R (tick w)
           (Py.split_first "?" (Py.split_last "/" url)) = Raise x) ->
      (get_spotify_track_info R url w).1 = Ok None)
  /\ (forall info, (get_spotify_track_info R url w).1 = Ok (Some info) ->
        spotify (base R) = true
        /\ exists track,
             spotify_track R (tick w)
               (Py.split_first "?" (Py.split_last "/" url)) = Ok track
             /\ info = spotify_info_of_track track).
Proof.
  unfold get_spotify_track_info.
  destruct (spotify (base R)) eqn:Es; cbn [negb].
  2:{ repeat split; eauto; discriminate. }
  set (id := Py.split_first "?" (Py.split_last "/" url)).
  assert (exists o w1, _get_track_info R url w = (Ok o, w1)
                       /\ log w1 = log w /\ tick w1 = S (tick w)
                       /\ ((exists x, spotify_track R (tick w) id = Raise x)
                           -> o = None)
                       /\ (forall info, o = Some info ->
                             exists track,
                               spotify_track R (tick w) id = Ok track
                               /\ info = spotify_info_of_track track))
    as (o & w1 & Hf & Hl & Ht & Herr & Hok).
  { unfold _get_track_info. fold id. rewrite Es. cbn [negb ask fst snd].
    destruct (spotify_track R (tick w) id) as [t|x];
      eexists _, _; (split; [reflexivity|]); (split; [reflexivity|]);
      (split; [reflexivity|]); split.
    - by intros [? [=]].
    - intros info' [= <-]. by eexists.
    - done.
    - intros info' [=]. }
  rewrite (retry_async_first_ok _ _ _ _ _ Hf) by (simpl; lia).
  cbn [fst snd]. rewrite Hl, Ht.
  split; [by eexists|]. split; [done|]. split; [lia|]. split.
  - intros Hx. by rewrite (Herr Hx).
  - intros info' [= ->]. split; [done|by apply Hok].
Qed.

Lemma get_youtube_info_spec E url w :
  (exists o, (get_youtube_info E url w).1 = Ok o)
  /\ (log (get_youtube_info E url w).2 = log w
      \/ log (get_youtube_info E url w).2
         = log w ++ [Extract (ReqUrl (Some url))])
  /\ (tick w <= tick (get_youtube_info E url w).2 <= S (tick w))%nat
  /\ ((exists x, ytdl_extract_info E (tick w) (ReqUrl (Some url)) = Raise x)
      -> (get_youtube_info E url w).1 = Ok None).
Proof.
  unfold get_youtube_info.
  destruct (ytdl E) eqn:Ey; cbn [negb].
  2:{ repeat split; eauto. }
  assert (exists o w1, _get_info E url w = (Ok o, w1)
                       /\ log w1 = log w ++ [Extract (ReqUrl (Some url))]
                       /\ tick w1 = S (tick w)
                       /\ ((exists x,
                              ytdl_extract_info E (tick w)
                                (ReqUrl (Some url)) = Raise x)
                           -> o = None))
    as (o & w1 & Hf & Hl & Ht & Herr).
  { unfold _get_info. rewrite Ey. cbn [negb ask fst snd].
    destruct (ytdl_extract_info E (tick w) (ReqUrl (Some url)))
      as [[|e1|[|e1 es]]|x];
      eexists _, _; repeat split; try done; by intros [? [=]]. }
  rewrite (retry_async_first_ok _ _ _ _ _ Hf) by (simpl; lia).
  cbn [fst snd]. rewrite Hl, Ht. repeat split; eauto.
  intros Hx. by rewrite (Herr Hx).
Qed.

(** The three look-ups that go through [retry_async] with two attempts
    ([search_spotify_track], [get_spotify_track_info],
    [get_youtube_info]) never raise, never pause, and contact their
    provider at most once: a provider error is turned into "not found"
    inside the retried function, so the wrapper never sees a failure to
    retry. *)
Theorem lookups_never_retry (R : Resolvers) (q : string) (w : World) :
  ((exists o, (search_spotify_track R q w).1 = Ok o)
   /\ log (search_spotify_track R q w).2 = log w
   /\ (tick (search_spotify_track R q w).2 <= S (tick w))%nat
   /\ ((exists x, spotify_search R (tick w) q = Raise x) ->
       (search_spotify_track R q w).1 = Ok None))
  /\ ((exists o, (get_spotify_track_info R q w).1 = Ok o)
      /\ log (get_spotify_track_info R q w).2 = log w
      /\ (tick (get_spotify_track_info R q w).2 <= S (tick w))%nat
      /\ ((exists x,
             spotify_track R (tick w)
               (Py.split_first "?" (Py.split_last "/" q)) = Raise x) ->
          (get_spotify_track_info R q w).1 = Ok None))
  /\ ((exists o, (get_youtube_info (base R) q w).1 = Ok o)
      /\ (forall n, Sleep n ∉ log w ->
            Sleep n ∉ log (get_youtube_info (base R) q w).2)
      /\ (tick (get_youtube_info (base R) q w).2 <= S (tick w))%nat
      /\ ((exists x,
             ytdl_extract_info (base R) (tick w) (ReqUrl (Some q))
             = Raise x) ->
          (get_youtube_info (base R) q w).1 = Ok None)).
Proof.
  split; [|split].
  - destruct (search_spotify_track_spec R q w) as (H1 & H2 & H3 & H4).
    repeat split; try done. lia.
  - destruct (get_spotify_track_info_spec R q w) as (H1 & H2 & H3 & H4 & _).
    repeat split; try done. lia.
  - destruct (get_youtube_info_spec (base R) q w) as (H1 & H2 & H3 & H4).
    repeat split; try done; [|lia].
    intros n Hn. destruct H2 as [-> | ->]; [done|].
    rewrite elem_of_app, list_elem_of_singleton. intros [?|?]; [done|].
    discriminate.
Qed.

(** ** [search_youtube_for_song] *)

Lemma search_queries_loop_spec E queries : forall w,
  (tick w <= tick (search_queries_loop E queries w).2
   <= tick w + length queries)%nat
  /\ extends is_search w (search_queries_loop E queries w).2
  /\ (forall u, (search_queries_loop E queries w).1 = Some u ->
        exists n q e es,
          (tick w <= n < tick (search_queries_loop E queries w).2)%nat
          /\ ytdl_extract_info E n (ReqSearch 1 q) = Ok (InfoEntries (e :: es))
          /\ e_webpage_url e = Val u)
  /\ ((forall n q, exists x, ytdl_extract_info E n q = Raise x) ->
      (search_queries_loop E queries w).1 = None).
Proof.
  induction queries as [|query rest IH]; intros w; cbn [search_queries_loop].
  { simpl. repeat split; try lia; [apply extends_refl|discriminate]. }
  destruct (negb (Py.truthy _)).
  { destruct (IH w) as (H1 & H2 & H3 & H4). simpl length.
    split; [lia|]. split; [done|]. split; [|done].
    intros u Hu. destruct (H3 u Hu) as (n & q & e & es & Hn & Hq & He).
    exists n, q, e, es. split; [exact Hn|by split]. }
  cbn [ask fst snd]. set (cq := Py.strip (Py.clean query)).
  set (w2 := emit (Extract (ReqSearch 1 cq)) (mkWorld (S (tick w)) (log w))).
  assert (extends is_search w w2) as Hw2
    by (exists [Extract (ReqSearch 1 cq)]; split; [done|];
        constructor; [by exists cq|constructor]).
  assert (let r := search_queries_loop E rest w2 in
          (tick w <= tick r.2 <= tick w + length (query :: rest))%nat
          /\ extends is_search w r.2
          /\ (forall u, r.1 = Some u ->
                exists n q e es,
                  (tick w <= n < tick r.2)%nat
                  /\ ytdl_extract_info E n (ReqSearch 1 q)
                     = Ok (InfoEntries (e :: es))
                  /\ e_webpage_url e = Val u)
          /\ ((forall n q, exists x, ytdl_extract_info E n q = Raise x) ->
              r.1 = None)) as Hnext.
  { destruct (IH w2) as (H1 & H2 & H3 & H4). cbn zeta. simpl length.
    simpl tick in H1. split; [lia|]. split; [by eapply extends_trans|].
    split; [|done]. intros u Hu.
    destruct (H3 u Hu) as (n & q & e & es & Hn & Hq & He).
    exists n, q, e, es. simpl tick in Hn. repeat split; try done; lia. }
  destruct (ytdl_extract_info E (tick w) (ReqSearch 1 cq))
    as [[|e1|[|e1 es]]|x] eqn:Ecall; try exact Hnext.
  destruct (e_webpage_url e1) as [| |u] eqn:Eurl; try exact Hnext.
  - simpl. split; [lia|]. split; [done|]. split; [discriminate|].
    intros Hall. done.
  - simpl. split; [lia|]. split; [done|]. split.
    + intros u' [= <-]. exists (tick w), cq, e1, es. repeat split; try done; lia.
    + intros Hall. destruct (Hall (tick w) (ReqSearch 1 cq)) as [x Hx].
      congruence.
Qed.

(** [search_youtube_for_song] asks yt-dlp at most four times, with
    one-result searches only; a URL it returns is the ['webpage_url'] of
    the first entry of one of those answers; when every request raises it
    returns [None], after all its queries were tried; and without yt-dlp
    it returns [None] without asking. *)
Theorem search_youtube_for_song_spec (E : Env) (title' artist' : string)
    (w : World) :
  let r := search_youtube_for_song E title' artist' w in
  (tick w <= tick r.2 <= tick w + 4)%nat
  /\ extends is_search w r.2
  /\ (forall u, r.1 = Some u ->
        ytdl E = true
        /\ exists n q e es,
             (tick w <= n < tick r.2)%nat
             /\ ytdl_extract_info E n (ReqSearch 1 q)
                = Ok (InfoEntries (e :: es))
             /\ e_webpage_url e = Val u)
  /\ ((forall n q, exists x, ytdl_extract_info E n q = Raise x) ->
      r.1 = None)
  /\ (ytdl E = false -> r = (None, w)).
Proof.
  unfold search_youtube_for_song. destruct (ytdl E); cbn [negb].
  - destruct (search_queries_loop_spec E (song_search_queries title' artist')
                w) as (H1 & H2 & H3 & H4).
    cbv zeta. split; [exact H1|]. split; [done|]. split; [|by split].
    intros u Hu. split; [done|]. by apply H3.
  - cbv zeta. simpl. split; [lia|]. split; [apply extends_refl|].
    split; [discriminate|]. by split.
Qed.

(** Witness of [search_youtube_for_song_spec]: with yt-dlp failing twice
    and then answering, the third query finds the URL. *)
Lemma search_youtube_for_song_witness :
  (search_youtube_for_song Sample7.flaky "Song (Live)" "Artist" Sample.w0).1
  = Some "https://youtu.be/found"
  /\ ytdl Sample7.flaky = true.
Proof.
  split; [reflexivity|].
  by eapply (search_youtube_for_song_spec Sample7.flaky "Song (Live)"
               "Artist" Sample.w0).
Defined.

(** ** The search of [play] *)

Lemma song_of_spotify_built E info w song :
  (song_of_spotify E info w).1 = Some song ->
  exists u, truthy_opt u = true
            /\ song = Song_init (si_title info) (si_artist info)
                        (Some (si_duration info)) (si_thumbnail info) u
                        (Some (mkSpotifyData (si_spotify_url info))).
Proof.
  unfold song_of_spotify.
  destruct (search_youtube_for_song E _ _ w) as [u w1].
  destruct (truthy_opt u) eqn:Eu; [|discriminate].
  intros [= <-]. by exists u.
Qed.

(** The search of [play] never raises: whatever the Spotify client and
    yt-dlp do, it ends with a song or with "not found", so the generic
    error handler of [play] is never reached through it; and every song
    it finds starts with [retry_count = 0] and [max_retries = 2]. *)
Theorem resolve_song_never_raises (R : Resolvers) (query : string)
    (w : World) :
  exists found,
    (resolve_song R query w).1 = Ok found
    /\ forall song, found = Some song ->
         exists t a d th u sd, song = Song_init t a d th u sd.
Proof.
  unfold resolve_song.
  destruct (is_spotify_url query).
  { destruct (get_spotify_track_info_spec R query w) as ([o Ho] & _).
    destruct (get_spotify_track_info R query w) as [r w1].
    simpl in Ho. subst r. destruct o as [info|]; [|by eexists].
    pose proof (song_of_spotify_built (base R) info w1) as Hb.
    destruct (song_of_spotify (base R) info w1) as [song w2].
    eexists. split; [reflexivity|]. intros s' ->.
    destruct (Hb s' eq_refl) as (u & _ & ->). by repeat eexists. }
  destruct (is_youtube_url query).
  { destruct (get_youtube_info_spec (base R) query w) as ([o Ho] & _).
    destruct (get_youtube_info (base R) query w) as [r w1].
    simpl in Ho. subst r. destruct o as [info|]; [|by eexists].
    eexists. split; [reflexivity|]. intros s' [= <-]. by repeat eexists. }
  assert (exists o w1,
            (if spotify (base R)
             then match search_spotify_track R query w with
                  | (Raise e, w1) => (Raise e, w1)
                  | (Ok None, w1) => (Ok None, w1)
                  | (Ok (Some info), w1) =>
                      let '(song, w2) := song_of_spotify (base R) info w1 in
                      (Ok song, w2)
                  end
             else (Ok None, w)) = (Ok o, w1)
            /\ forall song, o = Some song ->
                 exists t a d th u sd, song = Song_init t a d th u sd)
    as (o & w1 & -> & Ho).
  { destruct (spotify (base R)); [|by eexists _, _].
    destruct (search_spotify_track_spec R query w) as ([o Ho] & _).
    destruct (search_spotify_track R query w) as [r w1].
    simpl in Ho. subst r. destruct o as [info|]; [|by eexists _, _].
    pose proof (song_of_spotify_built (base R) info w1) as Hb.
    destruct (song_of_spotify (base R) info w1) as [song w2].
    eexists _, _. split; [reflexivity|]. intros s' ->.
    destruct (Hb s' eq_refl) as (u & _ & ->). by repeat eexists. }
  destruct o as [song|]; [by eexists|].
  destruct (ytdl (base R)); [|by eexists].
  unfold youtube_direct. cbn [ask fst snd].
  destruct (ytdl_extract_info (base R) (tick w1) (ReqSearch 1 query))
    as [[|e1|[|e1 es]]|x]; eexists; (split; [reflexivity|]); try done.
  intros s' [= <-]. by repeat eexists.
Qed.

(** A Spotify link is only ever resolved through the Spotify client: the
    song found for it carries the title, artists and link of the track
    the client returned for the id in the URL, and a non-empty YouTube
    URL; without a Spotify client, or when the client raises, nothing is
    found and yt-dlp is not asked. *)
Theorem spotify_link_needs_spotify (R : Resolvers) (query : string)
    (w : World) :
  is_spotify_url query = true ->
  let id := Py.split_first "?" (Py.split_last "/" query) in
  (forall song, (resolve_song R query w).1 = Ok (Some song) ->
     spotify (base R) = true
     /\ exists track u,
          spotify_track R (tick w) id = Ok track
          /\ truthy_opt u = true
          /\ song = Song_init (name track) (Py.join ", " (artists track))
                      (Some (duration_ms track / 1000))
                      (head (album_images track)) u
                      (Some (mkSpotifyData (external_url track))))
  /\ (spotify (base R) = false -> resolve_song R query w = (Ok None, w))
  /\ ((exists x, spotify_track R (tick w) id = Raise x) ->
      (resolve_song R query w).1 = Ok None
      /\ log (resolve_song R query w).2 = log w).
Proof.
  intros Hurl id. unfold resolve_song. rewrite Hurl.
  destruct (get_spotify_track_info_spec R query w)
    as ([o Ho] & Hlog & _ & Herr & Hok).
  split; [|split].
  - intros song Hsong.
    destruct (get_spotify_track_info R query w) as [r w1].
    simpl in Ho, Hok. subst r. destruct o as [info|]; [|discriminate].
    destruct (Hok info eq_refl) as (Hs & track & Htrack & ->).
    split; [done|].
    pose proof (song_of_spotify_built (base R) (spotify_info_of_track track)
                  w1) as Hb.
    destruct (song_of_spotify (base R) _ w1) as [found w2].
    simpl in Hsong. injection Hsong as ->.
    destruct (Hb song eq_refl) as (u & Hu & ->).
    exists track, u. by repeat split.
  - intros Hs. unfold get_spotify_track_info. by rewrite Hs.
  - intros Hx. specialize (Herr Hx).
    destruct (get_spotify_track_info R query w) as [r w1].
    simpl in Herr, Hlog. subst r. by split.
Qed.

(** Witness of [spotify_link_needs_spotify]: a well-formed track link
    with a raising Spotify client finds nothing. *)
Lemma spotify_link_needs_spotify_witness :
  (resolve_song Sample7.resolvers
     "https://open.spotify.com/track/0123456789abcdefghijkl?si=x"
     Sample.w0).1 = Ok None.
Proof.
  apply (spotify_link_needs_spotify Sample7.resolvers
           "https://open.spotify.com/track/0123456789abcdefghijkl?si=x"
           Sample.w0 eq_refl).
  by exists Exception.
Defined.

(** ** More on [connect_to_voice_channel] *)

Lemma reset_when_zero s :
  connection_failures s = 0 -> reset_connection_failures s = s.
Proof. destruct s. simpl. by intros ->. Qed.

Lemma connect_try_ok E ch s w b s1 w1 :
  connect_try E ch s w = (Ok b, s1, w1) ->
  b = true /\ connection_failures s1 = 0
  /\ voice_client s1 = Some (mkVoiceClient true ch).
Proof.
  unfold connect_try, gateway_call. cbn [ask fst snd].
  destruct (voice_client s) as [[conn chan]|] eqn:Evc; cbn [vc_connected
    vc_channel].
  - destruct conn.
    + destruct (Z.eqb_spec chan ch) as [->|Hne].
      * intros [= <- <- <-]. repeat split. exact Evc.
      * destruct (voice_gateway E _ ch); intros H;
          try discriminate H. injection H as <- <- <-. by repeat split.
    + destruct (voice_gateway E _ ch); intros H;
        try discriminate H. injection H as <- <- <-. by repeat split.
  - destruct (voice_gateway E _ ch); intros H;
      try discriminate H. injection H as <- <- <-. by repeat split.
Qed.

Lemma connect_loop_ok E ch m attempts : forall s w s1 w1,
  connect_loop E ch m attempts s w = (true, s1, w1) ->
  connection_failures s1 = 0
  /\ voice_client s1 = Some (mkVoiceClient true ch).
Proof.
  induction attempts as [|a rest IH]; intros s w s1 w1 H; simpl in H;
    [discriminate|].
  destruct (connect_try E ch s w) as [[[b|e] s2] w2] eqn:Etry.
  - injection H as -> -> ->. by apply connect_try_ok in Etry as (_ & ? & ?).
  - destruct (connect_except m a s2 w2) as [s3 w3]. by eapply IH.
Qed.

(** [connect_to_voice_channel] is idempotent: on a session already linked
    to the target channel it returns [True] without any gateway attempt,
    event or clock reading, changing nothing but the failure counter,
    which it resets; so a second call right after a successful one is a
    no-op. *)
Theorem connect_idempotent (E : Env) (ch : Z) :
  (forall s w vc,
     voice_client s = Some vc -> vc_connected vc = true ->
     vc_channel vc = ch ->
     connect_to_voice_channel E s ch w
     = (true, reset_connection_failures s, w))
  /\ (forall s w s1 w1,
        connect_to_voice_channel E s ch w = (true, s1, w1) ->
        connect_to_voice_channel E s1 ch w1 = (true, s1, w1)).
Proof.
  assert (forall s w vc,
            voice_client s = Some vc -> vc_connected vc = true ->
            vc_channel vc = ch ->
            connect_to_voice_channel E s ch w
            = (true, reset_connection_failures s, w)) as Hnoop.
  { intros s w vc Hvc Hc Hch. unfold connect_to_voice_channel.
    change (Py.range 3) with [0; 1; 2]. cbn [connect_loop].
    unfold connect_try. by rewrite Hvc, Hc, Hch, Z.eqb_refl. }
  split; [exact Hnoop|].
  intros s w s1 w1 H. apply connect_loop_ok in H as [Hf Hvc].
  rewrite (Hnoop s1 w1 _ Hvc eq_refl eq_refl). by rewrite reset_when_zero.
Qed.

(** Witness of [connect_idempotent]: linking a fresh session, then
    calling again. *)
Lemma connect_idempotent_witness :
  connect_to_voice_channel Sample.env_up Sample.connected.1 7
    Sample.connected.2
  = (true, Sample.connected.1, Sample.connected.2).
Proof.
  apply (proj2 (connect_idempotent Sample.env_up 7) Sample.fresh Sample.w0).
  vm_compute. reflexivity.
Defined.

(** Two sessions that differ at most in [connection_failures]. *)
Lemma connect_try_counter E ch s s' w :
  set_connection_failures s' 0 = set_connection_failures s 0 ->
  (connect_try E ch s' w).1.1 = (connect_try E ch s w).1.1
  /\ (connect_try E ch s' w).2 = (connect_try E ch s w).2
  /\ set_connection_failures (connect_try E ch s' w).1.2 0
     = set_connection_failures (connect_try E ch s w).1.2 0.
Proof.
  intros Heq.
  assert (voice_client s' = voice_client s) as Hvc
    by (apply (f_equal voice_client) in Heq; exact Heq).
  assert (forall v, set_connection_failures (set_voice_client s' v) 0
                    = set_connection_failures (set_voice_client s v) 0)
    as Hset.
  { intros v. apply (f_equal (fun x => set_voice_client x v)) in Heq.
    exact Heq. }
  unfold connect_try, gateway_call. rewrite Hvc. cbn [ask fst snd].
  destruct (voice_client s) as [[conn chan]|]; cbn [vc_connected vc_channel].
  - destruct conn.
    + destruct (chan =? ch); [by repeat split|].
      destruct (voice_gateway E _ ch); cbn [fst snd];
        repeat split; try done. apply Hset.
    + destruct (voice_gateway E _ ch); cbn [fst snd];
        repeat split; try done; apply Hset.
  - destruct (voice_gateway E _ ch); cbn [fst snd];
      repeat split; try done. apply Hset.
Qed.

Lemma connect_except_counter m a s s' w :
  set_connection_failures s' 0 = set_connection_failures s 0 ->
  (connect_except m a s' w).2 = (connect_except m a s w).2
  /\ set_connection_failures (connect_except m a s' w).1 0
     = set_connection_failures (connect_except m a s w).1 0.
Proof.
  intros Heq.
  assert (voice_client s' = voice_client s) as Hvc
    by (apply (f_equal voice_client) in Heq; exact Heq).
  unfold connect_except, increment_connection_failures.
  cbn [voice_client set_connection_failures]. rewrite Hvc.
  destruct (voice_client s); destruct (a <? m - 1); cbn [fst snd];
    split; try done;
    try (apply (f_equal (fun x => set_voice_client x None)) in Heq;
         exact Heq).
Qed.

Lemma connect_loop_counter E ch m attempts : forall s s' w,
  set_connection_failures s' 0 = set_connection_failures s 0 ->
  (connect_loop E ch m attempts s' w).1.1
  = (connect_loop E ch m attempts s w).1.1
  /\ (connect_loop E ch m attempts s' w).2
     = (connect_loop E ch m attempts s w).2
  /\ set_connection_failures (connect_loop E ch m attempts s' w).1.2 0
     = set_connection_failures (connect_loop E ch m attempts s w).1.2 0.
Proof.
  induction attempts as [|a rest IH]; intros s s' w Heq; simpl; [done|].
  destruct (connect_try_counter E ch s s' w Heq) as (Hr & Hw & Hs).
  destruct (connect_try E ch s w) as [[r s1] w1].
  destruct (connect_try E ch s' w) as [[r' s1'] w1'].
  simpl in Hr, Hw, Hs. subst r' w1'.
  destruct r as [b|e]; [done|].
  destruct (connect_except_counter m a s1 s1' w1 Hs) as (Hw2 & Hs2).
  destruct (connect_except m a s1 w1) as [s2 w2].
  destruct (connect_except m a s1' w1) as [s2' w2'].
  simpl in Hw2, Hs2. subst w2'. by apply IH.
Qed.

(** The failure counter never gates a connection attempt: for any value
    [n] of [connection_failures], [connect_to_voice_channel] makes the
    same gateway attempts and pauses, returns the same answer and leaves
    the same session up to the counter; in particular it still tries the
    gateway when [should_give_up_connection] is already true. *)
Theorem connect_ignores_counter (E : Env) (s : EnhancedMusicQueue) (ch n : Z)
    (w : World) :
  let r := connect_to_voice_channel E s ch w in
  let r' := connect_to_voice_channel E (set_connection_failures s n) ch w in
  r'.1.1 = r.1.1
  /\ r'.2 = r.2
  /\ set_connection_failures r'.1.2 0 = set_connection_failures r.1.2 0.
Proof. by apply connect_loop_counter. Qed.





(** *** The counters along a run *)










(** *** [retry_async] in general *)

Lemma sleeps_app evs1 evs2 : sleeps (evs1 ++ evs2) = sleeps evs1 ++ sleeps evs2.
Proof.
  induction evs1 as [|e evs1 IH]; [done|].
  destruct e; simpl; by rewrite ?IH.
Qed.

Lemma range_nonpos n : n <= 0 -> Py.range n = [].
Proof.
  intros H. unfold Py.range.
  by replace (Z.to_nat n) with 0%nat by lia.
Qed.

Lemma range_last n : 0 < n -> last (Py.range n) = Some (n - 1).
Proof.
  intros H. unfold Py.range.
  destruct (Z.to_nat n) as [|k] eqn:E; [lia|].
  rewrite seq_S, map_app. cbn [map]. rewrite last_snoc. f_equal. lia.
Qed.

Section RetryGeneral.
Context {A : Type}.
Variable func : World -> result A * World.

Lemma retry_loop_last attempts : forall config d le w,
  attempts <> [] ->
  last attempts = Some (max_attempts config - 1) ->
  exists wl,
    match retry_loop func attempts config d le w with
    | (Some r, _, _, w') => func wl = (Ok r, w')
    | (None, _, Some e, w') => func wl = (Raise e, w')
    | (None, _, None, _) => False
    end.
Proof.
  induction attempts as [|a rest IH]; intros config d le w Hne Hlast;
    [done|].
  simpl. destruct (func w) as [[r|e] w1] eqn:Ef; [by exists w|].
  destruct rest as [|b rest].
  - simpl in Hlast. injection Hlast as ->.
    rewrite Z.ltb_irrefl. simpl. by exists w.
  - destruct (a <? max_attempts config - 1); by apply IH.
Qed.

Lemma retry_loop_delays (config : RetryConfig) k : forall i d le w,
  (forall w0, exists evs, log (func w0).2 = log w0 ++ evs /\ sleeps evs = []) ->
  (k = 0%nat \/ Z.to_nat (max_attempts config) = (i + k)%nat) ->
  exists evs,
    log (retry_loop func (map Z.of_nat (seq i k)) config d le w).2
      = log w ++ evs
    /\ sleeps evs `prefix_of` backoff_delays (k - 1) d (backoff config)
    /\ ((retry_loop func (map Z.of_nat (seq i k)) config d le w).1.1.1 = None
        -> sleeps evs = backoff_delays (k - 1) d (backoff config)).
Proof.
  induction k as [|k IH]; intros i d le w Hf Hk.
  { exists []. simpl. by rewrite app_nil_r. }
  destruct Hk as [Hk|Hk]; [done|].
  simpl. destruct (Hf w) as (evf & Hlf & Hsf).
  destruct (func w) as [[r|e] w1] eqn:Ef; simpl in Hlf.
  { exists evf. simpl. rewrite Hsf. split; [done|].
    split; [apply prefix_nil|done]. }
  destruct k as [|k'].
  - assert ((Z.of_nat i <? max_attempts config - 1) = false) as ->
      by (apply Z.ltb_ge; lia).
    exists evf. simpl. by rewrite Hsf.
  - assert ((Z.of_nat i <? max_attempts config - 1) = true) as ->
      by (apply Z.ltb_lt; lia).
    destruct (IH (S i) (PrimFloat.mul d (backoff config)) (Some e)
                (emit (Sleep (Py.PFloat d)) w1) Hf) as (evs & Hl & Hp & He);
      [right; lia|].
    exists (evf ++ Sleep (Py.PFloat d) :: evs).
    split; [rewrite Hl; simpl; rewrite Hlf; by rewrite <- !app_assoc|].
    replace (S k' - 1)%nat with k' in Hp, He by lia.
    rewrite sleeps_app, Hsf. simpl.
    split; [by apply prefix_cons|]. intros Hn. f_equal. by apply He.
Qed.
End RetryGeneral.

(** With [max_attempts <= 0] the loop of [retry_async] has no iteration:
    [func] is never called, nothing is awaited, and the generic
    [Exception("All retry attempts failed")] is raised. *)
Theorem retry_async_no_attempts {A : Type}
    (func : World -> result A * World) (config : RetryConfig) (w : World) :
  max_attempts config <= 0 ->
  retry_async func config w = (Raise Exception, config, w).
Proof.
  intros H. unfold retry_async. by rewrite (range_nonpos _ H).
Qed.

(** Witness of [retry_async_no_attempts]. *)
Lemma retry_async_no_attempts_witness :
  retry_async (fun w => (Ok 1, emit Disconnect w)) Sample9.no_attempts
    Sample.w0
  = (Raise Exception, Sample9.no_attempts, Sample.w0).
Proof.
  apply (retry_async_no_attempts (fun w => (Ok 1, emit Disconnect w))
           Sample9.no_attempts Sample.w0).
  simpl. lia.
Defined.

(** With at least one attempt allowed, what [retry_async] returns or
    raises, and the world it leaves, are exactly those of one call of
    [func], its last: the error raised is the last one (earlier ones are
    dropped, the generic exception is never raised), and nothing is
    awaited after the last attempt. *)
Theorem retry_async_last_call {A : Type}
    (func : World -> result A * World) (config : RetryConfig) (w : World) :
  0 < max_attempts config ->
  exists wl,
    func wl = ((retry_async func config w).1.1, (retry_async func config w).2).
Proof.
  intros H. unfold retry_async.
  destruct (retry_loop_last func (Py.range (max_attempts config)) config
              (delay config) None w) as [wl Hwl].
  { destruct (range_pos _ H) as [rest ->]. done. }
  { by apply range_last. }
  exists wl.
  by destruct (retry_loop func _ config (delay config) None w)
    as [[[[r|] c] [e|]] w'].
Qed.

(** Witness of [retry_async_last_call]: three failures in a row. *)
Lemma retry_async_last_call_witness :
  exists wl,
    @always_raises unit wl
    = ((retry_async (@always_raises unit) RetryConfig_default
          Sample.w0).1.1,
       (retry_async (@always_raises unit) RetryConfig_default Sample.w0).2).
Proof.
  apply (retry_async_last_call (@always_raises unit) RetryConfig_default
           Sample.w0).
  simpl. lia.
Defined.

(** The pauses of [retry_async], for any [func] that does not pause by
    itself: they are the first pauses of the sequence [delay],
    [delay * backoff], [delay * backoff * backoff], ... cut at
    [max_attempts - 1]; when the call raises, all [max_attempts - 1] of
    them were made. *)
Theorem retry_async_delays {A : Type}
    (func : World -> result A * World) (config : RetryConfig) (w : World) :
  (forall w0, exists evs, log (func w0).2 = log w0 ++ evs /\ sleeps evs = []) ->
  exists evs,
    log (retry_async func config w).2 = log w ++ evs
    /\ sleeps evs
       `prefix_of` backoff_delays (Z.to_nat (max_attempts config) - 1)
                     (delay config) (backoff config)
    /\ (forall e, (retry_async func config w).1.1 = Raise e ->
          sleeps evs
          = backoff_delays (Z.to_nat (max_attempts config) - 1)
              (delay config) (backoff config)).
Proof.
  intros Hf. unfold retry_async, Py.range.
  destruct (retry_loop_delays func config (Z.to_nat (max_attempts config))
              0%nat (delay config) None w Hf) as (evs & Hl & Hp & He);
    [by right|].
  exists evs.
  destruct (retry_loop func _ config (delay config) None w)
    as [[[[r|] c] [e|]] w']; simpl in *; (split; [done|]);
    (split; [done|]); intros e'; try discriminate; intros _; by apply He.
Qed.

(** Witness of [retry_async_delays]: the default configuration on a
    function that always raises. *)
Lemma retry_async_delays_witness :
  exists evs,
    log (retry_async (@always_raises unit) RetryConfig_default Sample.w0).2
      = log Sample.w0 ++ evs
    /\ sleeps evs
       `prefix_of` [Py.PFloat 1%float; Py.PFloat 2%float]
    /\ (forall e,
          (retry_async (@always_raises unit) RetryConfig_default
             Sample.w0).1.1 = Raise e ->
          sleeps evs = [Py.PFloat 1%float; Py.PFloat 2%float]).
Proof.
  apply (retry_async_delays (@always_raises unit) RetryConfig_default
           Sample.w0).
  intros w0. exists []. simpl. by rewrite app_nil_r.
Defined.

(** *** The registry *)

(** [get_music_queue] inserts only when the guild has no session: the
    session it returns is the one stored under the guild afterwards, an
    existing session is returned as it is with the registry, the clock
    and the log untouched, no other guild's entry changes, and a second
    call returns the same session without creating anything. *)
Theorem get_music_queue_spec (E : Env) (guild_id : Z)
    (music_queues : gmap Z EnhancedMusicQueue) (w : World) :
  let r := get_music_queue E guild_id music_queues w in
  r.1.2 !! guild_id = Some r.1.1
  /\ (forall g, g <> guild_id -> r.1.2 !! g = music_queues !! g)
  /\ (forall s, music_queues !! guild_id = Some s ->
        r = (s, music_queues, w))
  /\ (music_queues !! guild_id = None ->
        r.1.1 = EnhancedMusicQueue_init (time_time E (tick w))
        /\ log r.2 = log w)
  /\ get_music_queue E guild_id r.1.2 r.2 = r.
Proof.
  intros r. subst r. unfold get_music_queue.
  destruct (music_queues !! guild_id) as [s|] eqn:Eg; cbn [ask fst snd].
  - rewrite Eg. split; [done|]. split; [done|]. split; [by intros ? [= ->]|].
    by split.
  - rewrite lookup_insert_eq. split; [done|].
    split; [intros g Hg; by rewrite lookup_insert_ne|].
    split; [done|]. by split.
Qed.

(** *** The sweeper *)


(** *** The history ring in closed form *)

Lemma deque_append_drop {A} (maxlen : nat) (d : list A) (x : A) :
  (length d <= maxlen)%nat ->
  Py.deque_append maxlen d x
  = drop (length (d ++ [x]) - maxlen) (d ++ [x]).
Proof.
  intros H. unfold Py.deque_append. rewrite length_app. simpl.
  destruct (Nat.ltb_spec maxlen (length d + 1)) as [Hlt|Hge].
  - replace (length d + 1 - maxlen)%nat with 1%nat by lia.
    by destruct (d ++ [x]).
  - by replace (length d + 1 - maxlen)%nat with 0%nat by lia.
Qed.

(** After [get_autoplay_recommendations] has recorded its
    recommendations, the history ring holds the last 20 songs of the
    former history followed by the recommendations, in that order:
    recording never reorders or duplicates, it only forgets from the
    old end. *)
Theorem add_to_history_closed (history recommendations : list Song) :
  (length history <= autoplay_history_maxlen)%nat ->
  add_to_history history recommendations
  = drop (length (history ++ recommendations) - autoplay_history_maxlen)
      (history ++ recommendations).
Proof.
  unfold add_to_history. revert history.
  induction recommendations as [|x recs IH]; intros history H.
  { simpl. rewrite app_nil_r.
    by replace (length history - autoplay_history_maxlen)%nat with 0%nat
      by lia. }
  simpl. rewrite IH by (by apply deque_append_length).
  rewrite (deque_append_drop _ _ _ H).
  set (k := (length (history ++ [x]) - autoplay_history_maxlen)%nat).
  assert (k <= length (history ++ [x]))%nat as Hk by (subst k; lia).
  rewrite <- (drop_app_le (history ++ [x]) recs k Hk).
  rewrite drop_drop, <- app_assoc. simpl. f_equal.
  rewrite length_drop, !length_app. simpl.
  rewrite !length_app in Hk. subst k. rewrite !length_app. simpl in *. lia.
Qed.

(** Witness of [add_to_history_closed]: twenty-two songs recorded into an
    empty history leave the last twenty. *)
Lemma add_to_history_closed_witness :
  add_to_history [] Sample9.numbered = drop 2 Sample9.numbered.
Proof.
  apply (add_to_history_closed [] Sample9.numbered).
  simpl. lia.
Defined.

(** *** [stop] and autoplay *)

Lemma autoplay_attempt_log E fuel s w seed r :
  queue s = [] ->
  (autoplay_due E (set_current s None) w).1 = true ->
  Py.deque_last (last_played_songs s) = Some seed ->
  play_next_in_queue fuel E s w = Some r ->
  exists evs,
    log r.2 = log w ++ Recommend seed :: evs
    /\ forall x, Recommend x ∉ evs.
Proof.
  intros Hq Hdue Hlast Hrun.
  rewrite (play_next_in_queue_attempt E fuel s w seed Hq Hdue Hlast) in Hrun.
  pose proof (get_autoplay_recommendations_extends E seed
                (autoplay_state E s w) 3 300 (autoplay_world seed w)) as Hrec.
  destruct (get_autoplay_recommendations E seed (autoplay_state E s w) 3 300
              (autoplay_world seed w)) as [[recs s4] w4]. cbn [snd] in Hrec.
  assert (extends (fun e => forall x, e <> Recommend x) w4 r.2) as Hrest.
  { destruct recs as [|x recs].
    - injection Hrun as <-. eapply extends_impl;
        [|apply queue_finished_extends]. by intros e ->.
    - pose proof (add_songs_log E (x :: recs) (set_autoplay_failures s4 0)
                    w4) as Hadd.
      destruct (add_songs E (x :: recs) _ w4) as [s6 w5]. cbn [snd] in Hadd.
      eapply extends_trans; [apply extends_same_log; exact Hadd|].
      eapply extends_trans;
        [by apply (extends_emit _ (Send (AutoplayActive
                                          (length (x :: recs)))))|].
      unfold get_next_song in Hrun.
      destruct (queue s6) as [|c' q'].
      + injection Hrun as <-. eapply extends_impl;
          [|apply queue_finished_extends]. by intros e ->.
      + apply play_next_song_extends in Hrun. eapply extends_impl;
          [|exact Hrun]. intros e He y ->. exact He. }
  destruct Hrec as (e1 & Hl1 & F1). destruct Hrest as (e2 & Hl2 & F2).
  exists (e1 ++ e2). split.
  - rewrite Hl2, Hl1. unfold autoplay_world. simpl.
    by rewrite <- !app_assoc.
  - intros x Hin. apply elem_of_app in Hin as [Hin|Hin].
    + eapply (proj1 (Forall_forall _ _)) in F1; [|exact Hin]. exact F1.
    + eapply (proj1 (Forall_forall _ _)) in F2; [|exact Hin]. by eapply F2.
Qed.

(** [stop] does not switch autoplay off.  When the stopped stream's
    completion callback and the scheduled [play_next_in_queue] run after
    [stop], on a session with autoplay enabled, fewer than three
    failures and the last attempt more than 30 seconds back, the program
    asks for recommendations again, seeded with the last song that had
    ended before; the song that was stopped is not recorded in
    [last_played_songs], because [stop] has already cleared [current]. *)
Theorem stop_restarts_autoplay (E : Env) (fuel : nat)
    (s : EnhancedMusicQueue) (w : World) (vc : VoiceClient) (seed : Song)
    (r : EnhancedMusicQueue * World) :
  voice_client s = Some vc ->
  autoplay_enabled s = true ->
  autoplay_failures s < 3 ->
  Py.deque_last (last_played_songs s) = Some seed ->
  Py.float_gt (PrimFloat.sub (time_time E (S (tick w)))
                 (last_autoplay_attempt s)) 30%float = true ->
  let x := Commands.stop E s w in
  play_next_in_queue fuel E (after_playing x.1) x.2 = Some r ->
  last_played_songs (after_playing x.1) = last_played_songs s
  /\ log x.2 = log w
  /\ exists evs,
       log r.2 = log x.2 ++ Recommend seed :: evs
       /\ forall y, Recommend y ∉ evs.
Proof.
  intros Hvc Hen Haf Hlast Hgt x Hrun. subst x.
  unfold Commands.stop in *. rewrite Hvc in *. cbn [ask fst snd] in *.
  split; [reflexivity|]. split; [reflexivity|].
  eapply autoplay_attempt_log; [..|exact Hrun];
    [reflexivity| |exact Hlast].
  unfold autoplay_due.
  change (autoplay_enabled (set_current (after_playing _) None))
    with (autoplay_enabled s).
  change (last_played_songs (set_current (after_playing _) None))
    with (last_played_songs s).
  change (autoplay_failures (set_current (after_playing _) None))
    with (autoplay_failures s).
  change (last_autoplay_attempt (set_current (after_playing _) None))
    with (last_autoplay_attempt s).
  rewrite Hen.
  assert ((autoplay_failures s <? 3) = true) as -> by (by apply Z.ltb_lt).
  rewrite bool_decide_eq_false_2.
  2:{ intros Hnil. rewrite Hnil in Hlast. discriminate Hlast. }
  cbn [negb andb ask fst snd tick]. exact Hgt.
Qed.

(** Witness of [stop_restarts_autoplay]: "b" is stopped on a session
    with autoplay on; the seed of the new attempt is "a". *)
Lemma stop_restarts_autoplay_witness :
  exists seed r,
    title seed = "a"
    /\ play_next_in_queue 10 Sample3.env
         (after_playing
            (Commands.stop Sample3.env Sample10.auto.1 Sample10.auto.2).1)
         (Commands.stop Sample3.env Sample10.auto.1 Sample10.auto.2).2
       = Some r
    /\ Recommend seed ∈ log r.2.
Proof.
  destruct (Py.deque_last (last_played_songs Sample10.auto.1))
    as [seed|] eqn:Eseed; [|by vm_compute in Eseed].
  destruct (play_next_in_queue 10 Sample3.env
              (after_playing
                 (Commands.stop Sample3.env Sample10.auto.1
                    Sample10.auto.2).1)
              (Commands.stop Sample3.env Sample10.auto.1 Sample10.auto.2).2)
    as [r|] eqn:Erun; [|by vm_compute in Erun].
  exists seed, r.
  split; [vm_compute in Eseed; by injection Eseed as <-|].
  split; [reflexivity|].
  destruct (stop_restarts_autoplay Sample3.env 10 Sample10.auto.1
              Sample10.auto.2 (mkVoiceClient true 7) seed r)
    as (_ & _ & evs & Hlog & _).
  - vm_compute. reflexivity.
  - vm_compute. reflexivity.
  - vm_compute. reflexivity.
  - exact Eseed.
  - vm_compute. reflexivity.
  - exact Erun.
  - rewrite Hlog. apply elem_of_app. right. apply list_elem_of_here.
Defined.

(** *** One stream per call *)






(** *** The cost of one call of [play_next_song] *)

Lemma extractions_app evs1 evs2 :
  extractions (evs1 ++ evs2) = (extractions evs1 + extractions evs2)%nat.
Proof.
  induction evs1 as [|e evs1 IH]; [done|].
  destruct e; simpl; by rewrite ?IH.
Qed.

Lemma retry_loop_extractions {A} (func : World -> result A * World)
    attempts : forall config d le w,
  (forall w0, exists evs,
     log (func w0).2 = log w0 ++ evs /\ (extractions evs <= 1)%nat) ->
  exists evs,
    log (retry_loop func attempts config d le w).2 = log w ++ evs
    /\ (extractions evs <= length attempts)%nat.
Proof.
  induction attempts as [|a rest IH]; intros config d le w Hf.
  { exists []. simpl. rewrite app_nil_r. split; [done|lia]. }
  simpl. destruct (Hf w) as (evf & Hlf & Hcf).
  destruct (func w) as [[r|e] w1]; simpl in Hlf.
  { exists evf. simpl. split; [done|lia]. }
  destruct (a <? max_attempts config - 1).
  - destruct (IH config (PrimFloat.mul d (backoff config)) (Some e)
                (emit (Sleep (Py.PFloat d)) w1) Hf) as (evs & Hl & Hc).
    exists (evf ++ Sleep (Py.PFloat d) :: evs).
    split; [rewrite Hl; simpl; rewrite Hlf; by rewrite <- !app_assoc|].
    rewrite extractions_app. simpl. lia.
  - destruct (IH config d (Some e) w1 Hf) as (evs & Hl & Hc).
    exists (evf ++ evs).
    split; [rewrite Hl, Hlf; by rewrite <- !app_assoc|].
    rewrite extractions_app. lia.
Qed.

Lemma from_url_extractions E url w :
  exists evs,
    log (from_url E url play_retry_config w).2 = log w ++ evs
    /\ (extractions evs <= 3)%nat.
Proof.
  unfold from_url, retry_async.
  destruct (retry_loop_extractions (_extract_info E url)
              (Py.range (max_attempts play_retry_config)) play_retry_config
              (delay play_retry_config) None w) as (evs & Hl & Hc).
  { intros w0. pose proof (_extract_info_shape E url w0) as Hs.
    destruct (ytdl E).
    - destruct Hs as (res & -> & _). exists [Extract (ReqUrl url)].
      split; [done|]. simpl. lia.
    - rewrite Hs. exists []. simpl. rewrite app_nil_r. split; [done|lia]. }
  exists evs.
  destruct (retry_loop (_extract_info E url) _ play_retry_config _ None w)
    as [[[[r|] c] [e|]] w']; by split.
Qed.

Lemma play_next_song_work_fuel fuel : forall E m s w,
  (play_fuel s <= fuel)%nat ->
  exists r evs,
    play_next_song fuel E m s w = Some r
    /\ log r.2 = log w ++ evs
    /\ (extractions evs <= 3 * (play_fuel s - 1))%nat.
Proof.
  induction fuel as [|fuel IH]; intros E m s w Hf.
  { unfold play_fuel in Hf. lia. }
  rewrite <- play_fuel_take_current in Hf |- *. cbn [play_next_song].
  set (s0 := take_current s) in *.
  destruct (current s0) as [cur|] eqn:Ecur.
  2:{ eexists _, [Send QueueFinished]. split; [done|]. split; [done|].
      simpl. lia. }
  assert (play_fuel s0
          = S (song_budget cur + list_sum (map song_budget (queue s0))))
    as Hpf by (unfold play_fuel; by rewrite Ecur).
  assert (1 <= song_budget cur)%nat as Hb by (unfold song_budget; lia).
  remember (play_fuel s0) as n eqn:Hn.
  set (w1 := if m then emit (Send (Loading (title cur))) w else w) in *.
  assert (exists ev1, log w1 = log w ++ ev1 /\ extractions ev1 = 0%nat) as
    (ev1 & Hl1 & Hc1).
  { subst w1. destruct m; [by exists [Send (Loading (title cur))]|].
    exists []. by rewrite app_nil_r. }
  destruct (from_url_extractions E (youtube_url cur) w1)
    as (ev2 & Hl2 & Hc2).
  destruct (from_url E (youtube_url cur) play_retry_config w1)
    as [[[src|e] cfg] w2]; cbn [snd] in Hl2.
  - simpl. destruct (voice_client s0) as [[conn ch]|];
      [destruct conn|]; cbn [vc_connected].
    + eexists _, ((ev1 ++ ev2) ++ [Play (set_source cur (Some src));
                                   Send (NowPlaying (title cur))]).
      split; [done|].
      split; [simpl; rewrite Hl2, Hl1; by rewrite <- !app_assoc|].
      rewrite !extractions_app. cbn [extractions]. lia.
    + eexists _, (ev1 ++ ev2). split; [done|].
      split; [simpl; rewrite Hl2, Hl1; by rewrite <- !app_assoc|].
      rewrite !extractions_app. lia.
    + eexists _, (ev1 ++ ev2). split; [done|].
      split; [simpl; rewrite Hl2, Hl1; by rewrite <- !app_assoc|].
      rewrite !extractions_app. lia.
  - destruct (Z.ltb_spec (retry_count cur) (max_retries cur)) as [Hlt|Hge].
    + pose proof (song_budget_retry cur Hlt) as Hretry.
      assert (1 <= song_budget
                     (set_retry_count cur (retry_count cur + 1)))%nat
        as Hb' by (unfold song_budget; lia).
      set (s2 := set_current (set_is_playing s0 true)
                   (Some (set_retry_count cur (retry_count cur + 1)))).
      assert (play_fuel s2 = (n - 1)%nat) as Hp2.
      { rewrite Hpf. unfold play_fuel, s2. simpl. lia. }
      destruct (IH E m s2 (emit (Sleep (Py.PInt 2)) w2)) as
        (r & evs & Hr & Hl & Hc); [lia|].
      exists r, (ev1 ++ ev2 ++ Sleep (Py.PInt 2) :: evs).
      split; [exact Hr|].
      split; [rewrite Hl; simpl; rewrite Hl2, Hl1;
              by rewrite <- !app_assoc|].
      rewrite !extractions_app. cbn [extractions]. lia.
    + simpl. destruct (queue s0) as [|c q] eqn:Eq.
      * eexists _, (ev1 ++ ev2 ++ [Send (LoadFailed (title cur))]).
        split; [done|].
        split; [simpl; rewrite Hl2, Hl1; by rewrite <- !app_assoc|].
        rewrite !extractions_app. cbn [extractions]. lia.
      * set (s2 := set_current (set_is_playing s0 true) None).
        assert (play_fuel s2 <= n - 1)%nat as Hp2.
        { rewrite Hpf. unfold play_fuel, s2. simpl. rewrite Eq. simpl.
          lia. }
        assert (2 <= play_fuel s2)%nat as Hp3.
        { unfold play_fuel, s2. simpl. rewrite Eq. simpl.
          unfold song_budget. lia. }
        destruct (IH E false s2
                    (emit (Sleep (Py.PInt 2))
                       (emit (Send (LoadFailed (title cur))) w2))) as
          (r & evs & Hr & Hl & Hc); [lia|].
        exists r, (ev1 ++ ev2 ++ Send (LoadFailed (title cur))
                     :: Sleep (Py.PInt 2) :: evs).
        split; [exact Hr|].
        split; [rewrite Hl; simpl; rewrite Hl2, Hl1;
                by rewrite <- !app_assoc|].
        rewrite !extractions_app. cbn [extractions]. lia.
Qed.

Lemma list_sum_budget songs :
  Forall song_ok songs ->
  (list_sum (map song_budget songs) <= 3 * length songs)%nat.
Proof.
  induction 1 as [|x songs [Hm Hr] _ IH]; simpl; lia.
Qed.

(** One call of [play_next_song] always comes to an end, and it is
    cheap: with the fuel [play_fuel] the recursion returns, having sent
    at most three requests to yt-dlp per load attempt the session can
    still make; for songs within their retry cap that is at most nine
    requests for each song the session holds (the current one and the
    queue). *)
Theorem play_next_song_work (E : Env) (m : bool) (s : EnhancedMusicQueue)
    (w : World) :
  exists r evs,
    play_next_song (play_fuel s) E m s w = Some r
    /\ log r.2 = log w ++ evs
    /\ (extractions evs <= 3 * (play_fuel s - 1))%nat
    /\ (Forall song_ok (pending s) ->
        (extractions evs <= 9 * length (pending s))%nat).
Proof.
  destruct (play_next_song_work_fuel (play_fuel s) E m s w (le_n _))
    as (r & evs & Hr & Hl & Hc).
  exists r, evs. split; [exact Hr|]. split; [exact Hl|].
  split; [exact Hc|]. intros Hok.
  assert (play_fuel s - 1 <= 3 * length (pending s))%nat; [|lia].
  unfold play_fuel, pending in *. rewrite length_app.
  apply Forall_app in Hok as [Hcur Hq].
  pose proof (list_sum_budget _ Hq) as Hsum.
  destruct (current s) as [c|]; simpl in *; [|lia].
  apply Forall_cons in Hcur as [[Hm Hrc] _]. lia.
Qed.

(** *** Leaving an empty channel *)


(** *** Durations on display *)

Lemma append_nil_r a : String.append a "" = a.
Proof. induction a as [|c a IH]; [done|]. by rewrite append_cons, IH. Qed.

Lemma append_assoc a b c :
  String.append (String.append a b) c = String.append a (String.append b c).
Proof. induction a as [|x a IH]; [done|]. by rewrite !append_cons, IH. Qed.

Lemma pretty_N_go_app x : forall s1 s2,
  String.append (pretty_N_go x s1) s2 = pretty_N_go x (String.append s1 s2).
Proof.
  induction (N.lt_wf_0 x) as [x _ IH]; intros s1 s2.
  destruct (N.eq_dec x 0%N) as [->|Hx]; [by rewrite !pretty_N_go_0|].
  rewrite (pretty_N_go_step x s1),
    (pretty_N_go_step x (String.append s1 s2)) by lia.
  rewrite (IH (x `div` 10)%N) by (apply N.div_lt; lia).
  by rewrite append_cons.
Qed.

Lemma pretty_N_char_digit d :
  (d < 10)%N ->
  Ascii.eqb (pretty_N_char d) ":" = false
  /\ digit_val (pretty_N_char d) = Z.of_N d.
Proof.
  intros H.
  assert (d = 0 \/ d = 1 \/ d = 2 \/ d = 3 \/ d = 4 \/ d = 5 \/ d = 6
          \/ d = 7 \/ d = 8 \/ d = 9)%N as Hd by lia.
  repeat (destruct Hd as [->|Hd]; [by vm_compute|]). subst d. by vm_compute.
Qed.

Lemma read_pretty_N_go x : forall s t,
  read_duration t 0 (pretty_N_go x s) = read_duration t (Z.of_N x) s.
Proof.
  induction (N.lt_wf_0 x) as [x _ IH]; intros s t.
  destruct (N.eq_dec x 0%N) as [->|Hx]; [by rewrite pretty_N_go_0|].
  rewrite pretty_N_go_step by lia.
  rewrite (IH (x `div` 10)%N) by (apply N.div_lt; lia).
  cbn [read_duration].
  destruct (pretty_N_char_digit (x `mod` 10)%N) as [-> ->];
    [by apply N.mod_lt|].
  f_equal. rewrite N2Z.inj_mod, N2Z.inj_div. change (Z.of_N 10) with 10.
  pose proof (Z.div_mod (Z.of_N x) 10). lia.
Qed.

Lemma read_str_of_int n s t :
  0 <= n ->
  read_duration t 0 (String.append (str_of_int n) s) = read_duration t n s.
Proof.
  intros Hn. destruct n as [|p|p]; [done| |lia].
  unfold str_of_int, pretty, pretty_Z, pretty, pretty_positive, pretty,
    pretty_N.
  rewrite decide_False by done.
  rewrite pretty_N_go_app. change (String.append "" s) with s.
  by rewrite read_pretty_N_go.
Qed.

Lemma read_fmt_02d n s t :
  0 <= n ->
  read_duration t 0 (String.append (fmt_02d n) s) = read_duration t n s.
Proof.
  intros Hn. unfold fmt_02d. destruct (_ <? 2)%nat.
  - rewrite append_assoc, append_cons. cbn [read_duration].
    change (Ascii.eqb "0" ":") with false. cbv iota.
    change (10 * 0 + digit_val "0") with 0.
    change (String.append "" (String.append (str_of_int n) s))
      with (String.append (str_of_int n) s).
    by apply read_str_of_int.
  - by apply read_str_of_int.
Qed.

Lemma read_colon t f s :
  read_duration t f (String.append ":" s) = read_duration ((t + f) * 60) 0 s.
Proof. reflexivity. Qed.

Lemma read_format_duration sec :
  0 < sec -> read_duration 0 0 (format_duration (Some sec)) = sec.
Proof.
  intros Hs. unfold format_duration.
  assert (((sec =? 0) || (sec <=? 0)) = false) as -> by lia.
  pose proof (Z.div_mod sec 3600) as H1.
  pose proof (Z.div_mod (sec mod 3600) 60) as H2.
  pose proof (Z.mod_pos_bound sec 3600) as H3.
  pose proof (Z.mod_pos_bound (sec mod 3600) 60) as H4.
  assert (sec mod 60 = (sec mod 3600) mod 60) as H5.
  { symmetry. apply Z.mod_mod_divide. by exists 60. }
  assert (0 <= sec / 3600) as H6 by (apply Z.div_pos; lia).
  assert (0 <= sec mod 3600 / 60) as H7 by (apply Z.div_pos; lia).
  destruct (Z.ltb_spec 0 (sec / 3600)) as [Hh|Hh].
  - rewrite read_str_of_int, read_colon, read_fmt_02d, read_colon by lia.
    rewrite <- (append_nil_r (fmt_02d (sec mod 60))).
    rewrite read_fmt_02d by lia. cbn [read_duration]. lia.
  - rewrite read_str_of_int, read_colon by lia.
    rewrite <- (append_nil_r (fmt_02d (sec mod 60))).
    rewrite read_fmt_02d by lia. cbn [read_duration]. lia.
Qed.

(** [format_duration] loses nothing: it answers "Unknown" exactly for a
    missing, zero or negative duration, and two different positive
    durations are never rendered by the same text. *)
Theorem format_duration_faithful :
  (forall d, format_duration d = "Unknown"
             <-> d = None \/ exists n, d = Some n /\ n <= 0)
  /\ (forall a b, 0 < a -> 0 < b ->
        format_duration (Some a) = format_duration (Some b) -> a = b).
Proof.
  split.
  - intros [n|]; [|split; [by left|done]]. split.
    + intros H. right. exists n. split; [done|].
      destruct (Z.le_gt_cases n 0) as [Hle|Hgt]; [done|]. exfalso.
      pose proof (read_format_duration n ltac:(lia)) as Hr.
      rewrite H in Hr. vm_compute in Hr. subst n. by vm_compute in H.
    + intros [H|(n' & [= <-] & Hle)]; [done|]. unfold format_duration.
      by assert (((n =? 0) || (n <=? 0)) = true) as -> by lia.
  - intros a b Ha Hb H.
    rewrite <- (read_format_duration a Ha), <- (read_format_duration b Hb).
    by rewrite H.
Qed.

(** *** The queue on display *)

Lemma queue_lines_spec songs : forall i total,
  length (queue_lines i songs total).1 = length songs
  /\ forall k line,
       (queue_lines i songs total).1 !! k = Some line ->
       exists song,
         songs !! k = Some song
         /\ line = queue_line (i + Z.of_nat k) song.
Proof.
  induction songs as [|x songs IH]; intros i total; simpl; [by split|].
  destruct (IH (i + 1)
              match duration x with
              | Some d => if d =? 0 then total else total + d
              | None => total
              end) as [Hlen Hline].
  destruct (queue_lines (i + 1) songs _) as [lines t]. simpl in *.
  split; [by rewrite Hlen|]. intros [|k] line Hk; simpl in Hk.
  - injection Hk as <-. exists x. split; [done|]. f_equal. lia.
  - destruct (Hline k line Hk) as (song & Hs & ->).
    exists song. split; [done|]. f_equal. lia.
Qed.

(** What the queue embed shows.  It is the "empty" embed exactly when
    nothing is current and nothing is queued.  Otherwise it lists the
    first fifteen queued songs, line [k] being song [k] of the queue
    under the number [k + 1]; the "additional" field appears exactly when
    more than fifteen songs are queued; and songs beyond the fifteenth
    change neither the lines nor the footer: the total duration of the
    footer is that of the listed songs only. *)
Theorem show_queue_window (s : EnhancedMusicQueue) :
  (show_queue s = None <-> current s = None /\ queue s = [])
  /\ forall v, show_queue s = Some v ->
       length (up_next v) = Nat.min 15 (length (queue s))
       /\ (forall k line, up_next v !! k = Some line ->
             exists song,
               queue s !! k = Some song
               /\ line = queue_line (Z.of_nat k + 1) song)
       /\ (is_Some (additional v) <-> (15 < length (queue s))%nat)
       /\ forall extra,
            (15 <= length (queue s))%nat ->
            exists v',
              show_queue (set_queue s (queue s ++ extra)) = Some v'
              /\ up_next v' = up_next v
              /\ footer v' = footer v
              /\ now_field v' = now_field v.
Proof.
  unfold show_queue. split.
  { destruct (current s), (queue s) as [|x q] eqn:Eq; simpl;
      try destruct (queue_lines _ _ _); split; try done;
      by intros [? ?]. }
  intros v Hv.
  destruct (queue s) as [|x q] eqn:Eq.
  { destruct (current s); [|done]. injection Hv as <-. simpl.
    split; [done|]. split; [done|].
    split; [split; [by intros [? ?]|lia]|]. intros extra Hlen. lia. }
  assert (Some v
          = let '(queue_list, total_duration) :=
              queue_lines 1 (take 15 (x :: q)) 0 in
            Some (mkQueueEmbed (song_card <$> current s)
                    (Some (Py.len (x :: q))) queue_list
                    (if 15 <? Py.len (x :: q)
                     then Some (Py.len (x :: q) - 15) else None)
                    (if 0 <? total_duration
                     then Some (String.append "Total durasi queue: "
                                  (format_duration (Some total_duration)))
                     else None))) as Hv'
    by (by destruct (current s)).
  clear Hv.
  destruct (queue_lines_spec (take 15 (x :: q)) 1 0) as [Hlen Hline].
  destruct (queue_lines 1 (take 15 (x :: q)) 0) as [lines total] eqn:El.
  injection Hv' as ->. cbn [up_next additional footer now_field fst] in *.
  split; [by rewrite Hlen, length_take|].
  split.
  { intros k line Hk. destruct (Hline k line Hk) as (song & Hs & ->).
    exists song. apply lookup_take_Some in Hs as [Hs _].
    split; [done|]. f_equal. lia. }
  split.
  { unfold Py.len. destruct (Z.ltb_spec 15 (Z.of_nat (length (x :: q))));
      split; try (by intros [? ?]); try (by eexists); lia. }
  intros extra Hge. cbn [queue set_queue current].
  destruct (current s) as [c|]; destruct ((x :: q) ++ extra) as [|y q'] eqn:E';
    try discriminate E'; rewrite <- E'; rewrite (take_app_le _ _ _ Hge), El;
    by eexists.
Qed.

(** Witness of [show_queue_window]: seventeen songs are queued; fifteen
    are listed, two are announced as additional. *)
Lemma show_queue_window_witness :
  exists v,
    show_queue Sample11.long_queue = Some v
    /\ length (up_next v) = 15%nat
    /\ additional v = Some 2.
Proof.
  destruct (show_queue Sample11.long_queue) as [v|] eqn:Ev;
    [|by vm_compute in Ev].
  exists v. split; [reflexivity|].
  destruct (proj2 (show_queue_window Sample11.long_queue) v Ev)
    as (Hlen & _ & _ & _).
  split; [exact Hlen|]. vm_compute in Ev. by injection Ev as <-.
Defined.

(** *** [play] during playback *)


